(** * cellSNP: the partition / dispatch / merge orchestration of [main]

    A shallow embedding of [cellSNP/cellSNP.py].  The file follows the
    source top-down: the Python builtins that [main] relies on, the barcode
    loader, the two partitioning loops, the execution of the tasks (on the
    caller or through a [multiprocessing.Pool]) and the final call of the
    merge primitive.

    Conventions.
    - A Python [str] is a [string]; a character is an [ascii], read as a code
      point below 256.
    - A Python [int] is a [Z]; list lengths and positions inside a list are
      [nat] once the code has made sure they are not negative.
    - [int(a / b)] is modelled by [Z.quot]: the true quotient truncated
      towards zero.  The float quotient of the source is exact for operands
      below 2^53, far above any list length.
    - The file system is a finite map from paths to the lines of the file.
    - The pileup engine, the candidate-variant parser and the merge
      primitive live in [cellSNP/utils]; they are parameters of the model,
      and so is the exception that the reading of a text file may raise. *)

From Stdlib Require Import ZArith QArith Lia Ascii String.
From stdpp Require Import gmap strings list sorting pretty.

Open Scope string_scope.
Open Scope list_scope.
Open Scope Z_scope.

(** ** Python builtins used by [main] *)

Module Py.

(** [str.isspace] on one character, for code points below 256. *)
Definition isspace (c : ascii) : bool :=
  let n := N_of_ascii c in
  ((9 <=? n) && (n <=? 13) || (28 <=? n) && (n <=? 32)
   || (n =? 133) || (n =? 160))%N.

(** [s.rstrip()]: drop the trailing whitespace. *)
Fixpoint rstrip (s : string) : string :=
  match s with
  | EmptyString => EmptyString
  | String c s' =>
      match rstrip s' with
      | EmptyString => if isspace c then EmptyString else String c EmptyString
      | r => String c r
      end
  end.

(** [s.split(sep)] for a separator of one character. *)
Fixpoint split (sep : ascii) (s : string) : list string :=
  match s with
  | EmptyString => [EmptyString]
  | String c s' =>
      if decide (c = sep) then EmptyString :: split sep s'
      else match split sep s' with
           | w :: ws => String c w :: ws
           | [] => [String c EmptyString]
           end
  end.

(** [sorted(l)] on a list of strings: ascending code-point order. *)
Definition sorted (l : list string) : list string := merge_sort String.le l.

(** An index of a slice, as [slice.indices] resolves it against a length:
    a negative index counts from the end, and everything is clamped. *)
Definition slice_index (len i : Z) : Z :=
  if i <? 0 then Z.max 0 (i + len) else Z.min i len.

(** [l[lo:hi]]. *)
Definition slice {A} (l : list A) (lo hi : Z) : list A :=
  let len := Z.of_nat (length l) in
  let lo' := slice_index len lo in
  let hi' := slice_index len hi in
  take (Z.to_nat (hi' - lo')) (drop (Z.to_nat lo') l).

(** [range(n)] and [range(a, b)]. *)
Definition range (n : Z) : list Z := seqZ 0 n.
Definition range2 (a b : Z) : list Z := seqZ a (b - a).

(** [int(a / b)] for [b] other than 0: the quotient, truncated. *)
Definition int_div (a b : Z) : Z := Z.quot a b.

(** [str(n)] and ["%d" % n] for an integer. *)
Definition str (n : Z) : string := pretty n.

(** [s.upper()] on the ASCII letters.  The source only compares the result
    with ["NONE"], and no character outside ASCII has an upper case made of
    the letters N, O and E, so that comparison is decided by this
    definition. *)
Definition upper_char (c : ascii) : ascii :=
  let n := N_of_ascii c in
  if ((97 <=? n) && (n <=? 122))%N then ascii_of_N (n - 32) else c.

Fixpoint upper (s : string) : string :=
  match s with
  | EmptyString => EmptyString
  | String c s' => String (upper_char c) (upper s')
  end.

(** [s.rstrip(ch)]: drop the trailing copies of one character. *)
Fixpoint rstrip_char (ch : ascii) (s : string) : string :=
  match s with
  | EmptyString => EmptyString
  | String c s' =>
      match rstrip_char ch s' with
      | EmptyString =>
          if decide (c = ch) then EmptyString else String c EmptyString
      | r => String c r
      end
  end.

(** [p[:p.rfind("/") + 1]]: the part up to and including the last slash. *)
Fixpoint upto_last_slash (p : string) : string :=
  match p with
  | EmptyString => EmptyString
  | String c p' =>
      match upto_last_slash p' with
      | EmptyString =>
          if decide (c = "/"%char) then String c EmptyString else EmptyString
      | h => String c h
      end
  end.

Fixpoint all_slashes (s : string) : bool :=
  match s with
  | EmptyString => true
  | String c s' => bool_decide (c = "/"%char) && all_slashes s'
  end.

(** [os.path.dirname] of [posixpath]. *)
Definition dirname (p : string) : string :=
  let head := upto_last_slash p in
  if negb (bool_decide (head = "")) && negb (all_slashes head)
  then rstrip_char "/" head else head.

(** The line terminator. *)
Definition nl : string := String "010" EmptyString.

End Py.

(** ** Data of [main] *)

(** The option values that [parser.parse_args()] returns, one field per
    [dest].  A path or list option that was not given is [None]. *)
Record options := Options {
  out_file : option string;
  sam_file : option string;
  barcode_file : option string;
  region_file : option string;
  nproc : Z;
  chrom_all : option string;
  cell_tag : string;
  UMI_tag : string;
  min_COUNT : Z;
  min_MAF : Q;
  min_LEN : Z;
  min_MAPQ : Z;
  max_FLAG : Z
}.

(** The [default=] values of the option declarations. *)
Definition default_options : options :=
  {| out_file := None; sam_file := None; barcode_file := None;
     region_file := None; nproc := 1; chrom_all := None;
     cell_tag := "CR"; UMI_tag := "UR"; min_COUNT := 20; min_MAF := 0%Q;
     min_LEN := 30; min_MAPQ := 20; max_FLAG := 255 |}.

(** What [parse_vcf_file] returns: the dictionary with the keys ["chrom"],
    ["pos"], ["REF"] and ["ALT"]. *)
Record vcf_RV := VcfRV {
  vcf_chrom : list string;
  vcf_pos : list Z;
  vcf_REF : list string;
  vcf_ALT : list string
}.

(** The positional arguments of one call of [pileup_regions]. *)
Record pileup_args := PileupArgs {
  pa_sam_file : string;
  pa_barcodes : option (list string);
  pa_out_file : string;
  pa_chrom : string;
  pa_cell_tag : option string;
  pa_UMI_tag : option string;
  pa_min_COUNT : Z;
  pa_min_MAF : Q;
  pa_min_MAPQ : Z;
  pa_max_FLAG : Z;
  pa_min_LEN : Z;
  pa_last : bool
}.

(** The positional arguments of one call of [fetch_positions]. *)
Record fetch_args := FetchArgs {
  fa_sam_file : string;
  fa_chrom : list string;
  fa_pos : list Z;
  fa_REF : list string;
  fa_ALT : list string;
  fa_barcodes : option (list string);
  fa_out_file : string;
  fa_cell_tag : option string;
  fa_UMI_tag : option string;
  fa_min_COUNT : Z;
  fa_min_MAF : Q;
  fa_min_MAPQ : Z;
  fa_max_FLAG : Z;
  fa_min_LEN : Z;
  fa_last : bool
}.

(** A unit of work: an engine together with its arguments. *)
Inductive task :=
| PileupRegions (a : pileup_args)
| FetchPositions (a : fetch_args).

(** The temporary output path a task writes. *)
Definition task_out (t : task) : string :=
  match t with
  | PileupRegions a => pa_out_file a
  | FetchPositions a => fa_out_file a
  end.

Inductive exn :=
| ZeroDivisionError
| ValueError (msg : string)
| IOError (path : string)
| NotReady
| EngineError (reason : string).

(** How a call ends: with a value, or with an exception. *)
Inductive outcome (A : Type) :=
| Returned (a : A)
| Failed (e : exn).
Arguments Returned {A} a.
Arguments Failed {A} e.

(** What [main] does that can be seen from outside, in the order it does
    it.  [EvDone t None] is the completion of task [t] with a value and
    [EvDone t (Some e)] its completion with the exception [e]. *)
Inductive event :=
| EvPrint (s : string)
| EvPrintRunTime
| EvIsFile (p : string)
| EvIsDir (p : string)
| EvOpen (p : string)
| EvParseVcf (p : string)
| EvPool (processes : Z)
| EvApplyAsync (t : task)
| EvCall (t : task)
| EvDone (t : task) (failure : option exn)
| EvPoolClose
| EvPoolJoin
| EvMerge (out : string) (parts : list string).

(** The file system: the lines of every file, and the directories. *)
Record world := World {
  files : gmap string (list string);
  dirs : gset string;
  log : list event
}.

(** What [main] relies on and the file does not hold: the functions imported
    from [cellSNP.utils], and the reading of a text file.  The engines and
    the merge primitive read and write files; the parser reads one.
    [read_failure p lines] is the exception, when there is one, that
    [open(p, "r")] or [fid.readlines()] raises on the existing file [p] of
    content [lines]: no permission to read it, a byte that does not decode.
    [RV] is the type of the value an engine returns. *)
Class Utils (RV : Type) := {
  pileup_regions :
    pileup_args → gmap string (list string) →
    gmap string (list string) * outcome RV;
  fetch_positions :
    fetch_args → gmap string (list string) →
    gmap string (list string) * outcome RV;
  merge_vcf :
    string → list string → gmap string (list string) →
    gmap string (list string) * outcome unit;
  parse_vcf_file : string → gmap string (list string) → outcome vcf_RV;
  read_failure : string → list string → option exn
}.

(** ** The monad of [main]: state, [sys.exit] and exceptions *)

Inductive res (A : Type) :=
| Ok (a : A)
| Exit (code : Z)
| Raise (e : exn).
Arguments Ok {A} a.
Arguments Exit {A} code.
Arguments Raise {A} e.

Definition M (A : Type) : Type := world → res A * world.

Global Instance M_ret : MRet M := λ A a w, (Ok a, w).

Global Instance M_bind : MBind M := λ A B f m w,
  match m w with
  | (Ok a, w') => f a w'
  | (Exit c, w') => (Exit c, w')
  | (Raise e, w') => (Raise e, w')
  end.

Definition emit (e : event) : M unit :=
  λ w, (Ok (), {| files := files w; dirs := dirs w; log := log w ++ [e] |}).

Definition print (s : string) : M unit := emit (EvPrint s).

Definition sys_exit {A} (code : Z) : M A := λ w, (Exit code, w).

Definition raise {A} (e : exn) : M A := λ w, (Raise e, w).

(** Reading the state without changing it. *)
Definition gets {A} (f : world → A) : M A := λ w, (Ok (f w), w).

(** [os.path.isfile] and [os.path.isdir]; the empty path is no directory. *)
Definition isfile (p : string) : M bool :=
  emit (EvIsFile p) ;; gets (λ w, bool_decide (is_Some (files w !! p))).

Definition isdir (p : string) : M bool :=
  emit (EvIsDir p) ;;
  gets (λ w, negb (bool_decide (p = "")) && bool_decide (p ∈ dirs w)).

(** [open(p, "r")] followed by [readlines()] and [close()]: the lines of
    the file, or the exception that the opening or the reading raises. *)
Definition readlines {RV} `{!Utils RV} (p : string) : M (list string) :=
  emit (EvOpen p) ;;
  content ← gets (λ w, files w !! p);
  match content with
  | Some lines =>
      match read_failure p lines with
      | Some e => raise e
      | None => mret lines
      end
  | None => raise (IOError p)
  end.

(** A [for] loop over a list, threading the variables the body assigns. *)
Fixpoint for_each {A S} (l : list A) (body : A → S → M S) (s : S) : M S :=
  match l with
  | [] => mret s
  | x :: l' => s' ← body x s; for_each l' body s'
  end.

(** A list comprehension whose element expression has effects. *)
Fixpoint comprehension {A B} (f : A → M B) (l : list A) : M (list B) :=
  match l with
  | [] => mret []
  | x :: l' => y ← f x; ys ← comprehension f l'; mret (y :: ys)
  end.

(** ** [main], top to bottom *)

(** The element expression of the barcode comprehension,
    [x.rstrip().split("-")[0]].  [split] never returns the empty list. *)
Definition first_segment (x : string) : string :=
  match Py.split "-" (Py.rstrip x) with
  | w :: _ => w
  | [] => ""
  end.

(** The barcodes computed from the result of [fid.readlines()]. *)
Definition barcodes_of_lines (lines : list string) : list string :=
  Py.sorted (first_segment <$> lines).

(** [out_file + ".temp_%s_" %(_chrom)] and [out_file + ".temp_%d_" %(ii)]. *)
Definition chr_out_file (out_file _chrom : string) : string :=
  out_file +:+ ".temp_" +:+ _chrom +:+ "_".

Definition out_file_tmp (out_file : string) (ii : Z) : string :=
  out_file +:+ ".temp_" +:+ Py.str ii +:+ "_".

(** [chrom_all] as computed from the [--chrom] option. *)
Definition chrom_all_of (opt : option string) : list string :=
  match opt with
  | None => Py.str <$> Py.range2 1 23
  | Some s => Py.split "," s
  end.

(** A tag, switched off by any spelling of ["none"]. *)
Definition tag_of (s : string) : option string :=
  if decide (Py.upper s = "NONE") then None else Some s.

(** The slice of [l] that the loop of the targeted mode gives to task
    [ii]. *)
Definition task_slice {A} (l : list A) (LEN_div nproc ii : Z) : list A :=
  if decide (ii = nproc - 1)
  then Py.slice l (LEN_div * ii) (Z.of_nat (length l))
  else Py.slice l (LEN_div * ii) (LEN_div * (ii + 1)).

(** An element of the list [result]: the handle that [apply_async] returned,
    or the value obtained from it. *)
Inductive pyres (RV : Type) :=
| Handle (h : nat)
| Value (v : RV).
Arguments Handle {RV} h.
Arguments Value {RV} v.

(** The order in which the tasks of a pool of [n] tasks complete, read off a
    schedule: the tasks named by the schedule first, each once, then the
    others.  Every list is a schedule, and every completion order arises
    from one. *)
Definition completion_order (sched : list nat) (n : nat) : list nat :=
  let first := remove_dups (filter (λ i, i < n)%nat sched) in
  first ++ list_difference (seq 0 n) first.

Section Main.
Context {RV : Type} `{!Utils RV}.

Definition show_progress {A} (rv : A) : A := rv.

(** A call of an imported function: its effect on the files, then its
    value or its exception. *)
Definition external {A}
    (f : gmap string (list string) → gmap string (list string) * outcome A)
    : M A :=
  λ w, let '(fs, o) := f (files w) in
       let w' := {| files := fs; dirs := dirs w; log := log w |} in
       match o with
       | Returned a => (Ok a, w')
       | Failed e => (Raise e, w')
       end.

Definition run_task (t : task) (fs : gmap string (list string))
    : gmap string (list string) * outcome RV :=
  match t with
  | PileupRegions a => pileup_regions a fs
  | FetchPositions a => fetch_positions a fs
  end.

Definition failure {A} (o : outcome A) : option exn :=
  match o with
  | Returned _ => None
  | Failed e => Some e
  end.

(** The execution of a task, wherever it happens: its effect on the files
    and the record of its completion. *)
Definition execute (t : task) (w : world) : outcome RV * world :=
  let '(fs, o) := run_task t (files w) in
  (o, {| files := fs; dirs := dirs w;
         log := log w ++ [EvDone t (failure o)] |}).

Definition completion (t : task) : M (outcome RV) :=
  λ w, let '(o, w') := execute t w in (Ok o, w').

(** A task run on the caller: its exception is the caller's. *)
Definition call (t : task) : M RV :=
  emit (EvCall t) ;;
  o ← completion t;
  match o with
  | Returned v => mret v
  | Failed e => raise e
  end.

(** [multiprocessing.Pool(processes=n)]; the pool is the list of the tasks
    submitted so far. *)
Definition Pool (processes : Z) : M (list task) :=
  emit (EvPool processes) ;;
  if processes <? 1
  then raise (ValueError "Number of processes must be at least 1")
  else mret [].

(** [pool.apply_async(f, args, callback=show_progress)]: the task joins the
    pool and its position there is the handle. *)
Definition apply_async (pool : list task) (t : task)
    : M (list task * pyres RV) :=
  emit (EvApplyAsync t) ;; mret (pool ++ [t], Handle (length pool)).

(** The workers: the tasks run to completion in the given order, each one
    keeping its value or its exception for its handle.  The callback
    [show_progress] returns its argument and has no effect. *)
Fixpoint run_pool (order : list nat) (pool : list task)
    (w : world) (done : gmap nat (outcome RV))
    : gmap nat (outcome RV) * world :=
  match order with
  | [] => (done, w)
  | i :: order' =>
      match pool !! i with
      | Some t =>
          let '(o, w') := execute t w in
          run_pool order' pool w' (<[i := o]> done)
      | None => run_pool order' pool w done
      end
  end.

(** [pool.close()] and [pool.join()]: when [join] returns every task has
    completed. *)
Definition workers (sched : list nat) (pool : list task)
    : M (gmap nat (outcome RV)) :=
  λ w, let '(done, w') :=
         run_pool (completion_order sched (length pool)) pool w ∅ in
       (Ok done, w').

Definition close_join (sched : list nat) (pool : list task)
    : M (gmap nat (outcome RV)) :=
  emit EvPoolClose ;;
  done ← workers sched pool;
  emit EvPoolJoin ;;
  mret done.

(** [res.get()]: the value of the task, or its exception raised again. *)
Definition get (done : gmap nat (outcome RV)) (res : pyres RV) : M (pyres RV) :=
  match res with
  | Handle h =>
      match done !! h with
      | Some (Returned v) => mret (Value v)
      | Some (Failed e) => raise e
      | None => raise NotReady
      end
  | Value v => mret (Value v)
  end.

(** Lines 68-80. *)
Definition load_barcodes (options : options) : M (option (list string)) :=
  match barcode_file options with
  | None => mret None
  | Some bf =>
      found ← isfile bf;
      if negb found then
        print ("Error: No such file" +:+ Py.nl +:+ "    -- " +:+ bf) ;;
        sys_exit 1
      else
        lines ← readlines bf;
        let barcodes := barcodes_of_lines lines in
        print ("[cellSNP] " +:+ Py.str (Z.of_nat (length barcodes))
               +:+ " effective cell barcodes are used.") ;;
        mret (Some barcodes)
  end.

(** Lines 82-89. *)
Definition check_sam_file (options : options) : M string :=
  match sam_file options with
  | None => print "Error: need samFile for sam file." ;; sys_exit 1
  | Some sf =>
      found ← isfile sf;
      if negb found then
        print ("Error: No such file" +:+ Py.nl +:+ "    -- " +:+ sf) ;;
        sys_exit 1
      else mret sf
  end.

(** Lines 91-98. *)
Definition check_out_file (options : options) : M string :=
  match out_file options with
  | None =>
      print "Error: need outFile for output file path and name." ;;
      sys_exit 1
  | Some f =>
      found ← isdir (Py.dirname f);
      if negb found then
        print ("Error: No such directory for file" +:+ Py.nl +:+ " -- " +:+ f) ;;
        sys_exit 1
      else mret f
  end.

(** Lines 100-112: [None] stands for [region_file = None]; otherwise the
    parsed candidates. *)
Definition load_regions (options : options) : M (option vcf_RV) :=
  match region_file options with
  | None => mret None
  | Some rf =>
      if decide (rf = "None") then mret None
      else
        found ← isfile rf;
        if negb found then
          print ("Error: No such file" +:+ Py.nl +:+ "    -- " +:+ rf) ;;
          sys_exit 1
        else
          emit (EvParseVcf rf) ;;
          vcf ← external (λ fs, (fs, parse_vcf_file rf fs));
          print ("[cellSNP] " +:+ Py.str (Z.of_nat (length (vcf_pos vcf)))
                 +:+ " candidate variants to fetch.") ;;
          mret (Some vcf)
  end.

(** The local variables of [main] that the two dispatch branches read;
    lines 114-132 assign the last nine. *)
Record locals := Locals {
  l_barcodes : option (list string);
  l_sam_file : string;
  l_out_file : string;
  l_cell_tag : option string;
  l_UMI_tag : option string;
  l_chrom_all : list string;
  l_nproc : Z;
  l_min_MAF : Q;
  l_min_LEN : Z;
  l_min_MAPQ : Z;
  l_max_FLAG : Z;
  l_min_COUNT : Z
}.

(** The same local variables with another value of [nproc]. *)
Definition set_nproc (n : Z) (L : locals) : locals :=
  {| l_barcodes := l_barcodes L; l_sam_file := l_sam_file L;
     l_out_file := l_out_file L; l_cell_tag := l_cell_tag L;
     l_UMI_tag := l_UMI_tag L; l_chrom_all := l_chrom_all L;
     l_nproc := n; l_min_MAF := l_min_MAF L; l_min_LEN := l_min_LEN L;
     l_min_MAPQ := l_min_MAPQ L; l_max_FLAG := l_max_FLAG L;
     l_min_COUNT := l_min_COUNT L |}.

(** The argument tuple of lines 142-144 and 152-154. *)
Definition pileup_task (L : locals) (chr_out_file _chrom : string) : task :=
  PileupRegions
    {| pa_sam_file := l_sam_file L; pa_barcodes := l_barcodes L;
       pa_out_file := chr_out_file; pa_chrom := _chrom;
       pa_cell_tag := l_cell_tag L; pa_UMI_tag := l_UMI_tag L;
       pa_min_COUNT := l_min_COUNT L;
       pa_min_MAF := l_min_MAF L;
       pa_min_MAPQ := l_min_MAPQ L;
       pa_max_FLAG := l_max_FLAG L;
       pa_min_LEN := l_min_LEN L; pa_last := true |}.

(** The argument tuple of lines 174-176.  [REF_list] and [ALT_list] are
    passed whole. *)
Definition fetch_task (L : locals) (vcf : vcf_RV) (out_file_tmp : string)
    (_chrom : list string) (_pos : list Z) : task :=
  FetchPositions
    {| fa_sam_file := l_sam_file L; fa_chrom := _chrom; fa_pos := _pos;
       fa_REF := vcf_REF vcf; fa_ALT := vcf_ALT vcf;
       fa_barcodes := l_barcodes L; fa_out_file := out_file_tmp;
       fa_cell_tag := l_cell_tag L; fa_UMI_tag := l_UMI_tag L;
       fa_min_COUNT := l_min_COUNT L;
       fa_min_MAF := l_min_MAF L;
       fa_min_MAPQ := l_min_MAPQ L;
       fa_max_FLAG := l_max_FLAG L;
       fa_min_LEN := l_min_LEN L; fa_last := true |}.

(** Lines 138-147: one submission per chromosome, then the barrier. *)
Definition pileup_pool (sched : list nat) (L : locals)
    (chrom_all : list string)
    : M (list string * list (pyres RV) * gmap nat (outcome RV)) :=
  pool ← Pool (l_nproc L);
  '(out_files, result, pool) ←
    for_each chrom_all
      (λ _chrom '(out_files, result, pool),
         let f := chr_out_file (l_out_file L) _chrom in
         let out_files := out_files ++ [f] in
         '(pool, res) ← apply_async pool (pileup_task L f _chrom);
         mret (out_files, result ++ [res], pool))
      ([], [], pool);
  done ← close_join sched pool;
  mret (out_files, result, done).

(** Lines 149-155: one call per chromosome, on the caller. *)
Definition pileup_caller (L : locals) (chrom_all : list string)
    : M (list string * list (pyres RV) * gmap nat (outcome RV)) :=
  '(out_files, result) ←
    for_each chrom_all
      (λ _chrom '(out_files, result),
         let f := chr_out_file (l_out_file L) _chrom in
         let out_files := out_files ++ [f] in
         call (pileup_task L f _chrom) ;;
         let _ := show_progress 1 in
         mret (out_files, result))
      ([], []);
  mret (out_files, result, ∅).

(** Lines 136-158. *)
Definition pileup_genome (sched : list nat) (L : locals)
    (chrom_all : list string) : M (list string * list (pyres RV)) :=
  '(out_files, result, done) ←
    (if l_nproc L >? 1
     then pileup_pool sched L chrom_all
     else pileup_caller L chrom_all);
  result ←
    comprehension
      (λ res, if l_nproc L >? 1 then get done res else mret res)
      result;
  print "" ;;
  print "[cellSNP] Whole genome pileupped, now merging all variants ..." ;;
  mret (out_files, result).

(** Lines 160-184. *)
Definition fetch_candidates (sched : list nat) (L : locals) (vcf : vcf_RV)
    : M (list string * list (pyres RV)) :=
  let nproc := l_nproc L in
  (if decide (nproc = 0) then raise ZeroDivisionError else mret ()) ;;
  let LEN_div := Py.int_div (Z.of_nat (length (vcf_chrom vcf))) nproc in
  pool ← Pool nproc;
  '(out_files, result, pool) ←
    for_each (Py.range nproc)
      (λ ii '(out_files, result, pool),
         let f := out_file_tmp (l_out_file L) ii in
         let out_files := out_files ++ [f] in
         let _pos := task_slice (vcf_pos vcf) LEN_div nproc ii in
         let _chrom := task_slice (vcf_chrom vcf) LEN_div nproc ii in
         '(pool, res) ← apply_async pool (fetch_task L vcf f _chrom _pos);
         mret (out_files, result ++ [res], pool))
      ([], [], pool);
  done ← close_join sched pool;
  result ← comprehension (get done) result;
  print "" ;;
  print ("[cellSNP] fetched " +:+ Py.str (Z.of_nat (length (vcf_pos vcf)))
         +:+ " variants, now merging temp files ... ") ;;
  mret (out_files, result).

(** Lines 62-132: the checks of the arguments and the local variables
    they leave behind.  [argv] is [sys.argv[1:]]. *)
Definition configure (argv : list string) (options : options)
    : M (locals * option vcf_RV) :=
  (if bool_decide (length argv = 0%nat) then
     print ("Welcome to cellSNP!" +:+ Py.nl) ;;
     print "use -h or --help for help on argument." ;;
     sys_exit 1
   else mret ()) ;;
  barcodes ← load_barcodes options;
  sam_file ← check_sam_file options;
  out_file ← check_out_file options;
  region ← load_regions options;
  mret ({| l_barcodes := barcodes; l_sam_file := sam_file;
           l_out_file := out_file;
           l_cell_tag := tag_of (cell_tag options);
           l_UMI_tag := tag_of (UMI_tag options);
           l_chrom_all := chrom_all_of (chrom_all options);
           l_nproc := nproc options;
           l_min_MAF := min_MAF options;
           l_min_LEN := min_LEN options;
           l_min_MAPQ := min_MAPQ options;
           l_max_FLAG := max_FLAG options;
           l_min_COUNT := min_COUNT options |}, region).

(** Lines 134-186: the dispatch of the tasks and the call of the merge
    primitive. *)
Definition dispatch_merge (sched : list nat) (L : locals)
    (region : option vcf_RV) : M unit :=
  '(out_files, result) ←
    match region with
    | None => pileup_genome sched L (l_chrom_all L)
    | Some vcf => fetch_candidates sched L vcf
    end;
  emit (EvMerge (l_out_file L) out_files) ;;
  external (merge_vcf (l_out_file L) out_files).

(** [main()].  [options] are the parsed options and [sched] is the
    schedule of the workers. *)
Definition main (argv : list string) (options : options)
    (sched : list nat) : M unit :=
  '(L, region) ← configure argv options;
  dispatch_merge sched L region ;;
  emit EvPrintRunTime.

End Main.

(** A run of the program from a file system, with an empty log. *)
Definition run {RV} `{!Utils RV} (argv : list string) (options : options)
    (sched : list nat) (fs : gmap string (list string)) (ds : gset string)
    : res unit * world :=
  main argv options sched {| files := fs; dirs := ds; log := [] |}.

(** ** Reading a log *)

(** A world after some more events. *)
Definition add_log (w : world) (evs : list event) : world :=
  {| files := files w; dirs := dirs w; log := log w ++ evs |}.
Arguments add_log : simpl never.

(** The tasks handed to the engines, in the order of the hand-over: the
    submissions to a pool and the calls on the caller. *)
Definition dispatched (lg : list event) : list task :=
  omap (λ e, match e with
             | EvApplyAsync t | EvCall t => Some t
             | _ => None
             end) lg.

(** The tasks that completed with an exception. *)
Definition failures (lg : list event) : list task :=
  omap (λ e, match e with
             | EvDone t (Some _) => Some t
             | _ => None
             end) lg.

(** The tasks in the order of their completion. *)
Definition completed (lg : list event) : list task :=
  omap (λ e, match e with EvDone t _ => Some t | _ => None end) lg.

(** The arguments of the calls of the merge primitive. *)
Definition merges (lg : list event) : list (string * list string) :=
  omap (λ e, match e with
             | EvMerge out parts => Some (out, parts)
             | _ => None
             end) lg.

(** The sizes of the pools created. *)
Definition pools (lg : list event) : list Z :=
  omap (λ e, match e with EvPool n => Some n | _ => None end) lg.

(** What the comprehension [[res.get() for res in result]] computes from the
    outcomes kept for the handles [hs]: the values, or the first
    exception. *)
Fixpoint gather {RV} (done : gmap nat (outcome RV)) (hs : list nat)
    : outcome (list (pyres RV)) :=
  match hs with
  | [] => Returned []
  | h :: hs' =>
      match done !! h with
      | Some (Returned v) =>
          match gather done hs' with
          | Returned vs => Returned (Value v :: vs)
          | Failed e => Failed e
          end
      | Some (Failed e) => Failed e
      | None => Failed NotReady
      end
  end.

(** The tasks of the whole-genome branch, one per element of [chrom_all],
    and the tasks of the targeted branch, one per element of
    [range(nproc)], as the two loops build them. *)
Definition pileup_tasks (L : locals) (chrom_all : list string) : list task :=
  (λ _chrom, pileup_task L (chr_out_file (l_out_file L) _chrom) _chrom)
  <$> chrom_all.

Definition fetch_tasks (L : locals) (vcf : vcf_RV) : list task :=
  let nproc := l_nproc L in
  let LEN_div := Py.int_div (Z.of_nat (length (vcf_chrom vcf))) nproc in
  (λ ii, fetch_task L vcf (out_file_tmp (l_out_file L) ii)
           (task_slice (vcf_chrom vcf) LEN_div nproc ii)
           (task_slice (vcf_pos vcf) LEN_div nproc ii))
  <$> Py.range nproc.

(** The candidates a task of the targeted branch is given. *)
Definition task_pos (t : task) : list Z :=
  match t with
  | FetchPositions a => fa_pos a
  | PileupRegions _ => []
  end.

Definition task_chrom (t : task) : list string :=
  match t with
  | FetchPositions a => fa_chrom a
  | PileupRegions _ => []
  end.

(** The chromosome a task of the whole-genome branch is given. *)
Definition task_key (t : task) : option string :=
  match t with
  | PileupRegions a => Some (pa_chrom a)
  | FetchPositions _ => None
  end.

(** The tasks of a job, by its mode. *)
Definition job_tasks (L : locals) (region : option vcf_RV) : list task :=
  match region with
  | None => pileup_tasks L (l_chrom_all L)
  | Some vcf => fetch_tasks L vcf
  end.

(** What the loop of calls on the caller does with the tasks [ts]: it runs
    them in order and stops at the first exception. *)
Fixpoint calls {RV} `{!Utils RV} (ts : list task) (w : world)
    : option exn * world :=
  match ts with
  | [] => (None, w)
  | t :: ts' =>
      match execute t (add_log w [EvCall t]) with
      | (Returned _, w') => calls ts' w'
      | (Failed e, w') => (Some e, w')
      end
  end.

(** Two tasks are independent when the order in which they run changes
    neither the files they leave nor how each of them ends. *)
Definition independent {RV} `{!Utils RV} (t1 t2 : task) : Prop :=
  ∀ fs,
    (run_task t2 (run_task t1 fs).1).1 = (run_task t1 (run_task t2 fs).1).1 ∧
    (run_task t1 (run_task t2 fs).1).2 = (run_task t1 fs).2 ∧
    (run_task t2 (run_task t1 fs).1).2 = (run_task t2 fs).2.

Definition pairwise_independent {RV} `{!Utils RV} (pool : list task) : Prop :=
  ∀ i j ti tj,
    i ≠ j → pool !! i = Some ti → pool !! j = Some tj → independent ti tj.

(** A task changes no file but its own output. *)
Definition writes_own_output {RV} `{!Utils RV} (t : task) : Prop :=
  ∀ fs p, p ≠ task_out t → (run_task t fs).1 !! p = fs !! p.

(** The files that the executions of the tasks [ts], one after the other,
    leave behind. *)
Definition replay {RV} `{!Utils RV} (fs : gmap string (list string))
    (ts : list task) : gmap string (list string) :=
  foldl (λ fs t, (run_task t fs).1) fs ts.

(** An event that is the completion of a task. *)
Definition is_completion (e : event) : Prop :=
  match e with EvDone _ _ => True | _ => False end.

(** An event of the loop of calls on the caller. *)
Definition is_caller_event (e : event) : Prop :=
  match e with EvCall _ | EvDone _ _ => True | _ => False end.

(** An event of the checks of the arguments. *)
Definition is_check (e : event) : Prop :=
  match e with
  | EvPrint _ | EvIsFile _ | EvIsDir _ | EvOpen _ | EvParseVcf _ => True
  | _ => False
  end.

(** An event of the checks other than the call of the parser. *)
Definition is_quiet (e : event) : Prop :=
  match e with
  | EvPrint _ | EvIsFile _ | EvIsDir _ | EvOpen _ => True
  | _ => False
  end.

(** A printed line. *)
Definition is_print (e : event) : Prop :=
  match e with EvPrint _ => True | _ => False end.

(** An event of the dispatch and of the merge: anything but a check of a
    path, the reading of a file or the call of the parser. *)
Definition is_dispatch_event (e : event) : Prop :=
  match e with
  | EvIsFile _ | EvIsDir _ | EvOpen _ | EvParseVcf _ => False
  | _ => True
  end.

(** An event of the checks that does not concern the candidate file: a
    test of the barcode path or of the alignment path, a test of the output
    directory, the reading of the barcodes, a printed line. *)
Definition is_region_free (options : options) (e : event) : Prop :=
  match e with
  | EvPrint _ | EvIsDir _ | EvOpen _ => True
  | EvIsFile p => barcode_file options = Some p ∨ sam_file options = Some p
  | _ => False
  end.

(** The paths tested with [os.path.isfile]. *)
Definition isfile_checks (lg : list event) : list string :=
  omap (λ e, match e with EvIsFile p => Some p | _ => None end) lg.

(** The calls of the candidate parser. *)
Definition parses (lg : list event) : list string :=
  omap (λ e, match e with EvParseVcf p => Some p | _ => None end) lg.

(** A computation that only adds events of one kind to the log, and leaves
    the files alone. *)
Definition only (P : event → Prop) {A} (m : M A) : Prop :=
  ∀ w, ∃ evs, (m w).2 = add_log w evs ∧ Forall P evs.

(** What a dispatch branch that was to hand over the tasks [ts] has done when
    it ends with [r], having added the events [evs]: it handed over a prefix
    of [ts], only tasks of [ts] completed, it called no merge and no parser,
    and did not exit; when a task
    failed it raised; and when it returned, it had handed over every task,
    none had failed, and the paths it returned are those of the tasks. *)
Definition dispatch_post {RV} (ts : list task)
    (r : res (list string * list (pyres RV))) (evs : list event) : Prop :=
  dispatched evs `prefix_of` ts ∧
  (∀ t, t ∈ completed evs → t ∈ ts) ∧
  merges evs = [] ∧
  Forall is_dispatch_event evs ∧
  (∀ c, r ≠ Exit c) ∧
  (failures evs ≠ [] → ∃ e, r = Raise e) ∧
  (∀ outs vs, r = Ok (outs, vs) →
     outs = task_out <$> ts ∧ dispatched evs = ts ∧ failures evs = []).

(** The index range of task [ii] among [L] candidates: the indices that the
    slices of the loop select. *)
Definition task_range (L nproc ii : Z) : list Z :=
  task_slice (seqZ 0 L) (Py.int_div L nproc) nproc ii.

(** A string without a slash: a file name, not a path. *)
Definition no_slash (s : string) : Prop := "/"%char ∉ list_ascii_of_string s.

(** The local variables after lines 68-132, from the options and the three
    values that the checks compute. *)
Definition locals_of (options : options) (barcodes : option (list string))
    (sam_file out_file : string) : locals :=
  {| l_barcodes := barcodes; l_sam_file := sam_file; l_out_file := out_file;
     l_cell_tag := tag_of (cell_tag options);
     l_UMI_tag := tag_of (UMI_tag options);
     l_chrom_all := chrom_all_of (chrom_all options);
     l_nproc := nproc options;
     l_min_MAF := min_MAF options;
     l_min_LEN := min_LEN options;
     l_min_MAPQ := min_MAPQ options;
     l_max_FLAG := max_FLAG options;
     l_min_COUNT := min_COUNT options |}.

(** The arguments that every task of a job is given alike: the alignment
    file, the barcodes, the two tags, the five thresholds and the last
    positional argument. *)
Definition task_common (t : task)
    : string * option (list string) * option string * option string
      * (Z * Q * Z * Z * Z) * bool :=
  match t with
  | PileupRegions a =>
      (pa_sam_file a, pa_barcodes a, pa_cell_tag a, pa_UMI_tag a,
       (pa_min_COUNT a, pa_min_MAF a, pa_min_MAPQ a, pa_max_FLAG a,
        pa_min_LEN a), pa_last a)
  | FetchPositions a =>
      (fa_sam_file a, fa_barcodes a, fa_cell_tag a, fa_UMI_tag a,
       (fa_min_COUNT a, fa_min_MAF a, fa_min_MAPQ a, fa_max_FLAG a,
        fa_min_LEN a), fa_last a)
  end.

(** An event of a dispatch branch: a printed line, the creation of the
    pool, a submission, a call, a completion, the barrier. *)
Definition is_branch_event (e : event) : Prop :=
  match e with
  | EvPrint _ | EvPool _ | EvApplyAsync _ | EvCall _ | EvDone _ _
  | EvPoolClose | EvPoolJoin => True
  | _ => False
  end.

(** The first task of the hand-over that failed did so with [e], and the
    tasks before it returned. *)
Definition first_failure (lg : list event) (e : exn) : Prop :=
  ∃ i t,
    dispatched lg !! i = Some t ∧
    EvDone t (Some e) ∈ lg ∧
    ∀ j tj, (j < i)%nat → dispatched lg !! j = Some tj → EvDone tj None ∈ lg.

(** ** A small instance of the imported functions

    Engines that write a header and one record line per unit of work into
    their output path and leave every other file alone, a parser that returns
    a fixed table, and the merge primitive as the specification describes
    it.  The instance is used to run [main] on concrete inputs. *)

Definition is_header (line : string) : bool :=
  match line with
  | String "#" _ => true
  | _ => false
  end.

(** The pileup engine of the instance fails on the chromosomes in [bad]. *)
Definition demo_pileup (bad : list string) (a : pileup_args)
    (fs : gmap string (list string))
    : gmap string (list string) * outcome unit :=
  if bool_decide (pa_chrom a ∈ bad)
  then (fs, Failed (EngineError (pa_chrom a)))
  else (<[pa_out_file a := ["#CHROM POS"; "chr" +:+ pa_chrom a]]> fs,
        Returned ()).

Definition demo_fetch (a : fetch_args) (fs : gmap string (list string))
    : gmap string (list string) * outcome unit :=
  (<[fa_out_file a :=
       "#CHROM POS" :: zip_with (λ c p, c +:+ " " +:+ Py.str p)
                                (fa_chrom a) (fa_pos a)]> fs,
   Returned ()).

(** Modelled from the spec: the merge primitive [merge_vcf] of
    [cellSNP/utils/run_utils.py] is not part of the sources.  It writes one
    header, then the body of each partial file in the order given, and then
    deletes the partial files; when a partial file is missing it fails and
    deletes nothing. *)
Definition spec_merge_vcf (out : string) (parts : list string)
    (fs : gmap string (list string))
    : gmap string (list string) * outcome unit :=
  match mapM (λ p, fs !! p) parts with
  | None => (fs, Failed (IOError out))
  | Some contents =>
      let header := filter (λ l, is_header l = true) (default [] (head contents)) in
      let body := concat ((filter (λ l, is_header l = false)) <$> contents) in
      (<[out := header ++ body]> (foldr delete fs parts), Returned ())
  end.

Definition demo_parse (vcf : vcf_RV) (path : string)
    (fs : gmap string (list string)) : outcome vcf_RV :=
  match fs !! path with
  | Some _ => Returned vcf
  | None => Failed (IOError path)
  end.

(** In the instance the file [/d/bc.bin] does not decode; every other file
    can be read. *)
Definition demo_read_failure (path : string) (lines : list string)
    : option exn :=
  if bool_decide (path = "/d/bc.bin")
  then Some (ValueError "'utf-8' codec can't decode byte 0xff")
  else None.

Definition demo_utils (bad : list string) (vcf : vcf_RV) : Utils unit :=
  {| pileup_regions := demo_pileup bad;
     fetch_positions := demo_fetch;
     merge_vcf := spec_merge_vcf;
     parse_vcf_file := demo_parse vcf;
     read_failure := demo_read_failure |}.

(** The alignment file that a task is given. *)
Definition task_sam_file (t : task) : string :=
  match t with
  | PileupRegions a => pa_sam_file a
  | FetchPositions a => fa_sam_file a
  end.

(** A second instance, whose engines read their alignment file: a task
    writes into its output path a header and, for every line of the
    alignment file, one record line. *)
Definition reading_pileup (a : pileup_args) (fs : gmap string (list string))
    : gmap string (list string) * outcome unit :=
  (<[pa_out_file a :=
       "#CHROM POS"
       :: ((λ l, "chr" +:+ pa_chrom a +:+ " " +:+ l)
           <$> default [] (fs !! pa_sam_file a))]> fs,
   Returned ()).

Definition reading_fetch (a : fetch_args) (fs : gmap string (list string))
    : gmap string (list string) * outcome unit :=
  (<[fa_out_file a :=
       "#CHROM POS"
       :: (zip_with (λ c p, c +:+ " " +:+ Py.str p) (fa_chrom a) (fa_pos a)
           ++ default [] (fs !! fa_sam_file a))]> fs,
   Returned ()).

Definition reading_utils (vcf : vcf_RV) : Utils unit :=
  {| pileup_regions := reading_pileup;
     fetch_positions := reading_fetch;
     merge_vcf := spec_merge_vcf;
     parse_vcf_file := demo_parse vcf;
     read_failure := demo_read_failure |}.

(** A file system with an alignment file, a barcode file, a candidate file
    and the directory of the output. *)
Definition demo_files : gmap string (list string) :=
  {[ "/d/in.sam" := ["reads"];
     "/d/bc.tsv" := ["AAA-1" +:+ Py.nl; "BBB-2" +:+ Py.nl; "AAA-1" +:+ Py.nl];
     "/d/cand.vcf" := ["candidates"] ]}.

Definition demo_dirs : gset string := {[ "/d" ]}.

Definition demo_vcf (n : nat) : vcf_RV :=
  {| vcf_chrom := replicate n "1";
     vcf_pos := seqZ 100 (Z.of_nat n);
     vcf_REF := replicate n "A";
     vcf_ALT := replicate n "C" |}.

(** The local variables that the checks leave behind for [demo_options]
    with a list of chromosomes and a number of processes. *)
Definition demo_locals (chroms : list string) (n : Z) : locals :=
  {| l_barcodes := None; l_sam_file := "/d/in.sam";
     l_out_file := "/d/out.vcf"; l_cell_tag := Some "CR";
     l_UMI_tag := Some "UR"; l_chrom_all := chroms; l_nproc := n;
     l_min_MAF := 0%Q; l_min_LEN := 30; l_min_MAPQ := 20;
     l_max_FLAG := 255; l_min_COUNT := 20 |}.

(** The options of [-s /d/in.sam -o /d/out.vcf], to be completed. *)
Definition demo_options : options :=
  {| out_file := Some "/d/out.vcf"; sam_file := Some "/d/in.sam";
     barcode_file := None; region_file := None; nproc := 1;
     chrom_all := None; cell_tag := "CR"; UMI_tag := "UR";
     min_COUNT := 20; min_MAF := 0%Q; min_LEN := 30; min_MAPQ := 20;
     max_FLAG := 255 |}.

Definition with_chrom (s : string) (o : options) : options :=
  {| out_file := out_file o; sam_file := sam_file o;
     barcode_file := barcode_file o; region_file := region_file o;
     nproc := nproc o; chrom_all := Some s; cell_tag := cell_tag o;
     UMI_tag := UMI_tag o; min_COUNT := min_COUNT o; min_MAF := min_MAF o;
     min_LEN := min_LEN o; min_MAPQ := min_MAPQ o; max_FLAG := max_FLAG o |}.

Definition with_nproc (n : Z) (o : options) : options :=
  {| out_file := out_file o; sam_file := sam_file o;
     barcode_file := barcode_file o; region_file := region_file o;
     nproc := n; chrom_all := chrom_all o; cell_tag := cell_tag o;
     UMI_tag := UMI_tag o; min_COUNT := min_COUNT o; min_MAF := min_MAF o;
     min_LEN := min_LEN o; min_MAPQ := min_MAPQ o; max_FLAG := max_FLAG o |}.

Definition with_region (r : option string) (o : options) : options :=
  {| out_file := out_file o; sam_file := sam_file o;
     barcode_file := barcode_file o; region_file := r;
     nproc := nproc o; chrom_all := chrom_all o; cell_tag := cell_tag o;
     UMI_tag := UMI_tag o; min_COUNT := min_COUNT o; min_MAF := min_MAF o;
     min_LEN := min_LEN o; min_MAPQ := min_MAPQ o; max_FLAG := max_FLAG o |}.

Definition with_barcodes (b : option string) (o : options) : options :=
  {| out_file := out_file o; sam_file := sam_file o;
     barcode_file := b; region_file := region_file o;
     nproc := nproc o; chrom_all := chrom_all o; cell_tag := cell_tag o;
     UMI_tag := UMI_tag o; min_COUNT := min_COUNT o; min_MAF := min_MAF o;
     min_LEN := min_LEN o; min_MAPQ := min_MAPQ o; max_FLAG := max_FLAG o |}.

(** The same options with another output path. *)
Definition with_out_file (f : option string) (o : options) : options :=
  {| out_file := f; sam_file := sam_file o;
     barcode_file := barcode_file o; region_file := region_file o;
     nproc := nproc o; chrom_all := chrom_all o; cell_tag := cell_tag o;
     UMI_tag := UMI_tag o; min_COUNT := min_COUNT o; min_MAF := min_MAF o;
     min_LEN := min_LEN o; min_MAPQ := min_MAPQ o; max_FLAG := max_FLAG o |}.

(** * Properties

    ** The builtins on small inputs *)

Example rstrip_newline : Py.rstrip ("AAA-1" +:+ Py.nl) = "AAA-1".
Proof. reflexivity. Qed.

Example rstrip_inner_space : Py.rstrip "A B  " = "A B".
Proof. reflexivity. Qed.

Example split_dash : Py.split "-" "AAA-1-x" = ["AAA"; "1"; "x"].
Proof. reflexivity. Qed.

Example split_empty : Py.split "-" "" = [""].
Proof. reflexivity. Qed.

Example slice_clamps : Py.slice [1; 2; 3; 4; 5] 3 9 = [4; 5].
Proof. reflexivity. Qed.

Example slice_negative : Py.slice [1; 2; 3; 4; 5] (-2) 5 = [4; 5].
Proof. reflexivity. Qed.

Example slice_crossed : Py.slice [1; 2; 3; 4; 5] 4 2 = [].
Proof. reflexivity. Qed.

Example range_22 : Py.str <$> Py.range2 1 23 =
  ["1"; "2"; "3"; "4"; "5"; "6"; "7"; "8"; "9"; "10"; "11"; "12"; "13";
   "14"; "15"; "16"; "17"; "18"; "19"; "20"; "21"; "22"].
Proof. vm_compute. reflexivity. Qed.

Example sorted_small : Py.sorted ["b"; "a"; "ab"; "a"] = ["a"; "a"; "ab"; "b"].
Proof. vm_compute. reflexivity. Qed.


Example upper_none : Py.upper "nOne" = "NONE".
Proof. reflexivity. Qed.

Example dirname_nested : Py.dirname "/data/run1/out.vcf" = "/data/run1".
Proof. reflexivity. Qed.

Example dirname_root : Py.dirname "/out.vcf" = "/".
Proof. reflexivity. Qed.

Example dirname_bare : Py.dirname "out.vcf" = "".
Proof. reflexivity. Qed.

(** ** Slices *)

Section Slices.
Context {A : Type}.
Implicit Types (l : list A).

(** With bounds that are not negative a slice is a [take] of a [drop]. *)
Lemma slice_nonneg l lo hi :
  0 ≤ lo → 0 ≤ hi →
  Py.slice l lo hi
  = take (Z.to_nat hi - Z.to_nat lo) (drop (Z.to_nat lo) l).
Proof.
  intros Hlo Hhi. unfold Py.slice, Py.slice_index.
  destruct (Z.ltb_spec lo 0) as [|_]; [lia|].
  destruct (Z.ltb_spec hi 0) as [|_]; [lia|].
  destruct (decide (Z.of_nat (length l) ≤ lo)) as [Hge|Hlt].
  - rewrite !(drop_ge l) by lia. by rewrite !take_nil.
  - rewrite (Z.min_l lo) by lia.
    destruct (decide (hi ≤ Z.of_nat (length l))) as [Hh|Hh].
    + rewrite (Z.min_l hi) by lia. f_equal. lia.
    + rewrite (Z.min_r hi) by lia.
      rewrite !take_ge; [done| |]; rewrite length_drop; lia.
Qed.

Lemma slice_to_end l lo :
  0 ≤ lo → Py.slice l lo (Z.of_nat (length l)) = drop (Z.to_nat lo) l.
Proof.
  intros Hlo. rewrite slice_nonneg by lia.
  apply take_ge. rewrite length_drop. lia.
Qed.

(** The first [k] blocks of width [b] make up the first [b * k]
    elements. *)
Lemma blocks_concat l (b k : nat) :
  concat ((λ i, take b (drop (b * i) l)) <$> seq 0 k) = take (b * k) l.
Proof.
  induction k as [|k IH].
  - by rewrite Nat.mul_0_r, take_0.
  - rewrite seq_S, fmap_app, concat_app, IH. simpl.
    rewrite app_nil_r, take_take_drop. f_equal. lia.
Qed.

Lemma task_slice_inner l (b n ii : Z) :
  0 ≤ b → 0 ≤ ii < n - 1 →
  task_slice l b n ii
  = take (Z.to_nat b) (drop (Z.to_nat b * Z.to_nat ii) l).
Proof.
  intros Hb Hii. unfold task_slice.
  destruct (decide (ii = n - 1)) as [|_]; [lia|].
  rewrite slice_nonneg by nia. f_equal; [nia|f_equal; nia].
Qed.

Lemma task_slice_last l (b n : Z) :
  0 ≤ b → 1 ≤ n →
  task_slice l b n (n - 1) = drop (Z.to_nat b * Z.to_nat (n - 1)) l.
Proof.
  intros Hb Hn. unfold task_slice.
  destruct (decide (n - 1 = n - 1)) as [_|]; [|done].
  rewrite slice_to_end by nia. f_equal. nia.
Qed.

(** The slices of the loop, in the order of the loop, make up the list:
    whatever the block width, nothing is lost and nothing repeated. *)
Lemma task_slices_concat l (b n : Z) :
  0 ≤ b → 1 ≤ n →
  concat (task_slice l b n <$> Py.range n) = l.
Proof.
  intros Hb Hn. unfold Py.range.
  replace n with ((n - 1) + 1) at 2 by lia.
  rewrite seqZ_app by lia. rewrite fmap_app, concat_app.
  change (seqZ (0 + (n - 1)) 1) with [0 + (n - 1)]. simpl.
  rewrite app_nil_r, task_slice_last by done.
  unfold seqZ. rewrite <-list_fmap_compose.
  erewrite (list_fmap_ext _ (λ i, take (Z.to_nat b) (drop (Z.to_nat b * i) l))).
  - rewrite blocks_concat. apply take_drop.
  - intros i x Hx. apply lookup_seq in Hx as [-> Hx]. simpl.
    rewrite task_slice_inner by lia. do 2 f_equal. lia.
Qed.

End Slices.

(** ** The monad *)

Lemma add_log_nil w : add_log w [] = w.
Proof. destruct w. unfold add_log. simpl. by rewrite app_nil_r. Qed.

Lemma add_log_app w evs1 evs2 :
  add_log (add_log w evs1) evs2 = add_log w (evs1 ++ evs2).
Proof. unfold add_log. simpl. by rewrite app_assoc. Qed.

Lemma bind_eq {A B} (m : M A) (f : A → M B) w :
  (m ≫= f) w
  = match m w with
    | (Ok a, w') => f a w'
    | (Exit c, w') => (Exit c, w')
    | (Raise e, w') => (Raise e, w')
    end.
Proof. reflexivity. Qed.

Lemma emit_eq e w : emit e w = (Ok (), add_log w [e]).
Proof. reflexivity. Qed.

Ltac monad :=
  repeat (rewrite ?bind_eq, ?emit_eq, ?add_log_app;
          unfold print, mret, M_ret, raise, sys_exit, gets;
          cbv beta iota);
  cbn [app].

(** ** The loops of the two dispatch branches *)

Section Loops.
Context {RV : Type} `{!Utils RV}.

(** A loop of submissions: every element is submitted, in order; the
    paths, the handles and the pool grow together. *)
Lemma submit_loop {X} (path : X → string) (mk : X → task) (xs : list X)
    out_files (result : list (pyres RV)) pool w :
  for_each xs
    (λ x '(out_files, result, pool),
       '(pool, res) ← apply_async pool (mk x);
       mret (out_files ++ [path x], result ++ [res], pool))
    (out_files, result, pool) w
  = (Ok (out_files ++ (path <$> xs),
         result ++ (Handle <$> seq (length pool) (length xs)),
         pool ++ (mk <$> xs)),
     add_log w (EvApplyAsync ∘ mk <$> xs)).
Proof.
  revert out_files result pool w.
  induction xs as [|x xs IH]; intros out_files result pool w; simpl.
  - by rewrite !app_nil_r, add_log_nil.
  - unfold apply_async. monad. rewrite IH. monad.
    rewrite length_app, Nat.add_1_r, <-!app_assoc. done.
Qed.

Lemma call_eq t w :
  call t w
  = match execute t (add_log w [EvCall t]) with
    | (Returned v, w') => (Ok v, w')
    | (Failed e, w') => (Raise e, w')
    end.
Proof.
  unfold call. rewrite !bind_eq, emit_eq. unfold completion.
  rewrite bind_eq. by destruct (execute _ _) as [[v|e] w'].
Qed.

(** A loop of calls on the caller. *)
Lemma call_loop {X} (path : X → string) (mk : X → task) (xs : list X)
    out_files (result : list (pyres RV)) w :
  for_each xs
    (λ x '(out_files, result),
       call (mk x) ;; mret (out_files ++ [path x], result))
    (out_files, result) w
  = match calls (mk <$> xs) w with
    | (None, w') => (Ok (out_files ++ (path <$> xs), result), w')
    | (Some e, w') => (Raise e, w')
    end.
Proof.
  revert out_files w.
  induction xs as [|x xs IH]; intros out_files w.
  - simpl. by rewrite app_nil_r.
  - rewrite fmap_cons. cbn [for_each calls].
    rewrite !bind_eq, call_eq.
    destruct (execute _ _) as [[v|e] w']; [|done].
    unfold mret at 1, M_ret at 1. cbv beta iota. rewrite IH. destruct (calls _ _) as [[e|] w'']; [done|].
    by rewrite <-app_assoc.
Qed.

Lemma get_all (done : gmap nat (outcome RV)) (hs : list nat) w :
  comprehension (get done) (Handle <$> hs) w
  = match gather done hs with
    | Returned vs => (Ok vs, w)
    | Failed e => (Raise e, w)
    end.
Proof.
  induction hs as [|h hs IH]; [done|].
  rewrite fmap_cons. cbn [comprehension gather].
  rewrite bind_eq. cbn [get].
  destruct (done !! h) as [[v|e]|]; [|done..].
  unfold mret at 1, M_ret at 1. cbv beta iota. rewrite bind_eq, IH.
  by destruct (gather done hs).
Qed.

Lemma keep_all (rs : list (pyres RV)) w :
  comprehension (λ res, mret res) rs w = (Ok rs, w).
Proof.
  induction rs as [|r rs IH]; [done|].
  cbn [comprehension]. unfold mbind, M_bind, mret, M_ret in *.
  by rewrite IH.
Qed.

Lemma Pool_eq n w :
  1 ≤ n → Pool n w = (Ok [], add_log w [EvPool n]).
Proof.
  intros Hn. unfold Pool. rewrite bind_eq, emit_eq.
  by destruct (Z.ltb_spec n 1) as [|_]; [lia|].
Qed.

Lemma close_join_eq sched pool w :
  close_join sched pool w
  = let '(done, w') :=
      run_pool (completion_order sched (length pool)) pool
        (add_log w [EvPoolClose]) (∅ : gmap nat (outcome RV)) in
    (Ok done, add_log w' [EvPoolJoin]).
Proof.
  unfold close_join. rewrite bind_eq, emit_eq. unfold workers.
  rewrite bind_eq. destruct (run_pool _ _ _ _) as [done w']. by monad.
Qed.

(** The pool phase shared by the two branches: creation, submissions,
    barrier. *)
Lemma pool_phase {X} (path : X → string) (mk : X → task) (xs : list X)
    sched n w :
  1 ≤ n →
  (pool ← Pool n;
   '(out_files, result, pool) ←
     for_each xs
       (λ x '(out_files, result, pool),
          '(pool, res) ← apply_async pool (mk x);
          mret (out_files ++ [path x], result ++ [res], pool))
       ([], [], pool);
   done ← close_join sched pool;
   mret (out_files, result, done)) w
  = let ts := mk <$> xs in
    let '(done, w') :=
      run_pool (completion_order sched (length ts)) ts
        (add_log w (EvPool n :: (EvApplyAsync <$> ts) ++ [EvPoolClose]))
        (∅ : gmap nat (outcome RV)) in
    (Ok (path <$> xs, (Handle <$> seq 0 (length xs) : list (pyres RV)), done),
     add_log w' [EvPoolJoin]).
Proof.
  intros Hn. unfold Pool. rewrite bind_eq, bind_eq, emit_eq.
  destruct (Z.ltb_spec n 1) as [|_]; [lia|].
  unfold mret at 1, M_ret at 1. cbv beta iota.
  rewrite bind_eq, submit_loop. cbv beta iota. simpl.
  unfold close_join. rewrite !bind_eq, emit_eq, add_log_app.
  unfold workers. rewrite list_fmap_compose, bind_eq. cbv beta.
  rewrite add_log_app.
  change ([EvPool n] ++ (EvApplyAsync <$> (mk <$> xs)) ++ [EvPoolClose])
    with (EvPool n :: (EvApplyAsync <$> (mk <$> xs)) ++ [EvPoolClose]).
  destruct (run_pool _ _ _ _) as [done w']. by monad.
Qed.

(** The whole-genome branch with more than one process. *)
Lemma pileup_genome_pool sched L chrom_all w :
  1 < l_nproc L →
  pileup_genome sched L chrom_all w
  = let ts := pileup_tasks L chrom_all in
    let '(done, w') :=
      run_pool (completion_order sched (length ts)) ts
        (add_log w (EvPool (l_nproc L)
                    :: (EvApplyAsync <$> ts) ++ [EvPoolClose]))
        (∅ : gmap nat (outcome RV)) in
    match gather done (seq 0 (length ts)) with
    | Returned vs =>
        (Ok (chr_out_file (l_out_file L) <$> chrom_all, vs),
         add_log w'
           [EvPoolJoin; EvPrint "";
            EvPrint "[cellSNP] Whole genome pileupped, now merging all variants ..."])
    | Failed e => (Raise e, add_log w' [EvPoolJoin])
    end.
Proof.
  intros Hn. unfold pileup_genome.
  destruct (Z.gtb_spec (l_nproc L) 1) as [_|]; [|lia].
  rewrite bind_eq. unfold pileup_pool.
  rewrite (pool_phase (chr_out_file (l_out_file L))
             (λ c, pileup_task L (chr_out_file (l_out_file L) c) c))
    by lia.
  unfold pileup_tasks. cbv zeta. rewrite !length_fmap.
  destruct (run_pool _ _ _ _) as [done w'].
  rewrite bind_eq, get_all.
  destruct (gather done _) as [vs|e]; [|done]. by monad.
Qed.

(** The whole-genome branch with at most one process. *)
Lemma pileup_genome_caller sched L chrom_all w :
  l_nproc L ≤ 1 →
  pileup_genome sched L chrom_all w
  = match calls (pileup_tasks L chrom_all) w with
    | (None, w') =>
        (Ok (chr_out_file (l_out_file L) <$> chrom_all, []),
         add_log w'
           [EvPrint "";
            EvPrint "[cellSNP] Whole genome pileupped, now merging all variants ..."])
    | (Some e, w') => (Raise e, w')
    end.
Proof.
  intros Hn. unfold pileup_genome.
  destruct (Z.gtb_spec (l_nproc L) 1) as [|_]; [lia|].
  rewrite bind_eq. unfold pileup_caller.
  rewrite bind_eq.
  rewrite (call_loop (chr_out_file (l_out_file L))
             (λ c, pileup_task L (chr_out_file (l_out_file L) c) c)).
  fold (pileup_tasks L chrom_all).
  destruct (calls _ _) as [[e|] w']; [done|].
  unfold mret at 1 2, M_ret at 1 2. cbv beta iota.
  rewrite bind_eq, keep_all. by monad.
Qed.

(** The targeted branch. *)
Lemma fetch_candidates_pool sched L vcf w :
  1 ≤ l_nproc L →
  fetch_candidates sched L vcf w
  = let ts := fetch_tasks L vcf in
    let '(done, w') :=
      run_pool (completion_order sched (length ts)) ts
        (add_log w (EvPool (l_nproc L)
                    :: (EvApplyAsync <$> ts) ++ [EvPoolClose]))
        (∅ : gmap nat (outcome RV)) in
    match gather done (seq 0 (length ts)) with
    | Returned vs =>
        (Ok (out_file_tmp (l_out_file L) <$> Py.range (l_nproc L),
             vs),
         add_log w'
           [EvPoolJoin; EvPrint "";
            EvPrint ("[cellSNP] fetched "
                     +:+ Py.str (Z.of_nat (length (vcf_pos vcf)))
                     +:+ " variants, now merging temp files ... ")])
    | Failed e => (Raise e, add_log w' [EvPoolJoin])
    end.
Proof.
  intros Hn. unfold fetch_candidates. cbv zeta.
  destruct (decide (l_nproc L = 0)) as [|_]; [lia|].
  rewrite bind_eq. unfold mret at 1, M_ret at 1. cbv beta iota.
  rewrite bind_eq, Pool_eq by lia. rewrite bind_eq.
  rewrite (submit_loop (out_file_tmp (l_out_file L))
    (λ ii, fetch_task L vcf (out_file_tmp (l_out_file L) ii)
       (task_slice (vcf_chrom vcf)
          (Py.int_div (Z.of_nat (length (vcf_chrom vcf)))
             (l_nproc L)) (l_nproc L) ii)
       (task_slice (vcf_pos vcf)
          (Py.int_div (Z.of_nat (length (vcf_chrom vcf)))
             (l_nproc L)) (l_nproc L) ii))).
  cbv beta iota. rewrite bind_eq, close_join_eq, !add_log_app.
  rewrite list_fmap_compose. fold (fetch_tasks L vcf).
  rewrite !app_nil_l. cbn [app length].
  replace (length (Py.range (l_nproc L)))
    with (length (fetch_tasks L vcf))
    by (unfold fetch_tasks; by rewrite length_fmap).
  destruct (run_pool _ _ _ _) as [done w'].
  rewrite bind_eq, get_all.
  destruct (gather done _) as [vs|e]; [|done]. by monad.
Qed.

Lemma fetch_candidates_zero sched L vcf w :
  l_nproc L = 0 →
  fetch_candidates sched L vcf w = (Raise ZeroDivisionError, w).
Proof.
  intros Hn. unfold fetch_candidates. cbv zeta.
  by destruct (decide (l_nproc L = 0)).
Qed.

Lemma fetch_candidates_negative sched L vcf w :
  l_nproc L < 0 →
  fetch_candidates sched L vcf w
  = (Raise (ValueError "Number of processes must be at least 1"),
     add_log w [EvPool (l_nproc L)]).
Proof.
  intros Hn. unfold fetch_candidates. cbv zeta.
  destruct (decide (l_nproc L = 0)) as [|_]; [lia|].
  rewrite bind_eq. unfold mret at 1, M_ret at 1. cbv beta iota.
  rewrite bind_eq. unfold Pool. rewrite bind_eq, emit_eq.
  by destruct (Z.ltb_spec (l_nproc L) 1) as [_|]; [|lia].
Qed.

End Loops.

(** ** The partition of the candidates (targeted mode) *)

Lemma int_div_floor (len n : Z) :
  0 ≤ len → 1 ≤ n → Py.int_div len n = len `div` n.
Proof. intros. unfold Py.int_div. apply Z.quot_div_nonneg; lia. Qed.

Lemma int_div_bounds (len n : Z) :
  0 ≤ len → 1 ≤ n →
  0 ≤ Py.int_div len n ∧ Py.int_div len n * n ≤ len.
Proof.
  intros Hlen Hn. rewrite int_div_floor by done. split.
  - apply Z.div_pos; lia.
  - rewrite Z.mul_comm. apply Z.mul_div_le. lia.
Qed.

Lemma take_drop_seqZ (len : Z) (k b : nat) :
  take b (drop k (seqZ 0 len))
  = seqZ (Z.of_nat k) (Z.of_nat (b `min` (Z.to_nat len - k))).
Proof.
  unfold seqZ. rewrite <-fmap_drop, <-fmap_take, drop_seq, take_seq.
  rewrite Nat2Z.id. simpl.
  rewrite <-(Nat.add_0_r k) at 1.
  rewrite <-fmap_add_seq, <-list_fmap_compose.
  apply list_fmap_ext. intros i x _. simpl. lia.
Qed.

Lemma task_range_inner (len n ii : Z) :
  0 ≤ len → 0 ≤ ii < n - 1 →
  task_range len n ii
  = seqZ (Py.int_div len n * ii) (Py.int_div len n).
Proof.
  intros Hlen Hii. unfold task_range.
  destruct (int_div_bounds len n) as [Hb0 Hbn]; [lia..|].
  rewrite task_slice_inner by lia. rewrite take_drop_seqZ. f_equal; nia.
Qed.

Lemma task_range_last (len n : Z) :
  0 ≤ len → 1 ≤ n →
  task_range len n (n - 1)
  = seqZ (Py.int_div len n * (n - 1)) (len - Py.int_div len n * (n - 1)).
Proof.
  intros Hlen Hn. unfold task_range.
  destruct (int_div_bounds len n) as [Hb0 Hbn]; [lia..|].
  rewrite task_slice_last by lia.
  rewrite <-(take_ge (drop _ _) (Z.to_nat len)), take_drop_seqZ.
  - f_equal; nia.
  - rewrite length_drop, length_seqZ. lia.
Qed.

Lemma fetch_tasks_pos (L : locals) (vcf : vcf_RV) :
  task_pos <$> fetch_tasks L vcf
  = task_slice (vcf_pos vcf)
      (Py.int_div (Z.of_nat (length (vcf_chrom vcf))) (l_nproc L))
      (l_nproc L)
    <$> Py.range (l_nproc L).
Proof. unfold fetch_tasks. by rewrite <-list_fmap_compose. Qed.

Lemma fetch_tasks_chrom (L : locals) (vcf : vcf_RV) :
  task_chrom <$> fetch_tasks L vcf
  = task_slice (vcf_chrom vcf)
      (Py.int_div (Z.of_nat (length (vcf_chrom vcf))) (l_nproc L))
      (l_nproc L)
    <$> Py.range (l_nproc L).
Proof. unfold fetch_tasks. by rewrite <-list_fmap_compose. Qed.

(** ** The temporary output paths *)

Lemma app_cons (a : ascii) (s t : string) :
  String a s +:+ t = String a (s +:+ t).
Proof. reflexivity. Qed.

Lemma length_app_string (s t : string) :
  String.length (s +:+ t) = (String.length s + String.length t)%nat.
Proof.
  induction s as [|a s IH]; [done|].
  rewrite app_cons. simpl. by rewrite IH.
Qed.

Lemma app_inj_r (t s1 s2 : string) : s1 +:+ t = s2 +:+ t → s1 = s2.
Proof.
  revert s2. induction s1 as [|a s1 IH]; intros [|b s2] Heq; [done|..].
  - apply (f_equal String.length) in Heq.
    rewrite !length_app_string in Heq. simpl in Heq. lia.
  - apply (f_equal String.length) in Heq.
    rewrite !length_app_string in Heq. simpl in Heq. lia.
  - rewrite !app_cons in Heq. injection Heq as -> Heq.
    f_equal. by apply IH.
Qed.

Global Instance chr_out_file_inj out : Inj (=) (=) (chr_out_file out).
Proof.
  intros c1 c2 Heq. unfold chr_out_file in Heq.
  apply (inj (String.app out)) in Heq.
  apply (inj (String.app ".temp_")) in Heq.
  by apply app_inj_r in Heq.
Qed.

Global Instance out_file_tmp_inj out : Inj (=) (=) (out_file_tmp out).
Proof.
  intros i1 i2 Heq. unfold out_file_tmp in Heq.
  apply (inj (String.app out)) in Heq.
  apply (inj (String.app ".temp_")) in Heq.
  apply app_inj_r in Heq. unfold Py.str in Heq. by apply (inj pretty) in Heq.
Qed.

Lemma pileup_tasks_out (L : locals) (chrom_all : list string) :
  task_out <$> pileup_tasks L chrom_all
  = chr_out_file (l_out_file L) <$> chrom_all.
Proof. unfold pileup_tasks. by rewrite <-list_fmap_compose. Qed.

Lemma pileup_tasks_key (L : locals) (chrom_all : list string) :
  task_key <$> pileup_tasks L chrom_all = Some <$> chrom_all.
Proof. unfold pileup_tasks. by rewrite <-list_fmap_compose. Qed.

Lemma fetch_tasks_out (L : locals) (vcf : vcf_RV) :
  task_out <$> fetch_tasks L vcf
  = out_file_tmp (l_out_file L) <$> Py.range (l_nproc L).
Proof. unfold fetch_tasks. by rewrite <-list_fmap_compose. Qed.

(** A temporary path is never the final path. *)
Lemma chr_out_file_ne out c : chr_out_file out c ≠ out.
Proof.
  unfold chr_out_file. intros Heq.
  apply (f_equal String.length) in Heq.
  rewrite !length_app_string in Heq. simpl in Heq. lia.
Qed.

Lemma out_file_tmp_ne out ii : out_file_tmp out ii ≠ out.
Proof.
  unfold out_file_tmp. intros Heq.
  apply (f_equal String.length) in Heq.
  rewrite !length_app_string in Heq. simpl in Heq. lia.
Qed.

(** ** The barcodes *)

Lemma split_head (sep : ascii) (s : string) :
  ∃ w ws,
    Py.split sep s = w :: ws ∧
    (sep ∉ list_ascii_of_string w) ∧
    (s = w ∨ ∃ rest, s = w +:+ String sep rest).
Proof.
  induction s as [|c s (w & ws & Hsplit & Hsep & Hs)]; simpl.
  - exists "", []. split; [done|]. split; [|by left]. apply not_elem_of_nil.
  - destruct (decide (c = sep)) as [->|Hc].
    + exists "", (Py.split sep s). split; [done|].
      split; [apply not_elem_of_nil|]. right. by exists s.
    + rewrite Hsplit. exists (String c w), ws. split; [done|]. split.
      * simpl. rewrite not_elem_of_cons. split; [congruence|done].
      * destruct Hs as [->|[rest ->]]; [by left|].
        right. exists rest. by rewrite app_cons.
Qed.

(** The element kept for a line: its part before the first dash, once the
    trailing whitespace is gone. *)
Lemma first_segment_spec (x : string) :
  ("-"%char ∉ list_ascii_of_string (first_segment x)) ∧
  (Py.rstrip x = first_segment x ∨
   ∃ rest, Py.rstrip x = first_segment x +:+ String "-" rest).
Proof.
  unfold first_segment.
  destruct (split_head "-" (Py.rstrip x)) as (w & ws & -> & Hsep & Hs).
  done.
Qed.

Lemma sorted_Sorted (l : list string) : Sorted String.le (Py.sorted l).
Proof. apply (Sorted_merge_sort _). Qed.

Lemma sorted_Permutation (l : list string) : Py.sorted l ≡ₚ l.
Proof. apply merge_sort_Permutation. Qed.

(** C3, as the code has it.  The barcodes are the first dash-separated
    segments of the stripped lines, sorted; nothing is removed, so a barcode
    that occurs on several lines occurs as often in the result.  The lines
    ["AAA-1"], ["BBB-2"], ["AAA-1"] give ["AAA"], ["AAA"], ["BBB"]. *)
Theorem barcodes_sorted_with_duplicates (lines : list string) :
  Sorted String.le (barcodes_of_lines lines) ∧
  barcodes_of_lines lines ≡ₚ first_segment <$> lines ∧
  length (barcodes_of_lines lines) = length lines ∧
  (∀ x, ("-"%char ∉ list_ascii_of_string (first_segment x)) ∧
        (Py.rstrip x = first_segment x ∨
         ∃ rest, Py.rstrip x = first_segment x +:+ String "-" rest)) ∧
  barcodes_of_lines ["AAA-1"; "BBB-2"; "AAA-1"] = ["AAA"; "AAA"; "BBB"].
Proof.
  unfold barcodes_of_lines. split; [apply sorted_Sorted|].
  split; [apply sorted_Permutation|]. split.
  - by rewrite sorted_Permutation, length_fmap.
  - split; [apply first_segment_spec|]. vm_compute. reflexivity.
Qed.

(** C3 as stated fails: the three lines of the example give three barcodes,
    of which two are equal, and not the deduplicated list. *)
Lemma barcodes_not_deduplicated :
  barcodes_of_lines ["AAA-1"; "BBB-2"; "AAA-1"] ≠ ["AAA"; "BBB"] ∧
  ¬ NoDup (barcodes_of_lines ["AAA-1"; "BBB-2"; "AAA-1"]).
Proof.
  assert (barcodes_of_lines ["AAA-1"; "BBB-2"; "AAA-1"]
          = ["AAA"; "AAA"; "BBB"]) as -> by (vm_compute; reflexivity).
  split; [discriminate|].
  intros Hnd. apply NoDup_cons in Hnd as [Hin _].
  apply Hin. by left.
Qed.

(** The barcode file of the instance through a whole run: the message
    counts three barcodes, and the engine is handed the three of them. *)
Example run_with_barcodes :
  let r := @run unit (demo_utils [] (demo_vcf 0)) ["-b"]
             (with_barcodes (Some "/d/bc.tsv") (with_chrom "1" demo_options))
             [] demo_files demo_dirs in
  take 3 (log r.2)
  = [EvIsFile "/d/bc.tsv"; EvOpen "/d/bc.tsv";
     EvPrint "[cellSNP] 3 effective cell barcodes are used."] ∧
  omap (λ t, match t with
             | PileupRegions a => pa_barcodes a
             | FetchPositions a => fa_barcodes a
             end) (dispatched (log r.2))
  = [["AAA"; "AAA"; "BBB"]].
Proof.
  intros r. split; vm_compute; reflexivity.
Qed.

(** ** No argument at all *)

(** C10.  Without any command-line argument the program prints the two
    lines of the welcome message and exits with status 1; it has then
    checked no path, opened no file, parsed nothing, created no pool,
    handed over no task and called no merge, and the files are as they
    were. *)
Theorem no_arguments_welcome {RV} `{!Utils RV} (options : options)
    (sched : list nat) (fs : gmap string (list string)) (ds : gset string) :
  run [] options sched fs ds
  = (Exit 1,
     {| files := fs; dirs := ds;
        log := [EvPrint ("Welcome to cellSNP!" +:+ Py.nl);
                EvPrint "use -h or --help for help on argument."] |}).
Proof. reflexivity. Qed.

(** With an argument and nothing but the defaults the run stops at the
    missing alignment file. *)
Example defaults_need_sam_file :
  @run unit (demo_utils [] (demo_vcf 0)) ["-p"] default_options []
    demo_files demo_dirs
  = (Exit 1,
     {| files := demo_files; dirs := demo_dirs;
        log := [EvPrint "Error: need samFile for sam file."] |}).
Proof. reflexivity. Qed.

(** ** The workers of a pool *)

Section Workers.
Context {RV : Type} `{!Utils RV}.

Lemma execute_eq t w :
  execute t w
  = ((run_task t (files w)).2,
     {| files := (run_task t (files w)).1; dirs := dirs w;
        log := log w ++ [EvDone t (failure (run_task t (files w)).2)] |}).
Proof. unfold execute. by destruct (run_task t (files w)). Qed.

(** What a pool leaves behind: completions only, of tasks of the pool;
    the files as these executions left them; one outcome for every task
    of the order; and a failed outcome when a completion failed. *)
Lemma run_pool_spec order pool w (kept : gmap nat (outcome RV)) :
  NoDup order →
  ∃ evs kept',
    run_pool order pool w kept
    = (kept', {| files := replay (files w) (completed evs);
                 dirs := dirs w; log := log w ++ evs |}) ∧
    Forall is_completion evs ∧
    (∀ t, t ∈ completed evs → t ∈ pool) ∧
    (∀ i, i ∉ order → kept' !! i = kept !! i) ∧
    (∀ i, i ∈ order → (i < length pool)%nat → is_Some (kept' !! i)) ∧
    (failures evs ≠ [] →
     ∃ i e, i ∈ order ∧ (i < length pool)%nat ∧
            kept' !! i = Some (Failed e)).
Proof.
  revert w kept. induction order as [|i order IH]; intros w kept Hnd.
  - exists [], kept. simpl. rewrite app_nil_r.
    split; [by destruct w|]. split; [constructor|].
    split; [by intros t Ht%elem_of_nil|].
    split; [done|]. split; [|done]. intros i Hi. by apply elem_of_nil in Hi.
  - apply NoDup_cons in Hnd as [Hi Hnd]. cbn [run_pool].
    destruct (pool !! i) as [t|] eqn:Hpool.
    + rewrite execute_eq.
      destruct (IH {| files := (run_task t (files w)).1; dirs := dirs w;
                      log := log w ++ [EvDone t (failure (run_task t (files w)).2)] |}
                   (<[i := (run_task t (files w)).2]> kept) Hnd)
        as (evs & kept' & -> & Hcomp & Hsub & Hout & Hin & Hfail).
      cbn [files dirs log] in *.
      exists (EvDone t (failure (run_task t (files w)).2) :: evs), kept'.
      rewrite <-app_assoc. split; [done|].
      split; [by constructor|].
      assert (kept' !! i = Some (run_task t (files w)).2) as Hdi.
      { rewrite Hout by done. apply lookup_insert_eq. }
      split; [|split; [|split]].
      * intros t' Ht'. unfold completed in Ht'. cbn [omap list_omap] in Ht'.
        apply elem_of_cons in Ht' as [->|Ht']; [|by apply Hsub].
        by eapply list_elem_of_lookup_2.
      * intros j Hj. apply not_elem_of_cons in Hj as [Hji Hj].
        rewrite Hout by done. by apply lookup_insert_ne.
      * intros j Hj Hlt. apply elem_of_cons in Hj as [->|Hj]; [|by eauto].
        by rewrite Hdi.
      * intros Hf. unfold failures in Hf. cbn [omap list_omap] in Hf.
        destruct (run_task t (files w)).2 as [v|e] eqn:Ho; simpl in Hf.
        -- destruct (Hfail Hf) as (j & e & Hj & Hlt & Hd).
           exists j, e. split; [by right|done].
        -- exists i, e. split; [by left|].
           split; [by eapply lookup_lt_Some|done].
    + destruct (IH w kept Hnd)
        as (evs & kept' & -> & Hcomp & Hsub & Hout & Hin & Hfail).
      exists evs, kept'. split; [done|]. split; [done|]. split; [done|].
      apply lookup_ge_None in Hpool.
      split; [|split].
      * intros j Hj. apply not_elem_of_cons in Hj as [_ Hj]. by apply Hout.
      * intros j Hj Hlt. apply elem_of_cons in Hj as [->|Hj]; [lia|by eauto].
      * intros Hf. destruct (Hfail Hf) as (j & e & Hj & Hlt & Hd).
        exists j, e. split; [by right|done].
Qed.

(** A task that changes no file but its output leaves the other files as
    they were. *)
Lemma replay_frame (ts : list task) fs p :
  Forall writes_own_output ts → p ∉ task_out <$> ts →
  replay fs ts !! p = fs !! p.
Proof.
  revert fs. induction ts as [|t ts IH]; intros fs Hown Hp; [done|].
  apply Forall_cons in Hown as [Ht Hown].
  rewrite fmap_cons in Hp. apply not_elem_of_cons in Hp as [Hpt Hp].
  unfold replay in *. cbn [foldl]. rewrite IH by done. by apply Ht.
Qed.

(** The completion order read off a schedule names every task once. *)
Lemma completion_order_NoDup sched n : NoDup (completion_order sched n).
Proof.
  unfold completion_order. apply NoDup_app. split; [apply NoDup_remove_dups|].
  split.
  - intros i Hi Hd. by apply list_elem_of_difference in Hd as [_ Hd].
  - apply NoDup_list_difference, NoDup_seq.
Qed.

Lemma completion_order_elem sched n i :
  i ∈ completion_order sched n ↔ (i < n)%nat.
Proof.
  unfold completion_order.
  rewrite elem_of_app, list_elem_of_difference, elem_of_remove_dups,
    list_elem_of_filter, elem_of_seq.
  split; [intros [[? _]|[? _]]; lia|].
  intros Hlt.
  destruct (decide (i ∈ sched)) as [Hin|Hin]; [by left|].
  right. split; [lia|]. by intros [_ ?].
Qed.

Lemma completion_order_perm sched n : completion_order sched n ≡ₚ seq 0 n.
Proof.
  apply NoDup_Permutation.
  - apply completion_order_NoDup.
  - apply NoDup_seq.
  - intros i. rewrite completion_order_elem, elem_of_seq. lia.
Qed.

(** When an outcome kept for one of the handles is a failure, the
    comprehension of the [get]s raises. *)
Lemma gather_failed (done : gmap nat (outcome RV)) hs i e :
  i ∈ hs → done !! i = Some (Failed e) →
  ∃ e', gather done hs = Failed e'.
Proof.
  intros Hi Hd. induction hs as [|h hs IH]; [by apply elem_of_nil in Hi|].
  simpl. destruct (done !! h) as [[v|e1]|] eqn:Hh; [|by eauto..].
  apply elem_of_cons in Hi as [->|Hi]; [congruence|].
  destruct (IH Hi) as [e' ->]. by eauto.
Qed.

End Workers.

(** ** Reading logs *)

Lemma omap_none {A B} (f : A → option B) (P : A → Prop) (l : list A) :
  (∀ x, P x → f x = None) → Forall P l → omap f l = [].
Proof.
  intros Hf Hl. induction Hl as [|x l Hx Hl IH]; [done|].
  cbn [omap list_omap]. by rewrite (Hf x Hx).
Qed.

Lemma Forall_is_print_quiet evs : Forall is_print evs → Forall is_quiet evs.
Proof. intros H. eapply Forall_impl; [done|]. by intros []. Qed.

Lemma Forall_is_print_dispatch evs :
  Forall is_print evs → Forall is_dispatch_event evs.
Proof. intros H. eapply Forall_impl; [done|]. by intros []. Qed.

Lemma Forall_is_completion_dispatch evs :
  Forall is_completion evs → Forall is_dispatch_event evs.
Proof. intros H. eapply Forall_impl; [done|]. by intros []. Qed.

Lemma Forall_is_caller_dispatch evs :
  Forall is_caller_event evs → Forall is_dispatch_event evs.
Proof. intros H. eapply Forall_impl; [done|]. by intros []. Qed.

Lemma Forall_submissions_dispatch (ts : list task) :
  Forall is_dispatch_event (EvApplyAsync <$> ts).
Proof. apply Forall_fmap, Forall_true. done. Qed.

Lemma dispatch_parses evs : Forall is_dispatch_event evs → parses evs = [].
Proof. apply omap_none. by intros []. Qed.

Lemma dispatch_isfile_checks evs :
  Forall is_dispatch_event evs → isfile_checks evs = [].
Proof. apply omap_none. by intros []. Qed.

Lemma isfile_checks_app evs1 evs2 :
  isfile_checks (evs1 ++ evs2) = isfile_checks evs1 ++ isfile_checks evs2.
Proof. apply omap_app. Qed.

Lemma Forall_is_quiet_check evs : Forall is_quiet evs → Forall is_check evs.
Proof. intros H. eapply Forall_impl; [done|]. by intros []. Qed.

Lemma check_dispatched evs : Forall is_check evs → dispatched evs = [].
Proof. apply omap_none. by intros []. Qed.

Lemma check_merges evs : Forall is_check evs → merges evs = [].
Proof. apply omap_none. by intros []. Qed.

Lemma check_failures evs : Forall is_check evs → failures evs = [].
Proof. apply omap_none. by intros []. Qed.

Lemma check_pools evs : Forall is_check evs → pools evs = [].
Proof. apply omap_none. by intros []. Qed.

Lemma check_completed evs : Forall is_check evs → completed evs = [].
Proof. apply omap_none. by intros []. Qed.

Lemma quiet_parses evs : Forall is_quiet evs → parses evs = [].
Proof. apply omap_none. by intros []. Qed.

Lemma completion_dispatched evs : Forall is_completion evs → dispatched evs = [].
Proof. apply omap_none. by intros []. Qed.

Lemma completion_merges evs : Forall is_completion evs → merges evs = [].
Proof. apply omap_none. by intros []. Qed.

Lemma completion_pools evs : Forall is_completion evs → pools evs = [].
Proof. apply omap_none. by intros []. Qed.

Lemma completion_parses evs : Forall is_completion evs → parses evs = [].
Proof. apply omap_none. by intros []. Qed.

Lemma caller_merges evs : Forall is_caller_event evs → merges evs = [].
Proof. apply omap_none. by intros []. Qed.

Lemma caller_pools evs : Forall is_caller_event evs → pools evs = [].
Proof. apply omap_none. by intros []. Qed.

Lemma caller_parses evs : Forall is_caller_event evs → parses evs = [].
Proof. apply omap_none. by intros []. Qed.

Lemma dispatched_submissions (ts : list task) :
  dispatched (EvApplyAsync <$> ts) = ts.
Proof.
  induction ts as [|t ts IH]; [done|].
  rewrite fmap_cons. unfold dispatched in *. cbn [omap list_omap]. by f_equal.
Qed.

Lemma completed_submissions (ts : list task) :
  completed (EvApplyAsync <$> ts) = [].
Proof. by induction ts. Qed.

Lemma failures_submissions (ts : list task) :
  failures (EvApplyAsync <$> ts) = [].
Proof. by induction ts. Qed.

Lemma merges_submissions (ts : list task) : merges (EvApplyAsync <$> ts) = [].
Proof. by induction ts. Qed.

Lemma pools_submissions (ts : list task) : pools (EvApplyAsync <$> ts) = [].
Proof. by induction ts. Qed.

Lemma parses_submissions (ts : list task) : parses (EvApplyAsync <$> ts) = [].
Proof. by induction ts. Qed.

Lemma dispatched_app evs1 evs2 :
  dispatched (evs1 ++ evs2) = dispatched evs1 ++ dispatched evs2.
Proof. apply omap_app. Qed.

Lemma merges_app evs1 evs2 : merges (evs1 ++ evs2) = merges evs1 ++ merges evs2.
Proof. apply omap_app. Qed.

Lemma failures_app evs1 evs2 :
  failures (evs1 ++ evs2) = failures evs1 ++ failures evs2.
Proof. apply omap_app. Qed.

Lemma parses_app evs1 evs2 : parses (evs1 ++ evs2) = parses evs1 ++ parses evs2.
Proof. apply omap_app. Qed.

Lemma pools_app evs1 evs2 : pools (evs1 ++ evs2) = pools evs1 ++ pools evs2.
Proof. apply omap_app. Qed.

Lemma completed_app evs1 evs2 :
  completed (evs1 ++ evs2) = completed evs1 ++ completed evs2.
Proof. apply omap_app. Qed.

(** ** The loop of calls on the caller *)

Section Caller.
Context {RV : Type} `{!Utils RV}.

(** The loop hands over a prefix of the tasks: all of them when none
    fails, and else those up to the first one that fails. *)
Lemma calls_spec ts w :
  ∃ evs err,
    calls ts w
    = (err, {| files := replay (files w) (completed evs);
               dirs := dirs w; log := log w ++ evs |}) ∧
    Forall is_caller_event evs ∧
    dispatched evs `prefix_of` ts ∧
    completed evs = dispatched evs ∧
    (err = None → dispatched evs = ts ∧ failures evs = []) ∧
    (failures evs ≠ [] → err ≠ None) ∧
    (failures evs = [] → err = None).
Proof.
  revert w. induction ts as [|t ts IH]; intros w.
  - exists [], None. simpl. rewrite app_nil_r.
    split; [by destruct w|]. by repeat split.
  - cbn [calls]. rewrite execute_eq. unfold add_log. cbn [files dirs log].
    destruct (run_task t (files w)) as [fs1 [v|e]] eqn:Hrun; cbn [fst snd].
    + destruct (IH {| files := fs1; dirs := dirs w;
                      log := (log w ++ [EvCall t]) ++ [EvDone t (failure (Returned v))] |})
        as (evs & err & -> & Hev & Hpre & Hcomp & Hok & Hfail & Hnone).
      cbn [files dirs log] in *.
      exists (EvCall t :: EvDone t None :: evs), err.
      rewrite <-!app_assoc. split.
      { unfold completed at 2. cbn [omap list_omap].
        fold (completed evs). unfold replay at 2. cbn [foldl].
        by rewrite Hrun. }
      split; [by repeat constructor|].
      split; [by apply prefix_cons|].
      split; [unfold completed, dispatched in *; simpl; by f_equal|].
      split; [|done].
      intros Herr. destruct (Hok Herr) as [Hd Hf].
      split; [|done]. unfold dispatched in *. simpl. by f_equal.
    + exists [EvCall t; EvDone t (Some e)], (Some e).
      rewrite <-!app_assoc. split.
      { unfold completed, replay. cbn. by rewrite Hrun. }
      split; [by repeat constructor|].
      split; [apply prefix_cons, prefix_nil|]. by repeat split.
Qed.

(** The loop of calls on the caller: the tasks up to the first that fails,
    and no other. *)
Lemma calls_stop ts w :
  ∃ evs,
    log (calls ts w).2 = log w ++ evs ∧
    match (calls ts w).1 with
    | None => dispatched evs = ts ∧ failures evs = []
    | Some e =>
        ∃ k t, ts !! k = Some t ∧ dispatched evs = take (S k) ts ∧
               failures evs = [t]
    end.
Proof.
  revert w. induction ts as [|t ts IH]; intros w.
  - exists []. cbn. by rewrite app_nil_r.
  - cbn [calls]. rewrite execute_eq. unfold add_log. cbn [files dirs log].
    destruct (run_task t (files w)).2 as [v|e] eqn:Ho; cbn [failure].
    + destruct (IH {| files := (run_task t (files w)).1; dirs := dirs w;
                      log := (log w ++ [EvCall t]) ++ [EvDone t None] |})
        as (evs & Hlog & Hcase).
      exists ([EvCall t; EvDone t None] ++ evs).
      split; [rewrite Hlog; cbn [log]; by rewrite <-!app_assoc|].
      rewrite dispatched_app, failures_app. cbn [app].
      change (dispatched [EvCall t; EvDone t None]) with [t].
      change (failures [EvCall t; EvDone t None]) with (@nil task).
      cbn [app].
      destruct (calls ts _).1 as [e|].
      * destruct Hcase as (k & t' & Hk & Hd & Hf).
        exists (S k), t'. split; [done|]. split; [|done].
        by rewrite Hd.
      * destruct Hcase as [-> ->]. done.
    + exists [EvCall t; EvDone t (Some e)]. cbn [fst snd log].
      split; [by rewrite <-app_assoc|].
      exists 0%nat, t. split; [done|]. split; [|done].
      cbn. by rewrite take_0.
Qed.

End Caller.

(** ** The checks of the arguments *)

Section Checks.
Context {RV : Type} `{!Utils RV}.
Context (P : event → Prop).

Lemma only_ret {A} (a : A) : only P (mret a).
Proof. intros w. exists []. by rewrite add_log_nil. Qed.

Lemma only_exit {A} c : only P (sys_exit (A:=A) c).
Proof. intros w. exists []. by rewrite add_log_nil. Qed.

Lemma only_raise {A} e : only P (raise (A:=A) e).
Proof. intros w. exists []. by rewrite add_log_nil. Qed.

Lemma only_gets {A} (f : world → A) : only P (gets f).
Proof. intros w. exists []. by rewrite add_log_nil. Qed.

Lemma only_emit e : P e → only P (emit e).
Proof. intros He w. exists [e]. split; [done|]. by constructor. Qed.

Lemma only_bind {A B} (m : M A) (f : A → M B) :
  only P m → (∀ a, only P (f a)) → only P (m ≫= f).
Proof.
  intros Hm Hf w. rewrite bind_eq.
  destruct (Hm w) as (evs1 & Hw1 & Hev1).
  destruct (m w) as [[a|c|e] w1]; simpl in Hw1; subst w1; [|by eauto..].
  destruct (Hf a (add_log w evs1)) as (evs2 & Hw2 & Hev2).
  exists (evs1 ++ evs2). rewrite Hw2, add_log_app.
  split; [done|]. by apply Forall_app.
Qed.

Lemma only_parse rf : only P (external (λ fs, (fs, parse_vcf_file rf fs))).
Proof.
  intros w. exists []. rewrite add_log_nil. unfold external.
  destruct (parse_vcf_file rf (files w)); by destruct w.
Qed.

End Checks.

Section Configure.
Context {RV : Type} `{!Utils RV}.

Ltac only_steps :=
  repeat first
    [ apply only_bind; [|intros ?]
    | apply only_ret | apply only_exit | apply only_raise | apply only_gets
    | apply only_parse
    | (apply only_emit; exact I)
    | progress unfold print, isfile, isdir, readlines
    | match goal with
      | |- only _ (if ?b then _ else _) => destruct b
      | |- only _ (match ?x with _ => _ end) => destruct x
      end ].

Lemma load_barcodes_only options : only is_quiet (load_barcodes options).
Proof. unfold load_barcodes. only_steps. Qed.

Lemma check_sam_file_only options : only is_quiet (check_sam_file options).
Proof. unfold check_sam_file. only_steps. Qed.

Lemma check_out_file_only options : only is_quiet (check_out_file options).
Proof. unfold check_out_file. only_steps. Qed.

Lemma load_regions_only options : only is_check (load_regions options).
Proof. unfold load_regions. only_steps. Qed.

(** Without a candidate file, or with the word ["None"] in its place,
    nothing is checked for the candidates and nothing is parsed. *)
Lemma load_regions_none options w :
  region_file options = None ∨ region_file options = Some "None" →
  load_regions options w = (Ok None, w).
Proof. unfold load_regions. by intros [-> | ->]. Qed.

(** The checks of the arguments leave the files alone; they print, test
    paths, read the barcodes and parse the candidates. *)
Lemma configure_only argv options : only is_check (configure argv options).
Proof.
  unfold configure. apply only_bind; [by only_steps|intros _].
  apply only_bind; [|intros barcodes].
  { intros w. destruct (load_barcodes_only options w) as (evs & ? & ?).
    exists evs. split; [done|]. by apply Forall_is_quiet_check. }
  apply only_bind; [|intros sam_file].
  { intros w. destruct (check_sam_file_only options w) as (evs & ? & ?).
    exists evs. split; [done|]. by apply Forall_is_quiet_check. }
  apply only_bind; [|intros out_file].
  { intros w. destruct (check_out_file_only options w) as (evs & ? & ?).
    exists evs. split; [done|]. by apply Forall_is_quiet_check. }
  apply only_bind; [apply load_regions_only|intros region].
  apply only_ret.
Qed.

Lemma bind_ok_inv {A B} (m : M A) (f : A → M B) w b w' :
  (m ≫= f) w = (Ok b, w') →
  ∃ a w1, m w = (Ok a, w1) ∧ f a w1 = (Ok b, w').
Proof.
  rewrite bind_eq. destruct (m w) as [[a|c|e] w1]; [by eauto|done..].
Qed.

(** Without a candidate file, or with the word ["None"] in its place, the
    checks test only the other paths and do not call the parser. *)
Lemma configure_region_free argv options :
  region_file options = None ∨ region_file options = Some "None" →
  only (is_region_free options) (configure argv options).
Proof.
  intros Hreg. unfold configure.
  apply only_bind; [by only_steps|intros _].
  apply only_bind; [|intros barcodes].
  { unfold load_barcodes.
    destruct (barcode_file options) as [bf|] eqn:Hbf; [|apply only_ret].
    apply only_bind; [|intros found].
    - unfold isfile. apply only_bind; [|intros _; apply only_gets].
      apply only_emit. cbn. by left.
    - by only_steps. }
  apply only_bind; [|intros sam].
  { unfold check_sam_file.
    destruct (sam_file options) as [sf|] eqn:Hsf; [|by only_steps].
    apply only_bind; [|intros found].
    - unfold isfile. apply only_bind; [|intros _; apply only_gets].
      apply only_emit. cbn. by right.
    - by only_steps. }
  apply only_bind; [by unfold check_out_file; only_steps|intros out].
  apply only_bind; [|intros region; apply only_ret].
  intros w. exists []. rewrite add_log_nil, load_regions_none by done.
  split; [done|constructor].
Qed.

Lemma configure_region_none argv options w L region w' :
  region_file options = None ∨ region_file options = Some "None" →
  configure argv options w = (Ok (L, region), w') → region = None.
Proof.
  intros Hreg. unfold configure.
  intros (_ & w1 & _ & H1)%bind_ok_inv.
  apply bind_ok_inv in H1 as (barcodes & w2 & _ & H2).
  apply bind_ok_inv in H2 as (sam & w3 & _ & H3).
  apply bind_ok_inv in H3 as (out & w4 & Hout & H4).
  apply bind_ok_inv in H4 as (reg & w5 & Hreg' & H5).
  rewrite load_regions_none in Hreg' by done.
  injection Hreg' as <- _. by injection H5 as _ <- _.
Qed.

Lemma check_out_file_ok options w f w' :
  check_out_file options w = (Ok f, w') → out_file options = Some f.
Proof.
  unfold check_out_file. destruct (out_file options) as [g|].
  - intros (found & w1 & _ & Hrest)%bind_ok_inv.
    destruct (negb found).
    + by apply bind_ok_inv in Hrest as (? & ? & _ & [=]).
    + by injection Hrest as -> _.
  - by intros (? & ? & _ & [=])%bind_ok_inv.
Qed.

(** The local variables that the checks leave behind. *)
Lemma configure_ok argv options w L region w' :
  configure argv options w = (Ok (L, region), w') →
  l_nproc L = nproc options ∧
  l_chrom_all L = chrom_all_of (chrom_all options) ∧
  out_file options = Some (l_out_file L).
Proof.
  unfold configure.
  intros (_ & w1 & _ & H1)%bind_ok_inv.
  apply bind_ok_inv in H1 as (barcodes & w2 & _ & H2).
  apply bind_ok_inv in H2 as (sam & w3 & _ & H3).
  apply bind_ok_inv in H3 as (out & w4 & Hout & H4).
  apply bind_ok_inv in H4 as (reg & w5 & _ & H5).
  injection H5 as <- _ _. cbn. split; [done|]. split; [done|].
  by eapply check_out_file_ok.
Qed.

End Configure.

(** ** The two dispatch branches *)

Section Dispatch.
Context {RV : Type} `{!Utils RV}.

(** A branch that goes through a pool. *)
Lemma pool_post (ts : list task) sched n w paths msgs
    (kept : gmap nat (outcome RV)) w' :
  Forall is_print msgs →
  paths = task_out <$> ts →
  run_pool (completion_order sched (length ts)) ts
    (add_log w (EvPool n :: (EvApplyAsync <$> ts) ++ [EvPoolClose])) ∅
  = (kept, w') →
  let r := match gather kept (seq 0 (length ts)) with
           | Returned vs => (Ok (paths, vs), add_log w' (EvPoolJoin :: msgs))
           | Failed e => (Raise e, add_log w' [EvPoolJoin])
           end in
  ∃ evs,
    r.2 = {| files := replay (files w) (completed evs);
             dirs := dirs w; log := log w ++ evs |} ∧
    dispatch_post ts r.1 evs ∧
    dispatched evs = ts ∧
    pools evs = [n].
Proof.
  intros Hpr -> Hrun r.
  pose proof (Forall_is_print_quiet _ Hpr) as Hmsgs.
  destruct (run_pool_spec (completion_order sched (length ts)) ts
              (add_log w (EvPool n :: (EvApplyAsync <$> ts) ++ [EvPoolClose]))
              ∅ (completion_order_NoDup _ _))
    as (evs & kept' & Hrun' & Hcomp & Hsub & _ & _ & Hfail).
  rewrite Hrun in Hrun'. injection Hrun' as Hd Hw. subst kept' w'.
  unfold add_log in *. cbn [files dirs log] in *.
  set (pre := EvPool n :: (EvApplyAsync <$> ts) ++ [EvPoolClose]) in *.
  assert (dispatched pre = ts) as Hdpre.
  { unfold pre. change (EvPool n :: ?l) with ([EvPool n] ++ l).
    rewrite !dispatched_app, dispatched_submissions. simpl.
    by rewrite app_nil_r. }
  assert (failures pre = []) as Hfpre.
  { unfold pre. change (EvPool n :: ?l) with ([EvPool n] ++ l).
    by rewrite !failures_app, failures_submissions. }
  assert (completed pre = []) as Hcpre.
  { unfold pre. change (EvPool n :: ?l) with ([EvPool n] ++ l).
    by rewrite !completed_app, completed_submissions. }
  assert (merges pre = []) as Hmpre.
  { unfold pre. change (EvPool n :: ?l) with ([EvPool n] ++ l).
    by rewrite !merges_app, merges_submissions. }
  assert (Forall is_dispatch_event pre) as Hppre.
  { unfold pre. constructor; [done|]. apply Forall_app.
    split; [apply Forall_submissions_dispatch|by constructor]. }
  assert (pools pre = [n]) as Hpopre.
  { unfold pre. change (EvPool n :: ?l) with ([EvPool n] ++ l).
    by rewrite !pools_app, pools_submissions. }
  assert (failures evs ≠ [] → ∃ e, gather kept (seq 0 (length ts)) = Failed e)
    as Hraise.
  { intros Hf. destruct (Hfail Hf) as (i & e & _ & Hlt & Hd).
    eapply gather_failed; [|done]. apply elem_of_seq. lia. }
  destruct (gather kept (seq 0 (length ts))) as [vs|e] eqn:Hg; subst r;
    cbn [fst snd files dirs log].
  - exists (pre ++ evs ++ EvPoolJoin :: msgs).
    change (EvPoolJoin :: msgs) with ([EvPoolJoin] ++ msgs).
    rewrite !completed_app, Hcpre, (check_completed msgs)
      by (by apply Forall_is_quiet_check).
    cbn [completed omap list_omap app]. rewrite app_nil_r.
    split; [by rewrite <-!app_assoc|].
    assert (Forall is_dispatch_event (pre ++ evs ++ EvPoolJoin :: msgs))
      as Hall.
    { apply Forall_app. split; [done|]. apply Forall_app.
      split; [by apply Forall_is_completion_dispatch|].
      constructor; [done|by apply Forall_is_print_dispatch]. }
    change (EvPoolJoin :: msgs) with ([EvPoolJoin] ++ msgs) in *.
    unfold dispatch_post.
    rewrite !dispatched_app, !merges_app, !failures_app,
      !pools_app, !completed_app, Hdpre, Hfpre, Hmpre, Hpopre, Hcpre.
    rewrite (completion_dispatched evs), (completion_merges evs),
      (completion_pools evs) by done.
    rewrite (check_dispatched msgs), (check_merges msgs),
      (check_failures msgs), (check_pools msgs),
      (check_completed msgs)
      by (done || by apply Forall_is_quiet_check).
    cbn. rewrite !app_nil_r.
    assert (failures evs = []) as Hnone.
    { destruct (failures evs) as [|t l] eqn:Hf; [done|].
      by destruct Hraise as [e ?]. }
    split; [|done]. split; [done|]. do 4 (split; [done|]).
    split; [by rewrite Hnone|].
    intros outs vs' [= <- <-]. done.
  - exists (pre ++ evs ++ [EvPoolJoin]).
    rewrite !completed_app, Hcpre.
    cbn [completed omap list_omap app]. rewrite app_nil_r.
    split; [by rewrite <-!app_assoc|].
    assert (Forall is_dispatch_event (pre ++ evs ++ [EvPoolJoin])) as Hall.
    { apply Forall_app. split; [done|]. apply Forall_app.
      split; [by apply Forall_is_completion_dispatch|by constructor]. }
    unfold dispatch_post.
    rewrite !dispatched_app, !merges_app, !failures_app,
      !pools_app, !completed_app, Hdpre, Hfpre, Hmpre, Hpopre, Hcpre.
    rewrite (completion_dispatched evs), (completion_merges evs),
      (completion_pools evs) by done.
    cbn. rewrite !app_nil_r.
    split; [|done]. split; [done|]. do 4 (split; [done|]).
    split; [by eauto|done].
Qed.

(** A branch that runs the tasks on the caller. *)
Lemma caller_post (ts : list task) w paths msgs :
  Forall is_print msgs →
  paths = task_out <$> ts →
  let r : res (list string * list (pyres RV)) * world :=
    match calls ts w with
    | (None, w') => (Ok (paths, []), add_log w' msgs)
    | (Some e, w') => (Raise e, w')
    end in
  ∃ evs,
    r.2 = {| files := replay (files w) (completed evs);
             dirs := dirs w; log := log w ++ evs |} ∧
    dispatch_post ts r.1 evs ∧
    pools evs = [].
Proof.
  intros Hpr -> r.
  pose proof (Forall_is_print_quiet _ Hpr) as Hmsgs.
  destruct (calls_spec ts w)
    as (evs & err & Hcalls & Hev & Hpre & Hcd & Hok & Hfail & _).
  subst r. rewrite Hcalls. unfold add_log. cbn [files dirs log].
  assert (∀ t, t ∈ completed evs → t ∈ ts) as Hsub.
  { intros t. rewrite Hcd. intros Ht.
    destruct Hpre as [k ->]. apply elem_of_app. by left. }
  destruct err as [e|]; cbn [fst snd].
  - exists evs. split; [done|]. unfold dispatch_post.
    rewrite (caller_merges evs), (caller_pools evs) by done.
    split; [|done]. split; [done|]. do 2 (split; [done|]).
    split; [by apply Forall_is_caller_dispatch|]. split; [done|].
    split; [by eauto|done].
  - destruct (Hok eq_refl) as [Hd Hf].
    exists (evs ++ msgs).
    rewrite completed_app, (check_completed msgs), app_nil_r
      by (by apply Forall_is_quiet_check).
    split; [by rewrite app_assoc|].
    assert (Forall is_dispatch_event (evs ++ msgs)) as Hall.
    { apply Forall_app. split; [by apply Forall_is_caller_dispatch|].
      by apply Forall_is_print_dispatch. }
    unfold dispatch_post.
    rewrite !dispatched_app, !merges_app, !failures_app,
      !pools_app, !completed_app.
    rewrite (caller_merges evs), (caller_pools evs) by done.
    rewrite (check_dispatched msgs), (check_merges msgs),
      (check_failures msgs), (check_pools msgs),
      (check_completed msgs)
      by (done || by apply Forall_is_quiet_check).
    rewrite !app_nil_r, Hd, Hf.
    split; [|done]. split; [done|]. do 4 (split; [done|]).
    split; [done|]. by intros outs vs [= <- <-].
Qed.

(** The two branches, in every case of [nproc]. *)
Lemma branch_post sched L region w :
  let r :=
    match region with
    | None => pileup_genome sched L (l_chrom_all L)
    | Some vcf => fetch_candidates sched L vcf
    end w in
  ∃ evs,
    r.2 = {| files := replay (files w) (completed evs);
             dirs := dirs w; log := log w ++ evs |} ∧
    dispatch_post (job_tasks L region) r.1 evs.
Proof.
  cbv zeta. destruct region as [vcf|]; cbn [job_tasks].
  - destruct (Z_lt_le_dec (l_nproc L) 1) as [Hlt|Hge].
    + destruct (decide (l_nproc L = 0)) as [H0|H0].
      * rewrite fetch_candidates_zero by done.
        exists []. rewrite app_nil_r.
        split; [by destruct w|]. unfold dispatch_post. cbn.
        split; [apply prefix_nil|]. split; [by intros t Ht%elem_of_nil|].
        split; [done|]. split; [constructor|]. split; [done|].
        split; [done|]. by intros outs vs [=].
      * rewrite fetch_candidates_negative by lia.
        exists [EvPool (l_nproc L)].
        split; [done|]. unfold dispatch_post. cbn.
        split; [apply prefix_nil|]. split; [by intros t Ht%elem_of_nil|].
        split; [done|]. split; [by repeat constructor|]. split; [done|].
        split; [done|]. by intros outs vs [=].
    + rewrite fetch_candidates_pool by done. cbv zeta.
      destruct (run_pool _ _ _ _) as [kept w'] eqn:Hrun.
      edestruct (pool_post (fetch_tasks L vcf))
        as (evs & Hw & Hpost & _); [| |exact Hrun|].
      3:{ exists evs. split; [exact Hw|exact Hpost]. }
      * repeat constructor.
      * by rewrite fetch_tasks_out.
  - destruct (Z_lt_le_dec 1 (l_nproc L)) as [Hlt|Hge].
    + rewrite pileup_genome_pool by done. cbv zeta.
      destruct (run_pool _ _ _ _) as [kept w'] eqn:Hrun.
      edestruct (pool_post (pileup_tasks L (l_chrom_all L)))
        as (evs & Hw & Hpost & _); [| |exact Hrun|].
      3:{ exists evs. split; [exact Hw|exact Hpost]. }
      * repeat constructor.
      * by rewrite pileup_tasks_out.
    + rewrite pileup_genome_caller by done.
      edestruct (caller_post (pileup_tasks L (l_chrom_all L)))
        as (evs & Hw & Hpost & _).
      3:{ exists evs. split; [exact Hw|exact Hpost]. }
      * repeat constructor.
      * by rewrite pileup_tasks_out.
Qed.

(** The dispatch followed by the call of the merge primitive: the
    primitive is called at most once, after every task was handed over
    and none failed, with the final path and the paths of the tasks in
    the order of the hand-over.  Until it is called the files are what
    the executions of the tasks left: nothing else writes or deletes. *)
Lemma dispatch_merge_post sched L region w :
  let r := dispatch_merge sched L region w in
  ∃ fs evs,
    r.2 = {| files := fs; dirs := dirs w; log := log w ++ evs |} ∧
    dispatched evs `prefix_of` job_tasks L region ∧
    (∀ t, t ∈ completed evs → t ∈ job_tasks L region) ∧
    Forall is_dispatch_event evs ∧
    (∀ c, r.1 ≠ Exit c) ∧
    (merges evs = [] ∨
     merges evs = [(l_out_file L, task_out <$> dispatched evs)] ∧
     dispatched evs = job_tasks L region ∧ failures evs = []) ∧
    (failures evs ≠ [] → ∃ e, r.1 = Raise e) ∧
    (merges evs = [] → fs = replay (files w) (completed evs)).
Proof.
  cbv zeta. unfold dispatch_merge. cbv zeta. rewrite bind_eq.
  destruct (branch_post sched L region w)
    as (evs & Hw & Hpre & Hsub & Hm & Hp & Hexit & Hfail & Hok).
  cbv zeta in Hw, Hexit, Hfail, Hok.
  destruct (match region with
            | Some vcf => fetch_candidates sched L vcf
            | None => pileup_genome sched L (l_chrom_all L)
            end w) as [[[outs vs]|c|e] w1]; cbn [fst snd] in *; subst w1.
  - destruct (Hok outs vs eq_refl) as (-> & Hd & Hf).
    rewrite bind_eq, emit_eq. unfold external, add_log. cbn [files dirs log].
    destruct (merge_vcf _ _ _) as [fs2 o].
    exists fs2, (evs ++ [EvMerge (l_out_file L) (task_out <$> job_tasks L region)]).
    rewrite app_assoc. split; [by destruct o as [[]|e]|].
    rewrite !dispatched_app, !merges_app, !failures_app,
      !completed_app.
    rewrite Hd, Hm, Hf. cbn. rewrite !app_nil_r.
    split; [done|]. split; [done|].
    split; [apply Forall_app; split; [done|by repeat constructor]|].
    split; [by destruct o as [[]|e]|].
    split; [by right|]. split; [done|]. by intros [=].
  - by destruct (Hexit c).
  - exists (replay (files w) (completed evs)), evs.
    split; [done|]. split; [done|]. split; [done|]. split; [done|].
    split; [done|]. split; [by left|]. split; [by eauto|done].
Qed.

(** The whole program. *)
Lemma main_post argv options sched w :
  let r := main argv options sched w in
  ∃ fs evs,
    r.2 = {| files := fs; dirs := dirs w; log := log w ++ evs |} ∧
    (merges evs = [] ∨
     ∃ out, out_file options = Some out ∧
            merges evs = [(out, task_out <$> dispatched evs)] ∧
            failures evs = []) ∧
    (failures evs ≠ [] → ∃ e, r.1 = Raise e) ∧
    (merges evs = [] → fs = replay (files w) (completed evs)) ∧
    (dispatched evs = [] ∧ completed evs = [] ∨
     ∃ L region w1,
       configure argv options w = (Ok (L, region), w1) ∧
       dispatched evs `prefix_of` job_tasks L region ∧
       (∀ t, t ∈ completed evs → t ∈ job_tasks L region)).
Proof.
  cbv zeta. unfold main. rewrite bind_eq.
  destruct (configure_only argv options w) as (evs0 & Hw0 & Hev0).
  destruct (configure argv options w) as [[[L region]|c|e] w1] eqn:Hconf;
    cbn [fst snd] in *; subst w1.
  - destruct (configure_ok _ _ _ _ _ _ Hconf) as (_ & _ & Hout).
    rewrite bind_eq.
    destruct (dispatch_merge_post sched L region (add_log w evs0))
      as (fs & evs & Hw & Hpre & Hsub & Hp & Hexit & Hm & Hfail & Hfs).
    cbv zeta in Hw, Hexit, Hfail.
    destruct (dispatch_merge sched L region (add_log w evs0))
      as [[[]|c|e] w2]; cbn [fst snd] in *;
      unfold add_log in Hw; cbn [files dirs log] in Hw; subst w2.
    + rewrite emit_eq. unfold add_log. cbn [files dirs log fst snd].
      exists fs, (evs0 ++ evs ++ [EvPrintRunTime]).
      rewrite <-!app_assoc. split; [done|].
      rewrite !dispatched_app, !merges_app, !failures_app, !completed_app.
      rewrite (check_dispatched evs0), (check_merges evs0),
        (check_failures evs0), (check_completed evs0) by done.
      cbn. rewrite !app_nil_r. split; [|split; [|split]].
      * destruct Hm as [->|(-> & Hd & Hf)]; [by left|].
        right. exists (l_out_file L). by rewrite Hf.
      * intros Hf. destruct (Hfail Hf) as [e [=]].
      * done.
      * right. by exists L, region, (add_log w evs0).
    + by destruct (Hexit c).
    + exists fs, (evs0 ++ evs). rewrite <-!app_assoc. split; [done|].
      rewrite !dispatched_app, !merges_app, !failures_app, !completed_app.
      rewrite (check_dispatched evs0), (check_merges evs0),
        (check_failures evs0), (check_completed evs0) by done.
      cbn. split; [|split; [|split]].
      * destruct Hm as [->|(-> & Hd & Hf)]; [by left|].
        right. exists (l_out_file L). by rewrite Hf.
      * by eauto.
      * done.
      * right. by exists L, region, (add_log w evs0).
  - exists (files w), evs0. split; [done|].
    rewrite (check_dispatched evs0), (check_merges evs0),
      (check_failures evs0), (check_completed evs0) by done.
    split; [by left|]. split; [done|]. split; [done|by left].
  - exists (files w), evs0. split; [done|].
    rewrite (check_dispatched evs0), (check_merges evs0),
      (check_failures evs0), (check_completed evs0) by done.
    split; [by left|]. split; [done|]. split; [done|by left].
Qed.

End Dispatch.

(** ** A task that fails *)

Section Failure.
Context {RV : Type} `{!Utils RV}.

(** The final path is not the output of any task of the job. *)
Lemma job_tasks_out_ne L region :
  l_out_file L ∉ task_out <$> job_tasks L region.
Proof.
  destruct region as [vcf|]; cbn [job_tasks].
  - rewrite fetch_tasks_out. intros (ii & Heq & _)%list_elem_of_fmap.
    by eapply out_file_tmp_ne.
  - rewrite pileup_tasks_out. intros (c & Heq & _)%list_elem_of_fmap.
    by eapply chr_out_file_ne.
Qed.

(** C2, as the code has it.  When a task of a run fails, the merge
    primitive is not called and the run ends with an exception; the files
    are then exactly what the executions of the tasks left behind, so no
    temporary file is deleted; and when every task changes no file but its
    own output, the final output path is as it was before the run. *)
Theorem failed_task_no_merge_no_cleanup argv options sched fs ds :
  let r := run argv options sched fs ds in
  failures (log r.2) ≠ [] →
  merges (log r.2) = [] ∧
  (∃ e, r.1 = Raise e) ∧
  files r.2 = replay fs (completed (log r.2)) ∧
  ((∀ t, writes_own_output t) →
   ∀ out, out_file options = Some out → files r.2 !! out = fs !! out).
Proof.
  intros r Hfail. subst r. unfold run in *.
  destruct (main_post argv options sched {| files := fs; dirs := ds; log := [] |})
    as (fs' & evs & Hw & Hm & Hf & Hfs & Hd).
  cbv zeta in Hw, Hf. rewrite Hw in *. cbn [files dirs log app] in *.
  assert (merges evs = []) as Hnil.
  { destruct Hm as [Hm|(out & _ & _ & Hno)]; [done|]. by rewrite Hno in Hfail. }
  split; [done|]. split; [by apply Hf|]. split; [by apply Hfs|].
  intros Hown out Hout. rewrite Hfs by done.
  destruct Hd as [[_ ->]|(L & region & w1 & Hconf & _ & Hsub)]; [done|].
  apply configure_ok in Hconf as (_ & _ & Hout'). rewrite Hout in Hout'.
  injection Hout' as ->.
  apply replay_frame; [by apply Forall_forall|].
  intros (t & Heq & Ht)%list_elem_of_fmap.
  apply (job_tasks_out_ne L region), list_elem_of_fmap.
  exists t. split; [done|by apply Hsub].
Qed.

End Failure.

(** C2 as stated fails: in that run task 2 of 4 fails, and yet the
    temporary files of the three other tasks are still there when the
    failure surfaces. *)
Lemma failed_task_temp_files_remain :
  let r := @run unit (demo_utils ["2"] (demo_vcf 0)) ["-s"]
             (with_nproc 4 (with_chrom "1,2,3,4" demo_options))
             [3; 2; 1; 0]%nat demo_files demo_dirs in
  ¬ (failures (log r.2) ≠ [] →
     merges (log r.2) = [] ∧
     files r.2 !! "/d/out.vcf" = None ∧
     ∀ t, t ∈ dispatched (log r.2) → files r.2 !! task_out t = None).
Proof.
  intros r Hclaim.
  assert (failures (log r.2) ≠ []) as Hfail by (vm_compute; discriminate).
  destruct (Hclaim Hfail) as (_ & _ & Hgone).
  assert (files r.2 !! "/d/out.vcf.temp_1_" = Some ["#CHROM POS"; "chr1"])
    as Hthere by (vm_compute; reflexivity).
  set (t := pileup_task
              {| l_barcodes := None; l_sam_file := "/d/in.sam";
                 l_out_file := "/d/out.vcf"; l_cell_tag := Some "CR";
                 l_UMI_tag := Some "UR"; l_chrom_all := ["1"; "2"; "3"; "4"];
                 l_nproc := 4; l_min_MAF := 0%Q; l_min_LEN := 30;
                 l_min_MAPQ := 20; l_max_FLAG := 255; l_min_COUNT := 20 |}
              "/d/out.vcf.temp_1_" "1").
  assert (t ∈ dispatched (log r.2)) as Ht.
  { vm_compute. left. }
  specialize (Hgone t Ht).
  change (task_out t) with "/d/out.vcf.temp_1_" in Hgone.
  rewrite Hthere in Hgone. discriminate Hgone.
Qed.

(** ** The order of the hand-over and the order of completion *)

Section Order.
Context {RV : Type} `{!Utils RV}.

(** What a branch hands over does not depend on the schedule. *)
Lemma branch_dispatched sched1 sched2 L region w :
  let branch sched :=
    match region with
    | None => pileup_genome sched L (l_chrom_all L)
    | Some vcf => fetch_candidates sched L vcf
    end w in
  dispatched (log (branch sched1).2) = dispatched (log (branch sched2).2) ∧
  (∀ a1 a2, (branch sched1).1 = Ok a1 → (branch sched2).1 = Ok a2 →
            a1.1 = a2.1).
Proof.
  cbv zeta. destruct region as [vcf|].
  - destruct (Z_lt_le_dec (l_nproc L) 1) as [Hlt|Hge].
    + destruct (decide (l_nproc L = 0)) as [H0|H0].
      * by rewrite !fetch_candidates_zero by done.
      * by rewrite !fetch_candidates_negative by lia.
    + rewrite !fetch_candidates_pool by done. cbv zeta.
      destruct (run_pool (completion_order sched1 _) _ _ _)
        as [kept1 w1] eqn:Hrun1.
      destruct (run_pool (completion_order sched2 _) _ _ _)
        as [kept2 w2] eqn:Hrun2.
      edestruct (pool_post (fetch_tasks L vcf) sched1)
        as (evs1 & Hw1 & _ & Hd1 & _); [| |exact Hrun1|].
      3: edestruct (pool_post (fetch_tasks L vcf) sched2)
        as (evs2 & Hw2 & _ & Hd2 & _); [| |exact Hrun2|].
      5:{ cbv zeta in Hw1, Hw2. rewrite Hw1, Hw2. cbn [log].
          rewrite !dispatched_app, Hd1, Hd2. split; [done|].
          intros [o1 v1] [o2 v2].
          destruct (gather kept1 _), (gather kept2 _); cbn; congruence. }
      all: try (repeat constructor); by rewrite fetch_tasks_out.
  - destruct (Z_lt_le_dec 1 (l_nproc L)) as [Hlt|Hge].
    + rewrite !pileup_genome_pool by done. cbv zeta.
      destruct (run_pool (completion_order sched1 _) _ _ _)
        as [kept1 w1] eqn:Hrun1.
      destruct (run_pool (completion_order sched2 _) _ _ _)
        as [kept2 w2] eqn:Hrun2.
      edestruct (pool_post (pileup_tasks L (l_chrom_all L)) sched1)
        as (evs1 & Hw1 & _ & Hd1 & _); [| |exact Hrun1|].
      3: edestruct (pool_post (pileup_tasks L (l_chrom_all L)) sched2)
        as (evs2 & Hw2 & _ & Hd2 & _); [| |exact Hrun2|].
      5:{ cbv zeta in Hw1, Hw2. rewrite Hw1, Hw2. cbn [log].
          rewrite !dispatched_app, Hd1, Hd2. split; [done|].
          intros [o1 v1] [o2 v2].
          destruct (gather kept1 _), (gather kept2 _); cbn; congruence. }
      all: try (repeat constructor); by rewrite pileup_tasks_out.
    + rewrite !pileup_genome_caller by done. split; [done|].
      intros a1 a2 H1 H2. congruence.
Qed.

Lemma dispatch_merge_dispatched sched L region w :
  dispatched (log (dispatch_merge sched L region w).2)
  = dispatched
      (log (match region with
            | None => pileup_genome sched L (l_chrom_all L)
            | Some vcf => fetch_candidates sched L vcf
            end w).2).
Proof.
  unfold dispatch_merge. cbv zeta. rewrite bind_eq.
  destruct (match region with
            | Some vcf => fetch_candidates sched L vcf
            | None => pileup_genome sched L (l_chrom_all L)
            end w) as [[[outs vs]|c|e] w1]; [|done..].
  rewrite bind_eq, emit_eq. unfold external, add_log. cbn [files dirs log].
  destruct (merge_vcf _ _ _) as [fs [[]|e]]; cbn [fst snd log];
    by rewrite dispatched_app, app_nil_r.
Qed.

Lemma main_dispatched argv options sched w :
  dispatched (log (main argv options sched w).2)
  = match configure argv options w with
    | (Ok (L, region), w1) =>
        dispatched (log (dispatch_merge sched L region w1).2)
    | (_, w1) => dispatched (log w1)
    end.
Proof.
  unfold main. rewrite bind_eq.
  destruct (configure argv options w) as [[[L region]|c|e] w1]; [|done..].
  rewrite bind_eq.
  destruct (dispatch_merge sched L region w1) as [[[]|c|e] w2]; [|done..].
  rewrite emit_eq. unfold add_log. cbn [fst snd log].
  by rewrite dispatched_app, app_nil_r.
Qed.

(** Two runs of the same job under two schedules hand over the same tasks
    in the same order, and call the merge primitive, when they reach it,
    with the final path and the outputs of the tasks in that order. *)
Lemma merge_arguments argv options fs ds sched1 sched2 :
  let w1 := (run argv options sched1 fs ds).2 in
  let w2 := (run argv options sched2 fs ds).2 in
  dispatched (log w1) = dispatched (log w2) ∧
  (∀ out parts, (out, parts) ∈ merges (log w1) →
     parts = task_out <$> dispatched (log w1) ∧ out_file options = Some out) ∧
  (∀ m1 m2, m1 ∈ merges (log w1) → m2 ∈ merges (log w2) → m1 = m2).
Proof.
  intros w1 w2. subst w1 w2. unfold run.
  set (w := {| files := fs; dirs := ds; log := [] |}).
  assert (dispatched (log (main argv options sched1 w).2)
          = dispatched (log (main argv options sched2 w).2)) as Hd.
  { rewrite !main_dispatched.
    destruct (configure argv options w) as [[[L region]|c|e] w1]; [|done..].
    rewrite !dispatch_merge_dispatched.
    apply (branch_dispatched sched1 sched2 L region w1). }
  assert (∀ sched out parts,
            (out, parts) ∈ merges (log (main argv options sched w).2) →
            parts = task_out <$> dispatched (log (main argv options sched w).2)
            ∧ out_file options = Some out) as Hm.
  { intros sched out parts.
    destruct (main_post argv options sched w)
      as (fs' & evs & Hw & Hm & _).
    cbv zeta in Hw. rewrite Hw. unfold w. cbn [log app].
    destruct Hm as [->|(out' & Hout & -> & _)];
      [by intros ?%elem_of_nil|].
    intros [= -> ->]%list_elem_of_singleton. done. }
  split; [done|]. split; [apply Hm|].
  intros [out1 parts1] [out2 parts2] H1 H2.
  apply Hm in H1 as [-> Ho1]. apply Hm in H2 as [-> Ho2].
  rewrite Hd. f_equal. congruence.
Qed.

End Order.

(** ** One task per chromosome (whole-genome mode) *)

Section WholeGenome.
Context {RV : Type} `{!Utils RV}.

(** What the whole-genome branch hands over. *)
Lemma pileup_genome_dispatched sched L chrom_all fs ds :
  let r := pileup_genome sched L chrom_all
             {| files := fs; dirs := ds; log := [] |} in
  (1 < l_nproc L →
   dispatched (log r.2) = pileup_tasks L chrom_all ∧
   pools (log r.2) = [l_nproc L]) ∧
  (l_nproc L ≤ 1 →
   dispatched (log r.2) `prefix_of` pileup_tasks L chrom_all ∧
   pools (log r.2) = [] ∧
   Forall (λ e, match e with EvApplyAsync _ => False | _ => True end)
     (log r.2) ∧
   (failures (log r.2) = [] →
    dispatched (log r.2) = pileup_tasks L chrom_all)).
Proof.
  intros r. subst r. split; intros Hn.
  - rewrite pileup_genome_pool by done. cbv zeta.
    destruct (run_pool _ _ _ _) as [kept w'] eqn:Hrun.
    edestruct (pool_post (pileup_tasks L chrom_all) sched)
      as (evs & Hw & _ & Hd & Hp); [| |exact Hrun|].
    3:{ cbv zeta in Hw. rewrite Hw. done. }
    + repeat constructor.
    + by rewrite pileup_tasks_out.
  - rewrite pileup_genome_caller by done.
    destruct (calls_spec (pileup_tasks L chrom_all)
                {| files := fs; dirs := ds; log := [] |})
      as (evs & err & -> & Hev & Hpre & _ & Hok & _ & Hnone).
    cbn [files dirs log app].
    assert (Forall (λ e, match e with EvApplyAsync _ => False | _ => True end)
              evs) as Hno.
    { eapply Forall_impl; [exact Hev|]. by intros []. }
    destruct err as [e|]; cbn [fst snd log].
    + split; [done|]. split; [by apply caller_pools|]. split; [done|].
      intros Hf. by specialize (Hnone Hf).
    + unfold add_log. cbn [log app].
      rewrite !dispatched_app, !pools_app, !failures_app.
      cbn. rewrite !app_nil_r.
      split; [done|]. split; [by apply caller_pools|].
      split; [|intros _; by apply Hok].
      apply Forall_app. split; [done|]. by repeat constructor.
Qed.

(** What the targeted branch hands over. *)
Lemma fetch_candidates_dispatched sched L vcf fs ds :
  1 ≤ l_nproc L →
  let r := fetch_candidates sched L vcf
             {| files := fs; dirs := ds; log := [] |} in
  dispatched (log r.2) = fetch_tasks L vcf ∧
  pools (log r.2) = [l_nproc L].
Proof.
  intros Hn r. subst r.
  rewrite fetch_candidates_pool by done. cbv zeta.
  destruct (run_pool _ _ _ _) as [kept w'] eqn:Hrun.
  edestruct (pool_post (fetch_tasks L vcf) sched)
    as (evs & Hw & _ & Hd & Hp); [| |exact Hrun|].
  3:{ cbv zeta in Hw. rewrite Hw. done. }
  - repeat constructor.
  - by rewrite fetch_tasks_out.
Qed.

Lemma length_fetch_tasks L vcf :
  length (fetch_tasks L vcf) = Z.to_nat (l_nproc L).
Proof. unfold fetch_tasks, Py.range. by rewrite length_fmap, length_seqZ. Qed.

(** C6, as the code has it.  In the whole-genome mode the tasks are built
    one per element of [chrom_all], in its order, each with its chromosome
    as the key, and the branch hands them over in that order: all of them
    through a pool; on the caller the tasks up to the first that fails,
    and so all of them only when none fails.  Without the [--chrom] option
    [chrom_all] is ["1"] to ["22"]. *)
Theorem whole_genome_one_task_per_chromosome sched L chrom_all fs ds :
  let r := pileup_genome sched L chrom_all
             {| files := fs; dirs := ds; log := [] |} in
  task_key <$> pileup_tasks L chrom_all = Some <$> chrom_all ∧
  length (pileup_tasks L chrom_all) = length chrom_all ∧
  dispatched (log r.2) `prefix_of` pileup_tasks L chrom_all ∧
  (1 < l_nproc L ∨ failures (log r.2) = [] →
   dispatched (log r.2) = pileup_tasks L chrom_all) ∧
  (l_nproc L ≤ 1 → failures (log r.2) ≠ [] →
   ∃ k t,
     pileup_tasks L chrom_all !! k = Some t ∧
     failures (log r.2) = [t] ∧
     dispatched (log r.2) = take (S k) (pileup_tasks L chrom_all)) ∧
  chrom_all_of None
  = ["1"; "2"; "3"; "4"; "5"; "6"; "7"; "8"; "9"; "10"; "11"; "12"; "13";
     "14"; "15"; "16"; "17"; "18"; "19"; "20"; "21"; "22"].
Proof.
  intros r. split; [apply pileup_tasks_key|].
  split; [unfold pileup_tasks; by rewrite length_fmap|].
  destruct (pileup_genome_dispatched sched L chrom_all fs ds) as [Hpool Hcall].
  fold r in Hpool, Hcall.
  destruct (Z_lt_le_dec 1 (l_nproc L)) as [Hlt|Hge].
  - destruct (Hpool Hlt) as [-> _]. split; [done|]. split; [done|].
    split; [intros ?; lia|]. vm_compute. reflexivity.
  - destruct (Hcall Hge) as (Hpre & _ & _ & Hall).
    split; [done|]. split; [intros [?|Hf]; [lia|by apply Hall]|].
    split; [|vm_compute; reflexivity].
    intros _. subst r. rewrite pileup_genome_caller by done.
    set (w0 := {| files := fs; dirs := ds; log := [] |}).
    destruct (calls_stop (pileup_tasks L chrom_all) w0) as (evs & Hlog & Hcase).
    destruct (calls (pileup_tasks L chrom_all) w0) as [[e|] w1];
      cbn [fst snd] in *.
    + intros _. destruct Hcase as (k & t & Hk & Hd & Hf).
      exists k, t. by rewrite Hlog.
    + destruct Hcase as [Hd Hf]. unfold add_log. cbn [log].
      rewrite Hlog. cbn [log app w0].
      rewrite failures_app, Hf. cbn. done.
Qed.

End WholeGenome.

(** ** The word "None" as the candidate file *)

Section RegionNone.
Context {RV : Type} `{!Utils RV}.

(** The log of a run: the checks, then the dispatch and the merge. *)
Lemma main_split argv options sched w :
  ∃ evs,
    log (main argv options sched w).2
    = log (configure argv options w).2 ++ evs ∧
    Forall is_dispatch_event evs ∧
    (∀ t, t ∈ dispatched evs →
       ∃ L region w1,
         configure argv options w = (Ok (L, region), w1) ∧
         t ∈ job_tasks L region).
Proof.
  unfold main. rewrite bind_eq.
  destruct (configure argv options w) as [[[L region]|c|e] w1] eqn:Hconf;
    cbn [fst snd].
  2,3: exists []; rewrite app_nil_r; split; [done|];
       split; [constructor|by intros t Ht%elem_of_nil].
  rewrite bind_eq.
  destruct (dispatch_merge_post sched L region w1)
    as (fs & evs & Hw & Hpre & _ & Hev & _).
  cbv zeta in Hw.
  destruct (dispatch_merge sched L region w1) as [[[]|c|e] w2];
    cbn [fst snd] in *; subst w2.
  - rewrite emit_eq. unfold add_log. cbn [fst snd log].
    exists (evs ++ [EvPrintRunTime]). rewrite app_assoc. split; [done|].
    split; [apply Forall_app; split; [done|by repeat constructor]|].
    intros t. rewrite dispatched_app, app_nil_r. intros Ht.
    exists L, region, w1. split; [done|].
    destruct Hpre as [k ->]. apply elem_of_app. by left.
  - exists evs. split; [done|]. split; [done|].
    intros t Ht. exists L, region, w1. split; [done|].
    destruct Hpre as [k ->]. apply elem_of_app. by left.
  - exists evs. split; [done|]. split; [done|].
    intros t Ht. exists L, region, w1. split; [done|].
    destruct Hpre as [k ->]. apply elem_of_app. by left.
Qed.

(** C9.  When the candidate-file option is the word ["None"], the run is
    the run without that option, event for event and file for file; the
    parser is not called, the only paths tested for existence are those of
    the barcode and alignment options, and every task handed over is a
    whole-genome task.  (That arguments were given at all is what the two
    invocations share: [argv] and [argv'] are not empty.) *)
Theorem region_none_is_whole_genome argv argv' options sched fs ds :
  argv ≠ [] → argv' ≠ [] →
  region_file options = Some "None" →
  let r := run argv options sched fs ds in
  r = run argv' (with_region None options) sched fs ds ∧
  parses (log r.2) = [] ∧
  (∀ p, p ∈ isfile_checks (log r.2) →
     barcode_file options = Some p ∨ sam_file options = Some p) ∧
  (∀ t, t ∈ dispatched (log r.2) → ∃ a, t = PileupRegions a).
Proof.
  intros Hargv Hargv' Hreg r. subst r. split.
  - destruct options; cbn in Hreg; subst.
    destruct argv as [|a argv]; [done|].
    destruct argv' as [|a' argv']; [done|]. reflexivity.
  - unfold run.
    set (w := {| files := fs; dirs := ds; log := [] |}).
    destruct (main_split argv options sched w) as (evs & -> & Hev & Hd).
    destruct (configure_region_free argv options (or_intror Hreg) w)
      as (evs0 & -> & Hev0).
    unfold w, add_log. cbn [log app].
    rewrite parses_app, isfile_checks_app, dispatched_app.
    rewrite (dispatch_parses evs), (dispatch_isfile_checks evs) by done.
    assert (parses evs0 = []) as ->.
    { eapply omap_none; [|exact Hev0]. by intros []. }
    assert (dispatched evs0 = []) as ->.
    { eapply omap_none; [|exact Hev0]. by intros []. }
    rewrite !app_nil_r. split; [done|]. split.
    + intros p Hp. unfold isfile_checks in Hp.
      apply list_elem_of_omap in Hp as (e & He & Hp).
      apply (proj1 (Forall_forall _ _) Hev0) in He.
      destruct e; try discriminate Hp. by injection Hp as ->.
    + intros t Ht. destruct (Hd t Ht) as (L & region & w1 & Hconf & Htask).
      apply configure_region_none in Hconf as ->; [|by right].
      cbn [job_tasks] in Htask. unfold pileup_tasks in Htask.
      apply list_elem_of_fmap in Htask as (c & -> & _). by eexists.
Qed.

End RegionNone.

(** ** Independent tasks: the schedule does not matter *)

Section Schedule.
Context {RV : Type} `{!Utils RV}.

(** The result of a pool depends on the world only through the files. *)
Lemma run_pool_congr order pool w w' (kept : gmap nat (outcome RV)) :
  files w = files w' →
  (run_pool order pool w kept).1 = (run_pool order pool w' kept).1 ∧
  files (run_pool order pool w kept).2 = files (run_pool order pool w' kept).2.
Proof.
  revert w w' kept. induction order as [|i order IH]; intros w w' kept Hfs.
  - done.
  - cbn [run_pool]. destruct (pool !! i) as [t|]; [|by apply IH].
    rewrite !execute_eq, Hfs. apply IH. cbn [files]. done.
Qed.

(** Two completion orders of the same tasks give the same outcomes and
    leave the same files, when the tasks are pairwise independent. *)
Lemma run_pool_perm order1 order2 pool w w' (kept : gmap nat (outcome RV)) :
  order1 ≡ₚ order2 → NoDup order1 → pairwise_independent pool →
  files w = files w' →
  (run_pool order1 pool w kept).1 = (run_pool order2 pool w' kept).1 ∧
  files (run_pool order1 pool w kept).2
  = files (run_pool order2 pool w' kept).2.
Proof.
  intros Hperm Hnd Hind. revert w w' kept Hnd.
  induction Hperm as [|x l l' Hperm IH|x y l|l1 l2 l3 H12 IH12 H23 IH23];
    intros w w' kept Hnd Hfs.
  - done.
  - apply NoDup_cons in Hnd as [_ Hnd]. cbn [run_pool].
    destruct (pool !! x) as [t|]; [|by apply IH].
    rewrite !execute_eq, Hfs. apply IH; [done|]. cbn [files]. done.
  - apply NoDup_cons in Hnd as [Hyx _].
    assert (x ≠ y) as Hne. { intros ->. apply Hyx. by left. }
    cbn [run_pool].
    destruct (pool !! y) as [ty|] eqn:Hy, (pool !! x) as [tx|] eqn:Hx.
    + rewrite !execute_eq. cbn [files dirs log].
      destruct (Hind x y tx ty Hne Hx Hy (files w')) as (Hf & Ho1 & Ho2).
      rewrite Hfs, Ho1, Ho2.
      rewrite (insert_insert_ne kept y x) by done.
      apply run_pool_congr. cbn [files]. done.
    + rewrite !execute_eq, Hfs. apply run_pool_congr. cbn [files]. done.
    + rewrite !execute_eq, Hfs. apply run_pool_congr. cbn [files]. done.
    + by apply run_pool_congr.
  - destruct (IH12 w w kept Hnd eq_refl) as [Hk1 Hf1].
    destruct (IH23 w w' kept) as [Hk2 Hf2]; [by rewrite <-H12|done|].
    split; congruence.
Qed.

(** When the loop of calls ends without an exception, a pool whose
    workers complete the tasks in the order of submission leaves the same
    files, and every outcome it keeps is a value. *)
Lemma calls_then_pool ts w w1 :
  calls ts w = (None, w1) →
  ∀ pool k (kept : gmap nat (outcome RV)) w0,
    drop k pool = ts → files w0 = files w →
    files (run_pool (seq k (length ts)) pool w0 kept).2 = files w1 ∧
    ∀ i, (k ≤ i < k + length ts)%nat →
         ∃ v, (run_pool (seq k (length ts)) pool w0 kept).1 !! i
              = Some (Returned v).
Proof.
  revert w. induction ts as [|t ts IH]; intros w Hcalls pool k kept w0 Hdrop Hfs.
  - injection Hcalls as <-. cbn. split; [done|]. intros i Hi. lia.
  - cbn [calls] in Hcalls. rewrite execute_eq in Hcalls.
    unfold add_log in Hcalls. cbn [files dirs log] in Hcalls.
    destruct (run_task t (files w)) as [fs1 [v|e]] eqn:Hrun;
      cbn [fst snd] in Hcalls; [|done].
    assert (pool !! k = Some t) as Hk.
    { rewrite <-(Nat.add_0_r k), <-lookup_drop, Hdrop. done. }
    assert (drop (S k) pool = ts) as Hdrop'.
    { rewrite <-Nat.add_1_r, <-drop_drop, Hdrop. done. }
    cbn [length seq run_pool]. rewrite Hk, execute_eq, Hfs, Hrun.
    cbn [fst snd].
    edestruct (IH _ Hcalls pool (S k) (<[k := Returned v]> kept))
      as [Hfiles Hkept]; [exact Hdrop'| |].
    2:{ split; [exact Hfiles|]. intros i Hi.
        destruct (decide (i = k)) as [->|Hne]; [|apply Hkept; lia].
        exists v.
        edestruct (run_pool_spec (seq (S k) (length ts)) pool)
          as (evs & kept' & -> & _ & _ & Hout & _); [apply NoDup_seq|].
        cbn [fst]. rewrite Hout; [apply lookup_insert_eq|].
        rewrite elem_of_seq. lia. }
    done.
Qed.

Lemma gather_returned (kept : gmap nat (outcome RV)) hs :
  (∀ h, h ∈ hs → ∃ v, kept !! h = Some (Returned v)) →
  ∃ vs, gather kept hs = Returned vs.
Proof.
  induction hs as [|h hs IH]; intros Hall; [by eexists|].
  cbn [gather]. destruct (Hall h) as [v ->]; [by left|].
  destruct IH as [vs ->]; [|by eexists].
  intros h' Hh'. apply Hall. by right.
Qed.

(** The whole-genome branch on the caller and through a pool: when the
    calls on the caller all return and the tasks are pairwise independent,
    the pool, whatever its schedule, returns the same paths and leaves
    the same files. *)
Lemma genome_caller_then_pool sched L n' chrom_all w w1 :
  1 < n' →
  pairwise_independent (pileup_tasks L chrom_all) →
  calls (pileup_tasks L chrom_all) w = (None, w1) →
  ∃ vs w',
    pileup_genome sched (set_nproc n' L) chrom_all w
    = (Ok (chr_out_file (l_out_file L) <$> chrom_all, vs), w') ∧
    files w' = files w1 ∧
    merges (log w') = merges (log w) ∧
    pools (log w') = pools (log w) ++ [n'].
Proof.
  intros Hn Hind Hcalls.
  rewrite pileup_genome_pool by done. cbv zeta.
  change (pileup_tasks (set_nproc n' L) chrom_all)
    with (pileup_tasks L chrom_all).
  change (l_nproc (set_nproc n' L)) with n'.
  change (l_out_file (set_nproc n' L)) with (l_out_file L).
  set (ts := pileup_tasks L chrom_all) in *.
  set (w0 := add_log w (EvPool n' :: (EvApplyAsync <$> ts) ++ [EvPoolClose])).
  destruct (run_pool (completion_order sched (length ts)) ts w0 ∅)
    as [kept w'] eqn:Hrun.
  destruct (run_pool_perm (completion_order sched (length ts))
              (seq 0 (length ts)) ts w0 w0 ∅)
    as [Hkept Hfiles];
    [apply completion_order_perm|apply completion_order_NoDup|done..|].
  rewrite Hrun in Hkept, Hfiles. cbn [fst snd] in Hkept, Hfiles.
  destruct (calls_then_pool ts w w1 Hcalls ts 0%nat ∅ w0) as [Hf1 Hret];
    [done..|].
  rewrite <-Hkept in Hret. rewrite <-Hfiles in Hf1.
  destruct (gather_returned kept (seq 0 (length ts))) as [vs Hg].
  { intros h Hh%elem_of_seq. apply Hret. lia. }
  edestruct (pool_post ts sched n' w) as (evs & Hw & Hpost & _ & Hp);
    [| |exact Hrun|].
  3:{ cbv zeta in Hw, Hpost. rewrite Hg in *. cbn [fst snd] in *.
      eexists vs, _. split; [done|].
      destruct Hpost as (_ & _ & Hm & _).
      rewrite Hw. cbn [files log].
      rewrite merges_app, pools_app, Hm, Hp, app_nil_r.
      split; [|done].
      apply (f_equal files) in Hw. cbn [files] in Hw.
      unfold add_log in Hw. cbn [files] in Hw. congruence. }
  - repeat constructor.
  - unfold ts. by rewrite pileup_tasks_out.
Qed.

(** Tasks with distinct outputs are pairwise independent when any two
    tasks with different outputs are. *)
Lemma pairwise_independent_outputs (ts : list task) :
  (∀ t1 t2, task_out t1 ≠ task_out t2 → independent t1 t2) →
  NoDup (task_out <$> ts) → pairwise_independent ts.
Proof.
  intros Hind Hnd i j ti tj Hne Hi Hj. apply Hind. intros Heq.
  apply Hne. eapply (NoDup_lookup _ _ _ _ Hnd).
  - rewrite list_lookup_fmap, Hi. done.
  - rewrite list_lookup_fmap, Hj. cbn. by rewrite Heq.
Qed.

Lemma job_tasks_NoDup L region :
  NoDup (l_chrom_all L) → NoDup (task_out <$> job_tasks L region).
Proof.
  intros Hnd. destruct region as [vcf|]; cbn [job_tasks].
  - rewrite fetch_tasks_out. apply (NoDup_fmap_2 _), NoDup_seqZ.
  - rewrite pileup_tasks_out. by apply (NoDup_fmap_2 _).
Qed.

(** With pairwise independent tasks the dispatch and the merge end with
    the same result and the same files under any two schedules. *)
Lemma dispatch_merge_schedule sched1 sched2 L region w :
  pairwise_independent (job_tasks L region) →
  (dispatch_merge sched1 L region w).1 = (dispatch_merge sched2 L region w).1 ∧
  files (dispatch_merge sched1 L region w).2
  = files (dispatch_merge sched2 L region w).2.
Proof.
  intros Hind. unfold dispatch_merge. rewrite !bind_eq.
  assert (∀ ts paths msgs1 msgs2 n,
            pairwise_independent ts →
            let branch sched :=
              let '(kept, w') :=
                run_pool (completion_order sched (length ts)) ts
                  (add_log w (EvPool n :: (EvApplyAsync <$> ts) ++ [EvPoolClose]))
                  (∅ : gmap nat (outcome RV)) in
              match gather kept (seq 0 (length ts)) with
              | Returned vs =>
                  (Ok (paths : list string, vs), add_log w' msgs1)
              | Failed e => (Raise e, add_log w' msgs2)
              end in
            (branch sched1).1 = (branch sched2).1 ∧
            files (branch sched1).2 = files (branch sched2).2) as Hpool.
  { intros ts paths msgs1 msgs2 n Hts. cbv zeta.
    destruct (run_pool_perm (completion_order sched1 (length ts))
                (completion_order sched2 (length ts)) ts
                (add_log w (EvPool n :: (EvApplyAsync <$> ts) ++ [EvPoolClose]))
                (add_log w (EvPool n :: (EvApplyAsync <$> ts) ++ [EvPoolClose]))
                ∅) as [Hk Hf];
      [by rewrite !completion_order_perm|apply completion_order_NoDup|done..|].
    destruct (run_pool (completion_order sched1 _) _ _ _) as [kept1 w1].
    destruct (run_pool (completion_order sched2 _) _ _ _) as [kept2 w2].
    cbn [fst snd] in Hk, Hf. subst kept2.
    by destruct (gather kept1 _). }
  assert (∀ (b1 b2 : res (list string * list (pyres RV)) * world),
            b1.1 = b2.1 → files b1.2 = files b2.2 →
            (let (r, w') := b1 in
             match r with
             | Ok a =>
                 (let '(out_files, _) := a in
                  emit (EvMerge (l_out_file L) out_files) ;;
                  external (merge_vcf (l_out_file L) out_files)) w'
             | Exit c => (Exit c, w')
             | Raise e => (Raise e, w')
             end).1
            = (let (r, w') := b2 in
               match r with
               | Ok a =>
                   (let '(out_files, _) := a in
                    emit (EvMerge (l_out_file L) out_files) ;;
                    external (merge_vcf (l_out_file L) out_files)) w'
               | Exit c => (Exit c, w')
               | Raise e => (Raise e, w')
               end).1 ∧
            files (let (r, w') := b1 in
                   match r with
                   | Ok a =>
                       (let '(out_files, _) := a in
                        emit (EvMerge (l_out_file L) out_files) ;;
                        external (merge_vcf (l_out_file L) out_files)) w'
                   | Exit c => (Exit c, w')
                   | Raise e => (Raise e, w')
                   end).2
            = files (let (r, w') := b2 in
                     match r with
                     | Ok a =>
                         (let '(out_files, _) := a in
                          emit (EvMerge (l_out_file L) out_files) ;;
                          external (merge_vcf (l_out_file L) out_files)) w'
                     | Exit c => (Exit c, w')
                     | Raise e => (Raise e, w')
                     end).2) as Hmerge.
  { intros [r1 w1] [r2 w2] Hr Hf. cbn [fst snd] in Hr, Hf. subst r2.
    destruct r1 as [[outs vs]|c|e]; [|done..].
    rewrite !bind_eq, !emit_eq. unfold external, add_log.
    cbn [files dirs log]. rewrite Hf.
    by destruct (merge_vcf _ _ _) as [fs2 [[]|e]]. }
  apply Hmerge; destruct region as [vcf|]; cbn [job_tasks] in Hind.
  - destruct (Z_lt_le_dec (l_nproc L) 1) as [Hlt|Hge].
    + destruct (decide (l_nproc L = 0)) as [H0|H0].
      * by rewrite !fetch_candidates_zero by done.
      * by rewrite !fetch_candidates_negative by lia.
    + rewrite !fetch_candidates_pool by done. by apply Hpool.
  - destruct (Z_lt_le_dec 1 (l_nproc L)) as [Hlt|Hge].
    + rewrite !pileup_genome_pool by done. by apply Hpool.
    + by rewrite !pileup_genome_caller by done.
  - destruct (Z_lt_le_dec (l_nproc L) 1) as [Hlt|Hge].
    + destruct (decide (l_nproc L = 0)) as [H0|H0].
      * by rewrite !fetch_candidates_zero by done.
      * by rewrite !fetch_candidates_negative by lia.
    + rewrite !fetch_candidates_pool by done. by apply Hpool.
  - destruct (Z_lt_le_dec 1 (l_nproc L)) as [Hlt|Hge].
    + rewrite !pileup_genome_pool by done. by apply Hpool.
    + by rewrite !pileup_genome_caller by done.
Qed.

(** C8, as the code has it.  In the whole-genome mode with at most one
    process the tasks run on the caller, one after the other in the order
    of the chromosomes, and no pool is created.  When none of them fails
    and the tasks are pairwise independent, the run through a pool of more
    than one process, whatever the order in which its workers complete,
    leaves the same temporary files, calls the merge primitive with the
    same arguments on the same files, and so ends with the same result
    and the same files.  The targeted mode goes through a pool for every
    number of processes: with one process it creates a pool of one worker
    and submits its only task to it. *)
Theorem one_process_runs_on_caller sched L n' fs ds :
  l_nproc L ≤ 1 → 1 < n' →
  let w := {| files := fs; dirs := ds; log := [] |} in
  let r := dispatch_merge sched L None w in
  let r' := dispatch_merge sched (set_nproc n' L) None w in
  (pools (log r.2) = [] ∧
   Forall (λ e, match e with EvApplyAsync _ => False | _ => True end)
     (log r.2) ∧
   completed (log r.2) = dispatched (log r.2) ∧
   (pairwise_independent (pileup_tasks L (l_chrom_all L)) →
    failures (log r.2) = [] →
    files (pileup_genome sched L (l_chrom_all L) w).2
    = files (pileup_genome sched (set_nproc n' L) (l_chrom_all L) w).2 ∧
    merges (log r.2) = merges (log r'.2) ∧
    r.1 = r'.1 ∧
    files r.2 = files r'.2)) ∧
  (∀ vcf,
     let rt := fetch_candidates sched (set_nproc 1 L) vcf w in
     pools (log rt.2) = [1] ∧
     dispatched (log rt.2) = fetch_tasks (set_nproc 1 L) vcf ∧
     length (dispatched (log rt.2)) = 1%nat).
Proof.
  intros Hn Hn' w r r'. split; cycle 1.
  { intros vcf rt.
    destruct (fetch_candidates_dispatched sched (set_nproc 1 L) vcf fs ds)
      as [Hd Hp]; [done|].
    fold w rt in Hd, Hp. by rewrite Hd, Hp, length_fetch_tasks. }
  subst r r'. unfold dispatch_merge.
  change (l_chrom_all (set_nproc n' L)) with (l_chrom_all L).
  change (l_out_file (set_nproc n' L)) with (l_out_file L).
  rewrite !bind_eq, pileup_genome_caller by done.
  set (ts := pileup_tasks L (l_chrom_all L)).
  destruct (calls_spec ts w)
    as (evs & err & Hcalls & Hev & Hpre & Hcd & Hok & _ & Hnone).
  rewrite Hcalls. subst w. cbn [files dirs log app] in *.
  destruct err as [e|]; cbn [fst snd log].
  - split; [by apply caller_pools|]. split.
    { eapply Forall_impl; [exact Hev|]. by intros []. }
    split; [done|]. intros _ Hf. by specialize (Hnone Hf).
  - destruct (Hok eq_refl) as [Hd Hf].
    unfold add_log. cbn [files dirs log].
    rewrite !bind_eq, !emit_eq. unfold external, add_log.
    cbn [files dirs log].
    destruct (merge_vcf (l_out_file L) _ (replay fs (completed evs)))
      as [fs2 o] eqn:Hmerge.
    assert (∀ (x : res unit * world) fs3,
              x = match o with
                  | Returned a => (Ok a, fs3)
                  | Failed e => (Raise e, fs3)
                  end → log x.2 = log fs3) as Hlog.
    { intros x fs3 ->. by destruct o. }
    set (lg := (evs ++ [EvPrint "";
                  EvPrint "[cellSNP] Whole genome pileupped, now merging all variants ..."])
                 ++ [EvMerge (l_out_file L)
                       (chr_out_file (l_out_file L) <$> l_chrom_all L)]).
    assert (pools lg = []) as Hpools.
    { unfold lg. rewrite !pools_app, (caller_pools evs) by done. done. }
    assert (completed lg = completed evs ∧ dispatched lg = dispatched evs
            ∧ failures lg = failures evs
            ∧ merges lg = [(l_out_file L,
                            chr_out_file (l_out_file L) <$> l_chrom_all L)])
      as (Hc & Hdl & Hfl & Hml).
    { unfold lg.
      rewrite !completed_app, !dispatched_app, !failures_app, !merges_app,
        (caller_merges evs) by done.
      cbn. by rewrite !app_nil_r. }
    assert (Forall (λ e, match e with EvApplyAsync _ => False | _ => True end) lg)
      as Hno.
    { unfold lg. rewrite !Forall_app. split; [split|].
      - eapply Forall_impl; [exact Hev|]. by intros [].
      - by repeat constructor.
      - by repeat constructor. }
    destruct o as [[]|e]; cbn [fst snd log files] in *; fold lg.
    all: split; [done|]; split; [done|]; split; [congruence|].
    all: intros Hind _.
    all: destruct (genome_caller_then_pool sched L n' (l_chrom_all L) _ _
                Hn' Hind Hcalls) as (vs & w' & Hpool & Hfw & Hmw & _).
    all: rewrite Hpool; cbn [fst snd files] in *.
    all: rewrite !bind_eq, emit_eq; unfold external, add_log;
      cbn [files dirs log]; rewrite Hfw, Hmerge; cbn [fst snd files log].
    all: rewrite merges_app, Hmw, Hml; done.
Qed.

End Schedule.

(** ** The instance *)

(** In the instance two tasks with different outputs are independent, and
    a task changes no file but its output. *)
Lemma demo_independent bad vcf (t1 t2 : task) :
  task_out t1 ≠ task_out t2 → @independent unit (demo_utils bad vcf) t1 t2.
Proof.
  intros Hne fs.
  destruct t1 as [a1|a1], t2 as [a2|a2]; cbn in Hne |- *;
    unfold demo_pileup, demo_fetch; repeat case_bool_decide; cbn;
    (split; [|done]); try done; by apply insert_insert_ne.
Qed.

Lemma demo_writes_own_output bad vcf (t : task) :
  @writes_own_output unit (demo_utils bad vcf) t.
Proof.
  intros fs p Hp. destruct t as [a|a]; cbn in Hp |- *;
    unfold demo_pileup, demo_fetch; repeat case_bool_decide; cbn;
    try done; by apply lookup_insert_ne.
Qed.

(** With engines that read their alignment file, two tasks are independent
    when their outputs differ and neither writes the alignment file of the
    other; so the tasks of a job are, as soon as their outputs are distinct
    and none is the alignment file of a task. *)
Lemma reading_independent vcf (t1 t2 : task) :
  task_out t1 ≠ task_out t2 →
  task_sam_file t1 ≠ task_out t2 → task_sam_file t2 ≠ task_out t1 →
  @independent unit (reading_utils vcf) t1 t2.
Proof.
  intros Hne H12 H21 fs.
  destruct t1 as [a1|a1], t2 as [a2|a2]; cbn in Hne, H12, H21 |- *;
    unfold reading_pileup, reading_fetch; cbn [fst snd];
    rewrite !lookup_insert_ne by done;
    (split; [|done]); by apply insert_insert_ne.
Qed.

Lemma reading_pairwise_independent vcf (ts : list task) :
  NoDup (task_out <$> ts) →
  Forall (λ t, Forall (λ t', task_sam_file t ≠ task_out t') ts) ts →
  @pairwise_independent unit (reading_utils vcf) ts.
Proof.
  intros Hnd Hsam i j ti tj Hij Hi Hj.
  rewrite Forall_forall in Hsam.
  pose proof (Hsam ti (list_elem_of_lookup_2 _ _ _ Hi)) as Hti.
  pose proof (Hsam tj (list_elem_of_lookup_2 _ _ _ Hj)) as Htj.
  rewrite Forall_forall in Hti, Htj.
  apply reading_independent.
  - intros Heq. apply Hij.
    eapply (NoDup_lookup (task_out <$> ts)); [done| |].
    + by rewrite list_lookup_fmap, Hi.
    + by rewrite list_lookup_fmap, Hj, Heq.
  - apply Hti. by eapply list_elem_of_lookup_2.
  - apply Htj. by eapply list_elem_of_lookup_2.
Qed.

(** Such engines are not independent on all tasks: a task that writes the
    alignment file of another changes what the other reads. *)
Example reading_engines_interfere vcf :
  ¬ ∀ t1 t2, task_out t1 ≠ task_out t2 →
             @independent unit (reading_utils vcf) t1 t2.
Proof.
  intros Hall.
  set (L1 := demo_locals [] 1).
  set (t1 := pileup_task L1 "/d/in2.sam" "1").
  set (t2 := pileup_task
               (set_nproc 1 {| l_barcodes := None; l_sam_file := "/d/in2.sam";
                               l_out_file := "/d/out.vcf";
                               l_cell_tag := None; l_UMI_tag := None;
                               l_chrom_all := []; l_nproc := 1;
                               l_min_MAF := 0%Q; l_min_LEN := 0;
                               l_min_MAPQ := 0; l_max_FLAG := 0;
                               l_min_COUNT := 0 |})
               "/d/out2" "2").
  destruct (Hall t1 t2) with (fs := demo_files) as (Hf & _); [discriminate|].
  apply (f_equal (λ m : gmap string (list string), m !! "/d/out2")) in Hf.
  vm_compute in Hf. discriminate Hf.
Qed.

(** Four chromosomes and four processes whose workers complete in the
    order 3, 2, 1, 0; the engine fails on chromosome 2.  No merge, the run
    ends with the exception of that task, and there is no final file. *)
Lemma failed_task_no_merge_no_cleanup_witness :
  let r := @run unit (demo_utils ["2"] (demo_vcf 0)) ["-s"]
             (with_nproc 4 (with_chrom "1,2,3,4" demo_options))
             [3; 2; 1; 0]%nat demo_files demo_dirs in
  failures (log r.2) ≠ [] ∧ merges (log r.2) = [] ∧
  r.1 = Raise (EngineError "2") ∧
  files r.2 !! "/d/out.vcf" = None.
Proof.
  intros r.
  assert (failures (log r.2) ≠ []) as Hfail by (vm_compute; discriminate).
  split; [done|].
  destruct (@failed_task_no_merge_no_cleanup unit
              (demo_utils ["2"] (demo_vcf 0)) ["-s"]
              (with_nproc 4 (with_chrom "1,2,3,4" demo_options))
              [3; 2; 1; 0]%nat demo_files demo_dirs Hfail)
    as (Hm & _ & _ & Hframe).
  split; [exact Hm|]. split; [vm_compute; reflexivity|].
  fold r in Hframe.
  rewrite (Hframe (demo_writes_own_output _ _) "/d/out.vcf" eq_refl).
  reflexivity.
Defined.

(** ** The claims on whole runs *)

Section Runs.
Context {RV : Type} `{!Utils RV}.

(** C5.  Take two runs of the same job that differ only in the order in
    which the workers complete their tasks.  Both hand over the same
    tasks in the same order; the list of partial paths that a run gives to
    the merge primitive is the list of the outputs of the tasks in the
    order of the hand-over; so both runs, when they reach the merge, call
    it with the same final path and the same list of paths.  When
    moreover the tasks of the job are independent of one another (each
    may read what it likes, the alignment file included, as long as no
    task of the job changes what another task of the job reads or
    writes), the two runs end with the same result and the same files:
    the merged output does not depend on the order of completion. *)
Theorem merge_order_is_dispatch_order argv options fs ds sched1 sched2 :
  let r1 := run argv options sched1 fs ds in
  let r2 := run argv options sched2 fs ds in
  dispatched (log r1.2) = dispatched (log r2.2) ∧
  (∀ out parts, (out, parts) ∈ merges (log r1.2) →
     parts = task_out <$> dispatched (log r1.2) ∧ out_file options = Some out) ∧
  (∀ m1 m2, m1 ∈ merges (log r1.2) → m2 ∈ merges (log r2.2) → m1 = m2) ∧
  ((∀ L region w1,
      configure argv options {| files := fs; dirs := ds; log := [] |}
      = (Ok (L, region), w1) →
      pairwise_independent (job_tasks L region)) →
   r1.1 = r2.1 ∧ files r1.2 = files r2.2).
Proof.
  intros r1 r2.
  destruct (merge_arguments argv options fs ds sched1 sched2)
    as (Hd & Hm & Heq).
  split; [exact Hd|]. split; [exact Hm|]. split; [exact Heq|].
  intros Hind. subst r1 r2. unfold run, main. rewrite !bind_eq.
  destruct (configure argv options _) as [[[L region]|c|e] w1] eqn:Hconf;
    [|done..].
  rewrite !bind_eq.
  destruct (dispatch_merge_schedule sched1 sched2 L region w1) as [Hr Hf].
  { by eapply Hind. }
  destruct (dispatch_merge sched1 L region w1) as [r1 w2].
  destruct (dispatch_merge sched2 L region w1) as [r2 w2'].
  cbn [fst snd] in Hr, Hf. subst r2.
  destruct r1 as [[]|c|e]; [|done..].
  rewrite !emit_eq. unfold add_log. cbn [fst snd files]. done.
Qed.

End Runs.

(** Three chromosomes and three processes, with engines that read the
    alignment file; the workers complete in the order of submission in one
    run and in the reverse order in the other.  The completions are
    reversed, and yet both runs call the merge with the three paths in the
    order of the chromosomes, and leave the same merged file. *)
Lemma merge_order_is_dispatch_order_witness :
  let options := with_nproc 3 (with_chrom "1,2,X" demo_options) in
  let r1 := @run unit (reading_utils (demo_vcf 0)) ["-s"] options
              [0; 1; 2]%nat demo_files demo_dirs in
  let r2 := @run unit (reading_utils (demo_vcf 0)) ["-s"] options
              [2; 1; 0]%nat demo_files demo_dirs in
  completed (log r1.2) = reverse (completed (log r2.2)) ∧
  merges (log r2.2)
  = [("/d/out.vcf", ["/d/out.vcf.temp_1_"; "/d/out.vcf.temp_2_";
                     "/d/out.vcf.temp_X_"])] ∧
  merges (log r1.2) = merges (log r2.2) ∧
  files r1.2 = files r2.2 ∧
  files r2.2 !! "/d/out.vcf"
  = Some ["#CHROM POS"; "chr1 reads"; "chr2 reads"; "chrX reads"].
Proof.
  intros options r1 r2.
  destruct (@merge_order_is_dispatch_order unit (reading_utils (demo_vcf 0))
              ["-s"] options demo_files demo_dirs [0; 1; 2]%nat [2; 1; 0]%nat)
    as (_ & _ & Hm & Hind).
  fold r1 r2 in Hm, Hind.
  assert (merges (log r2.2)
          = [("/d/out.vcf", ["/d/out.vcf.temp_1_"; "/d/out.vcf.temp_2_";
                             "/d/out.vcf.temp_X_"])]) as Hm2
    by (vm_compute; reflexivity).
  split; [vm_compute; reflexivity|]. split; [exact Hm2|]. split.
  - assert (∃ m1, merges (log r1.2) = [m1]) as [m1 Hm1]
      by (eexists; vm_compute; reflexivity).
    rewrite Hm1, Hm2. f_equal. apply Hm.
    + rewrite Hm1. by left.
    + rewrite Hm2. by left.
  - split; [|vm_compute; reflexivity].
    apply Hind. intros L region w1 Hconf.
    vm_compute in Hconf. injection Hconf as <- <- _.
    apply reading_pairwise_independent;
      apply (bool_decide_unpack _); vm_compute; exact I.
Defined.

(** C8 as stated fails twice.  In the targeted mode a pool is created also
    for one process, and the only task is submitted to it.  And in the
    whole-genome mode, when the engine fails on chromosome 2 of 1, 2, 3, the
    run on the caller stops there and leaves no file for chromosome 3, while
    the run through a pool leaves one. *)
Lemma one_process_not_always_on_caller :
  let targeted :=
    @run unit (demo_utils [] (demo_vcf 4)) ["-s"]
      (with_nproc 1 (with_region (Some "/d/cand.vcf") demo_options))
      [] demo_files demo_dirs in
  let on_caller :=
    @run unit (demo_utils ["2"] (demo_vcf 0)) ["-s"]
      (with_nproc 1 (with_chrom "1,2,3" demo_options))
      [] demo_files demo_dirs in
  let pooled :=
    @run unit (demo_utils ["2"] (demo_vcf 0)) ["-s"]
      (with_nproc 2 (with_chrom "1,2,3" demo_options))
      [0; 1; 2]%nat demo_files demo_dirs in
  pools (log targeted.2) ≠ [] ∧
  files on_caller.2 ≠ files pooled.2.
Proof.
  intros targeted on_caller pooled. split.
  - assert (pools (log targeted.2) = [1]) as -> by (vm_compute; reflexivity).
    discriminate.
  - intros Heq.
    apply (f_equal (λ m : gmap string (list string), m !! "/d/out.vcf.temp_3_"))
      in Heq.
    vm_compute in Heq. discriminate Heq.
Qed.

(** Three chromosomes: one process on the caller against three processes
    whose workers complete in the order 2, 0, 1. *)
Lemma one_process_runs_on_caller_witness :
  let L := demo_locals ["1"; "2"; "3"] 1 in
  let w := {| files := demo_files; dirs := demo_dirs; log := [] |} in
  let r := @dispatch_merge unit (demo_utils [] (demo_vcf 0)) [2; 0; 1]%nat
             L None w in
  let r' := @dispatch_merge unit (demo_utils [] (demo_vcf 0)) [2; 0; 1]%nat
              (set_nproc 3 L) None w in
  (l_nproc L ≤ 1 ∧ 1 < 3) ∧
  pools (log r.2) = [] ∧ r.1 = r'.1 ∧ files r.2 = files r'.2.
Proof.
  intros L w r r'. split; [split; [vm_compute; discriminate|lia]|].
  destruct (@one_process_runs_on_caller unit (demo_utils [] (demo_vcf 0))
              [2; 0; 1]%nat L 3 demo_files demo_dirs)
    as ((Hp & _ & _ & Hsame) & _); [vm_compute; discriminate|lia|].
  split; [exact Hp|].
  destruct Hsame as (_ & _ & Hr & Hf).
  - apply pairwise_independent_outputs; [apply demo_independent|].
    apply (bool_decide_unpack _). vm_compute. exact I.
  - vm_compute. reflexivity.
  - split; [exact Hr|exact Hf].
Defined.

(** The invocation [-s /d/in.sam -o /d/out.vcf -R None] against
    [-s /d/in.sam -o /d/out.vcf]. *)
Lemma region_none_is_whole_genome_witness :
  let options := with_region (Some "None") (with_chrom "1,2" demo_options) in
  let r := @run unit (demo_utils [] (demo_vcf 0))
             ["-s"; "/d/in.sam"; "-o"; "/d/out.vcf"; "-R"; "None"] options
             [] demo_files demo_dirs in
  (region_file options = Some "None") ∧
  r = @run unit (demo_utils [] (demo_vcf 0))
        ["-s"; "/d/in.sam"; "-o"; "/d/out.vcf"] (with_region None options)
        [] demo_files demo_dirs ∧
  parses (log r.2) = [] ∧
  isfile_checks (log r.2) = ["/d/in.sam"].
Proof.
  intros options r. split; [reflexivity|].
  destruct (@region_none_is_whole_genome unit (demo_utils [] (demo_vcf 0))
              ["-s"; "/d/in.sam"; "-o"; "/d/out.vcf"; "-R"; "None"]
              ["-s"; "/d/in.sam"; "-o"; "/d/out.vcf"] options
              [] demo_files demo_dirs) as (Heq & Hp & _);
    [discriminate|discriminate|reflexivity|].
  split; [exact Heq|]. split; [exact Hp|]. vm_compute. reflexivity.
Defined.

(** C6 as stated fails: with one process and an engine that fails on
    chromosome 2 of 1, 2, 3, the run hands over the tasks of the
    chromosomes 1 and 2, and none for chromosome 3. *)
Lemma whole_genome_chromosome_without_task :
  let options := with_nproc 1 (with_chrom "1,2,3" demo_options) in
  let r := @run unit (demo_utils ["2"] (demo_vcf 0)) ["-s"] options
             [] demo_files demo_dirs in
  chrom_all_of (chrom_all options) = ["1"; "2"; "3"] ∧
  ¬ (task_key <$> dispatched (log r.2)
     = Some <$> chrom_all_of (chrom_all options)) ∧
  Some "3" ∉ task_key <$> dispatched (log r.2).
Proof.
  intros options r.
  assert (task_key <$> dispatched (log r.2) = [Some "1"; Some "2"]) as ->
      by (vm_compute; reflexivity).
  split; [reflexivity|]. split; [discriminate|].
  apply (bool_decide_unpack _). vm_compute. exact I.
Qed.

(** The chromosomes 1, 2 and X on the caller. *)
Lemma whole_genome_one_task_per_chromosome_witness :
  let r := @pileup_genome unit (demo_utils [] (demo_vcf 0)) []
             (demo_locals ["1"; "2"; "X"] 1) ["1"; "2"; "X"]
             {| files := demo_files; dirs := demo_dirs; log := [] |} in
  failures (log r.2) = [] ∧
  task_key <$> dispatched (log r.2) = [Some "1"; Some "2"; Some "X"].
Proof.
  intros r.
  assert (failures (log r.2) = []) as Hf by (vm_compute; reflexivity).
  split; [exact Hf|].
  destruct (@whole_genome_one_task_per_chromosome unit
              (demo_utils [] (demo_vcf 0)) [] (demo_locals ["1"; "2"; "X"] 1)
              ["1"; "2"; "X"] demo_files demo_dirs)
    as (Hk & _ & _ & Hall & _).
  fold r in Hall. rewrite Hall by (by right). exact Hk.
Defined.

(** ** The claims on the partition and on the paths *)

Section Partition.
Context {RV : Type} `{!Utils RV}.

(** The sizes of the slices of the loop: [n - 1] times the block width,
    then what is left. *)
Lemma task_slice_sizes {A} (l : list A) (n : Z) :
  1 ≤ n →
  let len := Z.of_nat (length l) in
  let block := Py.int_div len n in
  length <$> (task_slice l block n <$> Py.range n)
  = replicate (Z.to_nat (n - 1)) (Z.to_nat block)
    ++ [Z.to_nat (len - block * (n - 1))].
Proof.
  intros Hn len block.
  destruct (int_div_bounds len n) as [Hb0 Hbn]; [lia..|].
  fold block in Hb0, Hbn.
  unfold Py.range. replace n with ((n - 1) + 1) at 2 by lia.
  rewrite seqZ_app by lia. rewrite !fmap_app.
  change (seqZ (0 + (n - 1)) 1) with [0 + (n - 1)]. cbn [fmap list_fmap].
  f_equal.
  - symmetry. apply replicate_as_Forall. split.
    + by rewrite !length_fmap, length_seqZ.
    + rewrite !Forall_fmap. apply Forall_seqZ. intros ii Hii. cbn.
      rewrite task_slice_inner by lia.
      rewrite length_take, length_drop.
      assert (Z.of_nat (Z.to_nat block * Z.to_nat ii + Z.to_nat block)
              ≤ Z.of_nat (length l)) as Hle.
      { rewrite Nat2Z.inj_add, Nat2Z.inj_mul, !Z2Nat.id by lia. subst len. nia. }
      lia.
  - rewrite Z.add_0_l, task_slice_last by lia. rewrite length_drop. f_equal.
    assert (Z.of_nat (Z.to_nat block * Z.to_nat (n - 1)) = block * (n - 1))
      as Heq by (rewrite Nat2Z.inj_mul, !Z2Nat.id by lia; done).
    subst len. nia.
Qed.

(** C1.  In the targeted mode, for every number [len] of candidates and
    every number [n >= 1] of workers, the index ranges of the [n] tasks,
    concatenated in task order, are exactly [0, len): every index once, none
    missing.  And so for what a run hands over: the branch submits [n]
    tasks, and the slices of the position list and of the chromosome list
    that they carry concatenate, in the order of submission, to the two
    lists. *)
Theorem targeted_ranges_partition (len n : Z) :
  0 ≤ len → 1 ≤ n →
  concat (task_range len n <$> Py.range n) = seqZ 0 len ∧
  NoDup (concat (task_range len n <$> Py.range n)) ∧
  ∀ sched (L : locals) (vcf : vcf_RV) fs ds,
    l_nproc L = n →
    Z.of_nat (length (vcf_chrom vcf)) = len →
    let r := fetch_candidates sched L vcf
               {| files := fs; dirs := ds; log := [] |} in
    length (dispatched (log r.2)) = Z.to_nat n ∧
    concat (task_pos <$> dispatched (log r.2)) = vcf_pos vcf ∧
    concat (task_chrom <$> dispatched (log r.2)) = vcf_chrom vcf.
Proof.
  intros Hlen Hn.
  destruct (int_div_bounds len n) as [Hb0 _]; [done..|].
  assert (concat (task_range len n <$> Py.range n) = seqZ 0 len) as Hidx.
  { unfold task_range. by apply task_slices_concat. }
  split; [done|]. split.
  - rewrite Hidx. apply NoDup_seqZ.
  - intros sched L vcf fs ds <- Hl r.
    destruct (fetch_candidates_dispatched sched L vcf fs ds Hn) as [Hd _].
    fold r in Hd. rewrite Hd, length_fetch_tasks.
    rewrite fetch_tasks_pos, fetch_tasks_chrom, Hl.
    split; [done|]. split; by apply task_slices_concat.
Qed.

(** C4.  With [len] candidates and [n >= 1] workers the block width is
    [floor(len / n)]; each of the tasks [0 .. n-2] gets exactly the [block]
    consecutive indices from [block * ii] on, the last task gets
    [block * (n-1) .. len); no range leaves [0, len) and none is longer than
    [len]; the slices that a run hands over have these sizes.  For 10
    candidates and 3 workers the sizes are 3, 3, 4; for 2 candidates and 5
    workers they are 0, 0, 0, 0, 2. *)
Theorem targeted_block_sizes (len n : Z) :
  0 ≤ len → 1 ≤ n →
  let block := Py.int_div len n in
  block = len `div` n ∧
  (∀ ii, 0 ≤ ii < n - 1 →
     task_range len n ii = seqZ (block * ii) block ∧
     Z.of_nat (length (task_range len n ii)) = block) ∧
  (task_range len n (n - 1) = seqZ (block * (n - 1)) (len - block * (n - 1)) ∧
   Z.of_nat (length (task_range len n (n - 1))) = len - block * (n - 1) ∧
   block ≤ len - block * (n - 1)) ∧
  (∀ ii, 0 ≤ ii < n →
     Forall (λ i, 0 ≤ i < len) (task_range len n ii) ∧
     0 ≤ Z.of_nat (length (task_range len n ii)) ≤ len) ∧
  (∀ sched (L : locals) (vcf : vcf_RV) fs ds,
     l_nproc L = n →
     Z.of_nat (length (vcf_chrom vcf)) = len →
     length (vcf_pos vcf) = length (vcf_chrom vcf) →
     let r := fetch_candidates sched L vcf
                {| files := fs; dirs := ds; log := [] |} in
     length <$> (task_pos <$> dispatched (log r.2))
     = replicate (Z.to_nat (n - 1)) (Z.to_nat block)
       ++ [Z.to_nat (len - block * (n - 1))]) ∧
  length <$> (task_range 10 3 <$> Py.range 3) = [3; 3; 4]%nat ∧
  length <$> (task_range 2 5 <$> Py.range 5) = [0; 0; 0; 0; 2]%nat.
Proof.
  intros Hlen Hn block.
  destruct (int_div_bounds len n) as [Hb0 Hbn]; [done..|].
  fold block in Hb0, Hbn.
  split; [by apply int_div_floor|]. split; [|split; [|split; [|split]]].
  - intros ii Hii. rewrite task_range_inner by lia. fold block.
    split; [done|]. rewrite length_seqZ. lia.
  - rewrite task_range_last by lia. fold block.
    split; [done|]. rewrite length_seqZ. split; nia.
  - intros ii Hii. destruct (decide (ii = n - 1)) as [->|Hne].
    + rewrite task_range_last by lia. fold block. split.
      * apply Forall_seqZ. intros i Hi. nia.
      * rewrite length_seqZ. nia.
    + rewrite task_range_inner by lia. fold block. split.
      * apply Forall_seqZ. intros i Hi. nia.
      * rewrite length_seqZ. nia.
  - intros sched L vcf fs ds <- Hl Hpos r.
    destruct (fetch_candidates_dispatched sched L vcf fs ds Hn) as [Hd _].
    fold r in Hd. rewrite Hd, fetch_tasks_pos, Hl.
    pose proof (task_slice_sizes (vcf_pos vcf) (l_nproc L) Hn) as Hsizes.
    cbv zeta in Hsizes. rewrite Hpos, Hl in Hsizes. exact Hsizes.
  - split; reflexivity.
Qed.


End Partition.

(** Ten candidates and three workers. *)
Lemma targeted_ranges_partition_witness :
  (0 ≤ 10 ∧ 1 ≤ 3) ∧
  concat (task_range 10 3 <$> Py.range 3) = seqZ 0 10 ∧
  concat (task_pos <$> dispatched
            (log (@fetch_candidates unit (demo_utils [] (demo_vcf 10))
                    [2; 0]%nat (demo_locals [] 3) (demo_vcf 10)
                    {| files := demo_files; dirs := demo_dirs; log := [] |}).2))
  = vcf_pos (demo_vcf 10).
Proof.
  split; [lia|].
  destruct (@targeted_ranges_partition unit (demo_utils [] (demo_vcf 10)) 10 3)
    as (Hidx & _ & Htasks); [lia..|].
  split; [exact Hidx|].
  by apply (Htasks [2; 0]%nat (demo_locals [] 3) (demo_vcf 10)
              demo_files demo_dirs).
Defined.

(** Two candidates and five workers: the block is empty and the last task
    takes both candidates. *)
Lemma targeted_block_sizes_witness :
  (0 ≤ 2 ∧ 1 ≤ 5) ∧
  Py.int_div 2 5 = 0 ∧
  task_range 2 5 0 = [] ∧
  task_range 2 5 (5 - 1) = [0; 1] ∧
  length <$> (task_pos <$> dispatched
                (log (@fetch_candidates unit (demo_utils [] (demo_vcf 2))
                        [] (demo_locals [] 5) (demo_vcf 2)
                        {| files := demo_files; dirs := demo_dirs; log := [] |}).2))
  = [0; 0; 0; 0; 2]%nat.
Proof.
  split; [lia|].
  destruct (@targeted_block_sizes unit (demo_utils [] (demo_vcf 2)) 2 5)
    as (Hblock & Hinner & (Hlast & _) & _ & Hrun & _); [lia..|].
  split; [rewrite Hblock; reflexivity|].
  split; [destruct (Hinner 0) as [-> _]; [lia|reflexivity]|].
  split; [rewrite Hlast; reflexivity|].
  rewrite (Hrun [] (demo_locals [] 5) (demo_vcf 2) demo_files demo_dirs)
    by reflexivity.
  reflexivity.
Defined.


(** * The rest of [main]

    Properties of the code that the claims above leave aside: the checks of
    the arguments, what the tasks are given, and how a run ends. *)

(** ** The tags *)

Ltac ascii_cases c :=
  destruct c as [[] [] [] [] [] [] [] []]; vm_compute;
  (split;
   [ intros H; first [discriminate H | by left | by right]
   | intros [H|H]; first [discriminate H | reflexivity] ]).

Lemma upper_char_N c : Py.upper_char c = "N"%char ↔ c = "n"%char ∨ c = "N"%char.
Proof. ascii_cases c. Qed.

Lemma upper_char_O c : Py.upper_char c = "O"%char ↔ c = "o"%char ∨ c = "O"%char.
Proof. ascii_cases c. Qed.

Lemma upper_char_E c : Py.upper_char c = "E"%char ↔ c = "e"%char ∨ c = "E"%char.
Proof. ascii_cases c. Qed.

(** A tag is switched off exactly by the sixteen spellings of ["none"] in
    upper and lower case, and any other tag is kept as it was given, its
    case included. *)
Theorem tag_none_spellings (s : string) :
  (tag_of s = None ↔
   ∃ a b c d,
     s = String a (String b (String c (String d ""))) ∧
     (a = "n" ∨ a = "N")%char ∧ (b = "o" ∨ b = "O")%char ∧
     (c = "n" ∨ c = "N")%char ∧ (d = "e" ∨ d = "E")%char) ∧
  (∀ t, tag_of s = Some t → t = s).
Proof.
  unfold tag_of. split; [|intros t; by destruct (decide _); [|intros [= <-]]].
  destruct (decide (Py.upper s = "NONE")) as [Hu|Hu]; split; try done.
  - intros _.
    destruct s as [|a [|b [|c [|d [|]]]]]; cbn in Hu; try discriminate Hu.
    injection Hu as Ha Hb Hc Hd.
    exists a, b, c, d. split; [done|].
    rewrite <-!upper_char_N, <-upper_char_O, <-upper_char_E. auto.
  - intros (a & b & c & d & -> & Ha & Hb & Hc & Hd). exfalso. apply Hu.
    apply upper_char_N in Ha, Hc. apply upper_char_O in Hb.
    apply upper_char_E in Hd. cbn. by rewrite Ha, Hb, Hc, Hd.
Qed.

(** ** The list of chromosomes *)

Lemma split_cons (sep c : ascii) (s : string) :
  Py.split sep (String c s)
  = if decide (c = sep) then "" :: Py.split sep s
    else match Py.split sep s with
         | w :: ws => String c w :: ws
         | [] => [String c ""]
         end.
Proof. reflexivity. Qed.

Lemma concat_cons (sep x y : string) (l : list string) :
  String.concat sep (x :: y :: l) = x +:+ sep +:+ String.concat sep (y :: l).
Proof. reflexivity. Qed.

Lemma split_join (sep : ascii) (s : string) :
  String.concat (String sep "") (Py.split sep s) = s.
Proof.
  induction s as [|c s IH]; [done|].
  rewrite split_cons.
  destruct (split_head sep s) as (w & ws & Hs & _).
  rewrite Hs in IH |- *.
  destruct (decide (c = sep)) as [->|Hc].
  - by rewrite concat_cons, IH.
  - destruct ws as [|w' ws].
    + cbn in IH |- *. by rewrite IH.
    + rewrite concat_cons in IH |- *. by rewrite app_cons, IH.
Qed.

Lemma split_length (sep : ascii) (s : string) :
  length (Py.split sep s)
  = S (length (filter (λ c, c = sep) (list_ascii_of_string s))).
Proof.
  induction s as [|c s IH]; [done|].
  rewrite split_cons. cbn [list_ascii_of_string].
  destruct (split_head sep s) as (w & ws & Hs & _).
  rewrite Hs in IH |- *.
  destruct (decide (c = sep)) as [->|Hc].
  - rewrite filter_cons_True by done. cbn [length] in IH |- *. lia.
  - rewrite filter_cons_False by done. destruct ws; cbn [length] in IH |- *; lia.
Qed.

Lemma split_no_sep (sep : ascii) (s : string) :
  Forall (λ w, sep ∉ list_ascii_of_string w) (Py.split sep s).
Proof.
  induction s as [|c s IH].
  - repeat constructor. apply not_elem_of_nil.
  - rewrite split_cons. destruct (decide (c = sep)) as [->|Hc].
    + constructor; [apply not_elem_of_nil|done].
    + destruct (Py.split sep s) as [|w ws].
      * repeat constructor. cbn. rewrite not_elem_of_cons.
        split; [congruence|apply not_elem_of_nil].
      * apply Forall_cons in IH as [Hw Hws]. constructor; [|done].
        cbn. rewrite not_elem_of_cons. split; [congruence|done].
Qed.

(** The value of [--chrom] is cut at every comma and nowhere else: the
    pieces joined by commas give the value back, no piece holds a comma,
    and there is one piece more than there are commas.  So nothing is
    dropped: the empty value gives one chromosome with the empty name. *)
Theorem chrom_option_split (s : string) :
  let cs := chrom_all_of (Some s) in
  String.concat "," cs = s ∧
  Forall (λ c, ","%char ∉ list_ascii_of_string c) cs ∧
  length cs = S (length (filter (λ c, c = ","%char) (list_ascii_of_string s))) ∧
  chrom_all_of (Some "") = [""].
Proof.
  cbv zeta. unfold chrom_all_of.
  split; [apply split_join|]. split; [apply split_no_sep|].
  split; [apply split_length|done].
Qed.

(** ** Blank lines in the barcode file *)

Lemma rstrip_blank (x : string) :
  (∀ c, c ∈ list_ascii_of_string x → Py.isspace c = true) → Py.rstrip x = "".
Proof.
  induction x as [|c x IH]; intros Hx; [done|].
  cbn [Py.rstrip]. rewrite IH.
  - rewrite Hx; [done|]. cbn. by left.
  - intros c' Hc'. apply Hx. cbn. by right.
Qed.

Lemma string_le_empty (s : string) : String.le s "" → s = "".
Proof. by destruct s. Qed.

(** A line of the barcode file that holds nothing but whitespace gives
    the empty barcode, which is then the first of the sorted list. *)
Theorem blank_line_empty_barcode (lines : list string) (x : string) :
  x ∈ lines →
  (∀ c, c ∈ list_ascii_of_string x → Py.isspace c = true) →
  first_segment x = "" ∧
  head (barcodes_of_lines lines) = Some "".
Proof.
  intros Hx Hblank.
  assert (first_segment x = "") as Hseg.
  { unfold first_segment. by rewrite rstrip_blank. }
  split; [done|].
  assert ("" ∈ barcodes_of_lines lines) as Hin.
  { unfold barcodes_of_lines. rewrite sorted_Permutation.
    apply list_elem_of_fmap. by exists x. }
  pose proof (sorted_Sorted (first_segment <$> lines)) as Hs.
  fold (barcodes_of_lines lines) in Hs.
  destruct (barcodes_of_lines lines) as [|b bs]; [by apply elem_of_nil in Hin|].
  cbn. f_equal.
  apply Sorted_StronglySorted in Hs; [|apply _].
  apply StronglySorted_inv in Hs as [_ Hall].
  apply elem_of_cons in Hin as [<-|Hin]; [done|].
  rewrite Forall_forall in Hall. apply string_le_empty, Hall. done.
Qed.

(** ** The directory of a path *)

Lemma no_slash_cons c s : no_slash (String c s) ↔ c ≠ "/"%char ∧ no_slash s.
Proof.
  unfold no_slash. cbn. rewrite not_elem_of_cons. split; intros []; split; congruence.
Qed.

Lemma no_slash_app s t : no_slash (s +:+ t) ↔ no_slash s ∧ no_slash t.
Proof.
  induction s as [|c s IH].
  - change ("" +:+ t) with t. split; [|by intros []].
    intros Ht. split; [apply not_elem_of_nil|done].
  - rewrite app_cons, !no_slash_cons, IH. tauto.
Qed.

Lemma upto_last_slash_bare s : no_slash s → Py.upto_last_slash s = "".
Proof.
  induction s as [|c s IH]; [done|].
  rewrite no_slash_cons. intros [Hc Hs].
  cbn [Py.upto_last_slash]. rewrite IH by done.
  by destruct (decide (c = "/"%char)).
Qed.

Lemma upto_last_slash_app p s :
  no_slash s → Py.upto_last_slash (p +:+ s) = Py.upto_last_slash p.
Proof.
  intros Hs. induction p as [|c p IH].
  - change ("" +:+ s) with s. by rewrite upto_last_slash_bare.
  - rewrite app_cons. cbn [Py.upto_last_slash]. by rewrite IH.
Qed.

Lemma dirname_app p s : no_slash s → Py.dirname (p +:+ s) = Py.dirname p.
Proof. intros Hs. unfold Py.dirname. by rewrite upto_last_slash_app. Qed.

Lemma dirname_no_slash s : no_slash s → Py.dirname s = "".
Proof. intros Hs. unfold Py.dirname. by rewrite upto_last_slash_bare. Qed.

Lemma upto_last_slash_dir d :
  Py.upto_last_slash (d +:+ "/") = d +:+ "/".
Proof.
  induction d as [|c d IH]; [done|].
  rewrite app_cons. cbn [Py.upto_last_slash]. rewrite IH.
  destruct (d +:+ "/") eqn:Hd; [|done].
  by destruct d.
Qed.

Lemma rstrip_char_snoc ch s :
  Py.rstrip_char ch (s +:+ String ch "") = Py.rstrip_char ch s.
Proof.
  induction s as [|c s IH].
  - change ("" +:+ String ch "") with (String ch "").
    cbn [Py.rstrip_char]. by destruct (decide (ch = ch)).
  - rewrite app_cons. cbn [Py.rstrip_char]. by rewrite IH.
Qed.

Lemma rstrip_char_keeps ch s c :
  c ≠ ch → Py.rstrip_char ch (s +:+ String c "") = s +:+ String c "".
Proof.
  intros Hc. induction s as [|a s IH].
  - change ("" +:+ String c "") with (String c "").
    cbn [Py.rstrip_char]. by destruct (decide (c = ch)).
  - rewrite app_cons. cbn [Py.rstrip_char]. rewrite IH.
    destruct (s +:+ String c "") eqn:Hs; [|done]. by destruct s.
Qed.

Lemma all_slashes_app s t :
  Py.all_slashes (s +:+ t) = Py.all_slashes s && Py.all_slashes t.
Proof.
  induction s as [|c s IH]; [done|].
  rewrite app_cons. cbn [Py.all_slashes]. rewrite IH. by rewrite andb_assoc.
Qed.

Lemma string_app_assoc (s t u : string) : s +:+ t +:+ u = (s +:+ t) +:+ u.
Proof. induction s as [|a s IH]; [done|]. by rewrite !app_cons, IH. Qed.

Lemma dirname_dir_base d c base :
  c ≠ "/"%char → no_slash base →
  Py.dirname ((d +:+ String c "") +:+ "/" +:+ base) = d +:+ String c "".
Proof.
  intros Hc Hbase. set (dir := d +:+ String c "").
  rewrite string_app_assoc, dirname_app by done. unfold Py.dirname.
  rewrite upto_last_slash_dir.
  assert (Py.all_slashes (dir +:+ "/") = false) as ->.
  { unfold dir. rewrite !all_slashes_app. cbn.
    rewrite bool_decide_false by done. by rewrite andb_false_r. }
  rewrite bool_decide_false by (by destruct dir).
  cbn [negb andb]. rewrite rstrip_char_snoc. by apply rstrip_char_keeps.
Qed.

(** The digits of an index hold no slash. *)
Lemma pretty_N_go_no_slash (x : N) (s : string) :
  no_slash s → no_slash (pretty_N_go x s).
Proof.
  revert s. induction (N.lt_wf_0 x) as [x _ IH]; intros s Hs.
  assert (x = 0 ∨ 0 < x)%N as [->|?] by lia.
  - by rewrite pretty_N_go_0.
  - rewrite pretty_N_go_step by done. apply IH.
    + by apply N.div_lt.
    + rewrite no_slash_cons. split; [|done].
      unfold pretty_N_char. by repeat case_match.
Qed.

Lemma str_no_slash (n : Z) : no_slash (Py.str n).
Proof.
  assert (∀ x : N, no_slash (pretty x)) as HN.
  { intros x. unfold pretty, pretty_N. case_decide.
    - unfold no_slash. cbn. rewrite not_elem_of_cons. split; [done|apply not_elem_of_nil].
    - apply pretty_N_go_no_slash. apply not_elem_of_nil. }
  unfold Py.str, pretty, pretty_Z. destruct n as [|p|p].
  - unfold no_slash. cbn. rewrite not_elem_of_cons. split; [done|apply not_elem_of_nil].
  - apply HN.
  - apply no_slash_app. split; [|apply HN].
    unfold no_slash. cbn. rewrite not_elem_of_cons. split; [done|apply not_elem_of_nil].
Qed.

(** ** The checks of the arguments, step by step *)

Section CheckSteps.
Context {RV : Type} `{!Utils RV}.

Lemma isfile_eq p w :
  isfile p w = (Ok (bool_decide (is_Some (files w !! p))), add_log w [EvIsFile p]).
Proof. unfold isfile. by monad. Qed.

Lemma isdir_eq p w :
  isdir p w
  = (Ok (negb (bool_decide (p = "")) && bool_decide (p ∈ dirs w)),
     add_log w [EvIsDir p]).
Proof. unfold isdir. by monad. Qed.

Lemma load_barcodes_eq options w :
  load_barcodes options w
  = match barcode_file options with
    | None => (Ok None, w)
    | Some bf =>
        match files w !! bf with
        | None =>
            (Exit 1,
             add_log w [EvIsFile bf;
                        EvPrint ("Error: No such file" +:+ Py.nl +:+ "    -- "
                                 +:+ bf)])
        | Some lines =>
            match read_failure bf lines with
            | Some e => (Raise e, add_log w [EvIsFile bf; EvOpen bf])
            | None =>
                (Ok (Some (barcodes_of_lines lines)),
                 add_log w
                   [EvIsFile bf; EvOpen bf;
                    EvPrint ("[cellSNP] "
                             +:+ Py.str (Z.of_nat
                                           (length (barcodes_of_lines lines)))
                             +:+ " effective cell barcodes are used.")])
            end
        end
    end.
Proof.
  unfold load_barcodes. destruct (barcode_file options) as [bf|]; [|done].
  rewrite bind_eq, isfile_eq.
  destruct (files w !! bf) as [lines|] eqn:Hbf.
  - rewrite bool_decide_true by done. cbn [negb].
    unfold readlines. monad. unfold add_log at 1. cbn [files].
    rewrite Hbf. destruct (read_failure bf lines); by monad.
  - rewrite bool_decide_false by (by intros [? [=]]). cbn [negb]. by monad.
Qed.

Lemma check_sam_file_eq options w :
  check_sam_file options w
  = match sam_file options with
    | None => (Exit 1, add_log w [EvPrint "Error: need samFile for sam file."])
    | Some sf =>
        if bool_decide (is_Some (files w !! sf))
        then (Ok sf, add_log w [EvIsFile sf])
        else (Exit 1,
              add_log w [EvIsFile sf;
                         EvPrint ("Error: No such file" +:+ Py.nl +:+ "    -- "
                                  +:+ sf)])
    end.
Proof.
  unfold check_sam_file. destruct (sam_file options) as [sf|]; [|by monad].
  rewrite bind_eq, isfile_eq. case_bool_decide; cbn [negb]; by monad.
Qed.

Lemma check_out_file_eq options w :
  check_out_file options w
  = match out_file options with
    | None =>
        (Exit 1,
         add_log w [EvPrint "Error: need outFile for output file path and name."])
    | Some f =>
        if negb (bool_decide (Py.dirname f = ""))
           && bool_decide (Py.dirname f ∈ dirs w)
        then (Ok f, add_log w [EvIsDir (Py.dirname f)])
        else (Exit 1,
              add_log w [EvIsDir (Py.dirname f);
                         EvPrint ("Error: No such directory for file" +:+ Py.nl
                                  +:+ " -- " +:+ f)])
    end.
Proof.
  unfold check_out_file. destruct (out_file options) as [f|]; [|by monad].
  rewrite bind_eq, isdir_eq.
  destruct (negb _ && _); cbn [negb]; by monad.
Qed.

Lemma load_regions_eq options w :
  load_regions options w
  = match region_file options with
    | None => (Ok None, w)
    | Some rf =>
        if decide (rf = "None") then (Ok None, w)
        else if bool_decide (is_Some (files w !! rf))
        then match parse_vcf_file rf (files w) with
             | Returned vcf =>
                 (Ok (Some vcf),
                  add_log w
                    [EvIsFile rf; EvParseVcf rf;
                     EvPrint ("[cellSNP] "
                              +:+ Py.str (Z.of_nat (length (vcf_pos vcf)))
                              +:+ " candidate variants to fetch.")])
             | Failed e => (Raise e, add_log w [EvIsFile rf; EvParseVcf rf])
             end
        else (Exit 1,
              add_log w [EvIsFile rf;
                         EvPrint ("Error: No such file" +:+ Py.nl +:+ "    -- "
                                  +:+ rf)])
    end.
Proof.
  unfold load_regions. destruct (region_file options) as [rf|]; [|done].
  destruct (decide (rf = "None")); [done|].
  rewrite bind_eq, isfile_eq. case_bool_decide; cbn [negb]; [|by monad].
  monad. unfold external, add_log. cbn [files dirs log].
  destruct (parse_vcf_file rf (files w)); monad; unfold add_log; cbn [files dirs log];
    by rewrite <-?app_assoc.
Qed.

Lemma files_add_log w evs : files (add_log w evs) = files w.
Proof. reflexivity. Qed.

Lemma dirs_add_log w evs : dirs (add_log w evs) = dirs w.
Proof. reflexivity. Qed.

Lemma log_add_log w evs : log (add_log w evs) = log w ++ evs.
Proof. reflexivity. Qed.

Lemma configure_tail_cases options w bc evs0 :
  Forall is_quiet evs0 →
  let r :=
    (sam_file ← check_sam_file options;
     out_file ← check_out_file options;
     region ← load_regions options;
     mret ({| l_barcodes := bc; l_sam_file := sam_file;
              l_out_file := out_file;
              l_cell_tag := tag_of (cell_tag options);
              l_UMI_tag := tag_of (UMI_tag options);
              l_chrom_all := chrom_all_of (chrom_all options);
              l_nproc := nproc options;
              l_min_MAF := min_MAF options;
              l_min_LEN := min_LEN options;
              l_min_MAPQ := min_MAPQ options;
              l_max_FLAG := max_FLAG options;
              l_min_COUNT := min_COUNT options |}, region))
      (add_log w evs0) in
  (∃ evs msg,
     r = (Exit 1, add_log w (evs ++ [EvPrint msg]))
     ∧ Forall is_quiet evs) ∨
  (∃ rf e evs sf f,
     region_file options = Some rf ∧ rf ≠ "None" ∧
     parse_vcf_file rf (files w) = Failed e ∧
     r = (Raise e, add_log w (evs ++ [EvParseVcf rf]))
     ∧ Forall is_quiet evs ∧
     sam_file options = Some sf ∧ is_Some (files w !! sf) ∧
     out_file options = Some f ∧
     Py.dirname f ≠ "" ∧ Py.dirname f ∈ dirs w ∧
     is_Some (files w !! rf)) ∨
  (∃ sf f region evs,
     r = (Ok (locals_of options bc sf f, region),
          add_log w evs) ∧
     Forall is_check evs ∧
     sam_file options = Some sf ∧ is_Some (files w !! sf) ∧
     out_file options = Some f ∧
     Py.dirname f ≠ "" ∧ Py.dirname f ∈ dirs w ∧
     match region with
     | None =>
         region_file options = None ∨ region_file options = Some "None"
     | Some vcf =>
         ∃ rf, region_file options = Some rf ∧ rf ≠ "None" ∧
               is_Some (files w !! rf) ∧
               parse_vcf_file rf (files w) = Returned vcf
     end).
Proof.
  intros Hq0 r. subst r.
    rewrite bind_eq, check_sam_file_eq, files_add_log.
    destruct (sam_file options) as [sf|] eqn:Hsf; cycle 1.
    { left. exists evs0, "Error: need samFile for sam file.".
      by rewrite add_log_app. }
    case_bool_decide as Hsam; cycle 1.
    { left. exists (evs0 ++ [EvIsFile sf]), ("Error: No such file" +:+ Py.nl +:+ "    -- " +:+ sf).
      rewrite add_log_app, <-app_assoc. split; [done|].
      apply Forall_app. by repeat constructor. }
    rewrite bind_eq, check_out_file_eq, add_log_app, dirs_add_log.
    destruct (out_file options) as [f|] eqn:Hf; cycle 1.
    { left. exists (evs0 ++ [EvIsFile sf]),
        "Error: need outFile for output file path and name.".
      rewrite add_log_app, <-app_assoc. split; [done|].
      apply Forall_app. by repeat constructor. }
    destruct (negb _ && _) eqn:Hdir; cycle 1.
    { left. exists (evs0 ++ [EvIsFile sf; EvIsDir (Py.dirname f)]),
        ("Error: No such directory for file" +:+ Py.nl +:+ " -- " +:+ f).
      rewrite add_log_app, <-!app_assoc. split; [done|].
      apply Forall_app. by repeat constructor. }
    apply andb_true_iff in Hdir as [Hne Hin].
    apply negb_true_iff, bool_decide_eq_false in Hne.
    apply bool_decide_eq_true in Hin.
    rewrite bind_eq, load_regions_eq, add_log_app, files_add_log.
    assert (Forall is_quiet ((evs0 ++ [EvIsFile sf]) ++ [EvIsDir (Py.dirname f)]))
      as Hq1.
    { rewrite !Forall_app. by repeat constructor. }
    destruct (region_file options) as [rf|] eqn:Hrf; cycle 1.
    { right. right. eexists sf, f, None, _. split; [reflexivity|].
      split; [by apply Forall_is_quiet_check|]. auto 10. }
    destruct (decide (rf = "None")) as [->|Hnone].
    { right. right. eexists sf, f, None, _. split; [reflexivity|].
      split; [by apply Forall_is_quiet_check|]. auto 10. }
    case_bool_decide as Hreg; cycle 1.
    { left.
      exists (((evs0 ++ [EvIsFile sf]) ++ [EvIsDir (Py.dirname f)])
              ++ [EvIsFile rf]),
        ("Error: No such file" +:+ Py.nl +:+ "    -- " +:+ rf).
      rewrite add_log_app. split; [by rewrite <-!app_assoc|].
      rewrite Forall_app. split; [done|by repeat constructor]. }
    destruct (parse_vcf_file rf (files w)) as [vcf|e] eqn:Hparse.
    - right. right. eexists sf, f, (Some vcf), _. rewrite add_log_app.
      split; [reflexivity|]. split.
      { rewrite Forall_app. split; [by apply Forall_is_quiet_check|].
        by repeat constructor. }
      do 5 (split; [done|]). by exists rf.
    - right. left.
      exists rf, e, (((evs0 ++ [EvIsFile sf]) ++ [EvIsDir (Py.dirname f)])
                     ++ [EvIsFile rf]), sf, f.
      rewrite add_log_app.
      do 3 (split; [done|]). split; [by rewrite <-!app_assoc|].
      split; [|done].
      rewrite Forall_app. split; [done|by repeat constructor].
Qed.

(** How the checks of the arguments end: with exit status 1 after an error
    message, with the exception that the reading of the barcode file
    raises, with the exception of the candidate parser, or with the local
    variables, every path having passed its test. *)
Lemma configure_cases argv options w :
  let r := configure argv options w in
  (∃ evs msg,
     r = (Exit 1, add_log w (evs ++ [EvPrint msg])) ∧ Forall is_quiet evs) ∨
  (∃ bf lines e,
     barcode_file options = Some bf ∧ files w !! bf = Some lines ∧
     read_failure bf lines = Some e ∧
     r = (Raise e, add_log w [EvIsFile bf; EvOpen bf])) ∨
  (∃ rf e evs sf f,
     region_file options = Some rf ∧ rf ≠ "None" ∧
     parse_vcf_file rf (files w) = Failed e ∧
     r = (Raise e, add_log w (evs ++ [EvParseVcf rf]))
     ∧ Forall is_quiet evs ∧
     sam_file options = Some sf ∧ is_Some (files w !! sf) ∧
     out_file options = Some f ∧
     Py.dirname f ≠ "" ∧ Py.dirname f ∈ dirs w ∧
     is_Some (files w !! rf)) ∨
  (∃ bc sf f region evs,
     r = (Ok (locals_of options bc sf f, region),
          add_log w evs) ∧
     Forall is_check evs ∧
     argv ≠ [] ∧
     match barcode_file options with
     | None => bc = None
     | Some bf =>
         ∃ lines, files w !! bf = Some lines ∧ bc = Some (barcodes_of_lines lines)
     end ∧
     sam_file options = Some sf ∧ is_Some (files w !! sf) ∧
     out_file options = Some f ∧
     Py.dirname f ≠ "" ∧ Py.dirname f ∈ dirs w ∧
     match region with
     | None => region_file options = None ∨ region_file options = Some "None"
     | Some vcf =>
         ∃ rf, region_file options = Some rf ∧ rf ≠ "None" ∧
               is_Some (files w !! rf) ∧
               parse_vcf_file rf (files w) = Returned vcf
     end).
Proof.
  intros r. subst r. unfold configure. rewrite bind_eq.
  destruct argv as [|arg argv].
  { left. exists [EvPrint ("Welcome to cellSNP!" +:+ Py.nl)],
      "use -h or --help for help on argument.".
    split; [|by repeat constructor]. rewrite bool_decide_true by done. by monad. }
  rewrite bool_decide_false by done.
  change ((mret () : M unit) w) with (Ok (), w). cbv beta iota.
  rewrite bind_eq, load_barcodes_eq.
  destruct (barcode_file options) as [bf|] eqn:Hbf.
  - destruct (files w !! bf) as [lines|] eqn:Hlines.
    + destruct (read_failure bf lines) as [e|] eqn:Hread.
      { right. left. by exists bf, lines, e. }
      destruct (configure_tail_cases options w (Some (barcodes_of_lines lines))
        [EvIsFile bf; EvOpen bf;
         EvPrint ("[cellSNP] "
                  +:+ Py.str (Z.of_nat (length (barcodes_of_lines lines)))
                  +:+ " effective cell barcodes are used.")])
        as [Hx|[Hx|Hx]]; [by repeat constructor|..].
      * by left.
      * right. right. by left.
      * right. right. right.
        destruct Hx as (sf & f & region & evs & -> & Hx).
        eexists _, sf, f, region, evs. split; [reflexivity|].
        destruct Hx as (? & ? & ? & ? & ? & ? & ?).
        split; [done|]. split; [done|]. split; [by exists lines|]. auto 10.
    + left. exists [EvIsFile bf],
        ("Error: No such file" +:+ Py.nl +:+ "    -- " +:+ bf).
      split; [done|by repeat constructor].
  - destruct (configure_tail_cases options w None []) as [Hx|[Hx|Hx]]; [done|..];
      rewrite add_log_nil in Hx.
    + by left.
    + right. right. by left.
    + right. right. right.
      destruct Hx as (sf & f & region & evs & -> & Hx).
      eexists _, sf, f, region, evs. split; [reflexivity|].
      destruct Hx as (? & ? & ? & ? & ? & ? & ?). auto 10.
Qed.

End CheckSteps.

(** ** Runs that the checks end *)

Section Exits.
Context {RV : Type} `{!Utils RV}.

Lemma main_eq argv options sched w :
  main argv options sched w
  = match configure argv options w with
    | (Ok (L, region), w1) =>
        match dispatch_merge sched L region w1 with
        | (Ok _, w2) => (Ok (), add_log w2 [EvPrintRunTime])
        | (Exit c, w2) => (Exit c, w2)
        | (Raise e, w2) => (Raise e, w2)
        end
    | (Exit c, w1) => (Exit c, w1)
    | (Raise e, w1) => (Raise e, w1)
    end.
Proof.
  unfold main. rewrite bind_eq.
  destruct (configure argv options w) as [[[L region]|c|e] w1]; [|done..].
  rewrite bind_eq. destruct (dispatch_merge sched L region w1) as [[[]|c|e] w2];
    [|done..].
  by rewrite emit_eq.
Qed.

(** A run that ends in [sys.exit]: the checks of the arguments ended so. *)
Lemma run_exit_inv argv options sched fs ds c :
  (run argv options sched fs ds).1 = Exit c →
  c = 1 ∧
  ∃ evs msg,
    run argv options sched fs ds
    = (Exit 1, {| files := fs; dirs := ds; log := evs ++ [EvPrint msg] |}) ∧
    Forall is_quiet evs.
Proof.
  unfold run. rewrite main_eq. set (w0 := {| files := fs; dirs := ds; log := [] |}).
  destruct (configure_cases argv options w0)
    as [(evs & msg & -> & Hq)|[(bf & lines & e & _ & _ & _ & ->)
       |[(rf & e & evs & sf & f & _ & _ & _ & -> & _)
       |(bc & sf & f & region & evs & -> & _)]]].
  - intros [= <-]. split; [done|]. by exists evs, msg.
  - done.
  - done.
  - destruct (dispatch_merge_post sched
                (locals_of options bc sf f) region (add_log w0 evs))
      as (fs' & evs' & _ & _ & _ & _ & Hne & _).
    destruct (dispatch_merge _ _ _ _) as [[[]|c'|e] w2]; [done| |done].
    by destruct (Hne c').
Qed.

(** Whenever a run ends in [sys.exit], the status is 1 and the last thing
    it did was to print a message; until then it has only tested paths,
    read the barcodes and printed: it has called no parser, created no
    pool, handed over no task, called no merge, and the files are as they
    were. *)
Theorem exit_status_one argv options sched fs ds c :
  let r := run argv options sched fs ds in
  r.1 = Exit c →
  c = 1 ∧
  files r.2 = fs ∧
  (∃ msg, last (log r.2) = Some (EvPrint msg)) ∧
  Forall is_quiet (log r.2) ∧
  parses (log r.2) = [] ∧
  pools (log r.2) = [] ∧
  dispatched (log r.2) = [] ∧
  merges (log r.2) = [].
Proof.
  intros r Hr. subst r.
  destruct (run_exit_inv _ _ _ _ _ _ Hr) as (-> & evs & msg & -> & Hq).
  cbn [fst snd files log].
  assert (Forall is_quiet (evs ++ [EvPrint msg])) as Hall.
  { rewrite Forall_app. by repeat constructor. }
  split; [done|]. split; [done|]. split; [exists msg; apply last_snoc|].
  split; [done|]. split; [by apply quiet_parses|].
  apply Forall_is_quiet_check in Hall.
  split; [by apply check_pools|]. split; [by apply check_dispatched|].
  by apply check_merges.
Qed.

End Exits.

(** A candidate file that does not exist. *)
Lemma exit_status_one_witness :
  let r := @run unit (demo_utils [] (demo_vcf 0)) ["-o"; "out.vcf"]
             (with_region (Some "/d/nothing.vcf") demo_options)
             [] demo_files demo_dirs in
  r.1 = Exit 1 ∧ files r.2 = demo_files ∧
  last (log r.2)
  = Some (EvPrint ("Error: No such file" +:+ Py.nl +:+ "    -- /d/nothing.vcf")).
Proof.
  intros r.
  assert (r.1 = Exit 1) as Hr by (vm_compute; reflexivity).
  split; [exact Hr|].
  destruct (@exit_status_one unit (demo_utils [] (demo_vcf 0)) ["-o"; "out.vcf"]
              (with_region (Some "/d/nothing.vcf") demo_options)
              [] demo_files demo_dirs 1 Hr) as (_ & Hf & _).
  split; [exact Hf|]. vm_compute. reflexivity.
Defined.

(** ** What a task is given *)

Section Inputs.
Context {RV : Type} `{!Utils RV}.

(** A task that a run has handed over: the checks passed, and the task is
    one of the job that the local variables describe. *)
Lemma run_dispatched_inv argv options sched fs ds t :
  t ∈ dispatched (log (run argv options sched fs ds).2) →
  ∃ bc sf f region,
    t ∈ job_tasks (locals_of options bc sf f) region ∧
    argv ≠ [] ∧
    match barcode_file options with
    | None => bc = None
    | Some bf =>
        ∃ lines, fs !! bf = Some lines ∧ bc = Some (barcodes_of_lines lines)
    end ∧
    sam_file options = Some sf ∧ is_Some (fs !! sf) ∧
    out_file options = Some f ∧
    Py.dirname f ≠ "" ∧ Py.dirname f ∈ ds ∧
    match region with
    | None => region_file options = None ∨ region_file options = Some "None"
    | Some vcf =>
        ∃ rf, region_file options = Some rf ∧ rf ≠ "None" ∧
              is_Some (fs !! rf) ∧ parse_vcf_file rf fs = Returned vcf
    end.
Proof.
  unfold run. set (w0 := {| files := fs; dirs := ds; log := [] |}).
  destruct (main_split argv options sched w0) as (evs' & -> & _ & Hin).
  destruct (configure_only argv options w0) as (evs0 & Hw & Hc).
  rewrite Hw, log_add_log, !dispatched_app, (check_dispatched evs0) by done.
  cbn [log app dispatched omap]. intros Ht.
  destruct (Hin t Ht) as (L & region & w1 & Hconf & HtL).
  destruct (configure_cases argv options w0)
    as [(evs & msg & Hr & _)|[(bf & lines & e & _ & _ & _ & Hr)
       |[(rf & e & evs & sf & f & _ & _ & _ & Hr & _)
       |(bc & sf & f & region' & evs & Hr & _ & Hok)]]];
    rewrite Hconf in Hr; try discriminate Hr.
  injection Hr as -> -> _. by exists bc, sf, f, region'.
Qed.

(** No task is handed over before every check has passed: when a run
    hands over a task, there was an argument, the barcode file (when one
    is given) and the alignment file exist, the directory of the output
    path is not empty and exists, and the candidate file (when one is
    given) exists and was parsed. *)
Theorem no_task_before_checks_pass argv options sched fs ds :
  let r := run argv options sched fs ds in
  dispatched (log r.2) ≠ [] →
  argv ≠ [] ∧
  (∀ bf, barcode_file options = Some bf → is_Some (fs !! bf)) ∧
  (∃ sf, sam_file options = Some sf ∧ is_Some (fs !! sf)) ∧
  (∃ f, out_file options = Some f ∧ Py.dirname f ≠ "" ∧ Py.dirname f ∈ ds) ∧
  (∀ rf, region_file options = Some rf → rf ≠ "None" →
     is_Some (fs !! rf) ∧ ∃ vcf, parse_vcf_file rf fs = Returned vcf).
Proof.
  intros r Hd. subst r.
  destruct (dispatched (log (run argv options sched fs ds).2)) as [|t ts] eqn:Hts;
    [done|].
  destruct (run_dispatched_inv argv options sched fs ds t)
    as (bc & sf & f & region & _ & Hargv & Hbc & Hsf & Hsam & Hf & Hne & Hdir & Hreg).
  { rewrite Hts. by left. }
  split; [done|]. split.
  { intros bf Hbf. rewrite Hbf in Hbc. destruct Hbc as (lines & -> & _). done. }
  split; [by exists sf|]. split; [by exists f|].
  intros rf Hrf Hnone. destruct region as [vcf|].
  - destruct Hreg as (rf' & Hrf' & _ & Hsome & Hparse).
    assert (rf' = rf) as -> by congruence. split; [done|by exists vcf].
  - destruct Hreg as [Hreg|Hreg]; congruence.
Qed.

(** Every task of a run is given the same values, those of the options:
    the alignment file, the barcodes read from the barcode file (or
    [None]), the two tags (or [None] when switched off), the five
    thresholds, and [True] as its last argument. *)
Theorem options_reach_every_task argv options sched fs ds t :
  let r := run argv options sched fs ds in
  t ∈ dispatched (log r.2) →
  ∃ sf,
    sam_file options = Some sf ∧
    task_common t
    = (sf, barcode_file options ≫= (λ bf, barcodes_of_lines <$> fs !! bf),
       tag_of (cell_tag options), tag_of (UMI_tag options),
       (min_COUNT options, min_MAF options, min_MAPQ options,
        max_FLAG options, min_LEN options), true).
Proof.
  intros r Ht. subst r.
  destruct (run_dispatched_inv argv options sched fs ds t Ht)
    as (bc & sf & f & region & HtL & _ & Hbc & Hsf & _).
  exists sf. split; [done|].
  assert (barcode_file options ≫= (λ bf, barcodes_of_lines <$> fs !! bf) = bc)
    as ->.
  { destruct (barcode_file options) as [bf|]; [|done].
    destruct Hbc as (lines & Hl & ->). cbn. by rewrite Hl. }
  destruct region as [vcf|]; cbn [job_tasks] in HtL.
  - unfold fetch_tasks in HtL. apply list_elem_of_fmap in HtL as (ii & -> & _).
    reflexivity.
  - unfold pileup_tasks in HtL. apply list_elem_of_fmap in HtL as (c & -> & _).
    reflexivity.
Qed.

(** The directory of a temporary path. *)
Lemma dirname_chr_out_file out c :
  no_slash c → Py.dirname (chr_out_file out c) = Py.dirname out.
Proof.
  intros Hc. unfold chr_out_file. apply dirname_app.
  rewrite !no_slash_app. split; [|split; [done|]];
    unfold no_slash; cbn; rewrite ?not_elem_of_cons;
    repeat split; try done; apply not_elem_of_nil.
Qed.

Lemma dirname_out_file_tmp out ii :
  Py.dirname (out_file_tmp out ii) = Py.dirname out.
Proof.
  unfold out_file_tmp. apply dirname_app.
  rewrite !no_slash_app. split; [|split; [apply str_no_slash|]];
    unfold no_slash; cbn; rewrite ?not_elem_of_cons;
    repeat split; try done; apply not_elem_of_nil.
Qed.

(** The temporary file of a task lies in the directory of the output
    path, the one that [os.path.isdir] has found: always for a task of
    the targeted mode, and for a task of the whole-genome mode when the
    name of its chromosome holds no slash. *)
Theorem temp_files_beside_output argv options sched fs ds t :
  let r := run argv options sched fs ds in
  t ∈ dispatched (log r.2) →
  (∀ a, t = PileupRegions a → no_slash (pa_chrom a)) →
  ∃ f, out_file options = Some f ∧
       Py.dirname (task_out t) = Py.dirname f ∧
       Py.dirname f ∈ ds.
Proof.
  intros r Ht Hchrom. subst r.
  destruct (run_dispatched_inv argv options sched fs ds t Ht)
    as (bc & sf & f & region & HtL & _ & _ & _ & _ & Hf & _ & Hdir & _).
  exists f. split; [done|]. split; [|done].
  destruct region as [vcf|]; cbn [job_tasks] in HtL.
  - unfold fetch_tasks in HtL. apply list_elem_of_fmap in HtL as (ii & -> & _).
    apply dirname_out_file_tmp.
  - unfold pileup_tasks in HtL. apply list_elem_of_fmap in HtL as (c & -> & _).
    apply dirname_chr_out_file. by apply (Hchrom _ eq_refl).
Qed.

(** An output path without a slash is never accepted, whatever directories
    exist: its directory is the empty path, which [os.path.isdir] refuses.
    The run hands over no task and only tests paths, reads the barcodes
    and prints; it ends with exit status 1, unless the reading of the
    barcode file, which comes before, raises, and then it ends with that
    exception. *)
Theorem bare_output_name_rejected argv options sched fs ds f :
  out_file options = Some f → no_slash f →
  let r := run argv options sched fs ds in
  (r.1 = Exit 1 ∨
   ∃ bf lines e,
     barcode_file options = Some bf ∧ fs !! bf = Some lines ∧
     read_failure bf lines = Some e ∧ r.1 = Raise e) ∧
  files r.2 = fs ∧ Forall is_quiet (log r.2) ∧
  dispatched (log r.2) = [].
Proof.
  intros Hf Hbare r. subst r. unfold run. rewrite main_eq.
  set (w0 := {| files := fs; dirs := ds; log := [] |}).
  destruct (configure_cases argv options w0)
    as [(evs & msg & -> & Hq)
       |[(bf & lines & e & Hbf & Hlines & Hread & ->)
       |[(rf & e & evs & sf & f' & _ & _ & _ & _ & _ & _ & _ & Hf' & Hne & _)
       |(bc & sf & f' & region & evs & _ & _ & _ & _ & _ & _ & Hf' & Hne
         & _)]]].
  - unfold add_log, w0. cbn [fst snd files log app].
    assert (Forall is_quiet (evs ++ [EvPrint msg])) as Hall.
    { rewrite Forall_app. by repeat constructor. }
    split; [by left|]. do 2 (split; [done|]).
    by apply check_dispatched, Forall_is_quiet_check.
  - unfold add_log, w0. cbn [fst snd files log app].
    split; [right; by exists bf, lines, e|]. split; [done|].
    split; [by repeat constructor|done].
  - assert (f' = f) as -> by congruence. by rewrite dirname_no_slash in Hne.
  - assert (f' = f) as -> by congruence. by rewrite dirname_no_slash in Hne.
Qed.

(** For an output path [dir/base], where [dir] does not end in a slash
    and [base] holds none, the directory tested is [dir]: the check
    passes when [dir] is a directory, and otherwise prints the error and
    exits with status 1. *)
Theorem output_directory_tested options w d c base :
  out_file options = Some ((d +:+ String c "") +:+ "/" +:+ base) →
  c ≠ "/"%char → no_slash base →
  let dir := d +:+ String c "" in
  let f := dir +:+ "/" +:+ base in
  check_out_file options w
  = if bool_decide (dir ∈ dirs w)
    then (Ok f, add_log w [EvIsDir dir])
    else (Exit 1,
          add_log w [EvIsDir dir;
                     EvPrint ("Error: No such directory for file" +:+ Py.nl
                              +:+ " -- " +:+ f)]).
Proof.
  intros Hf Hc Hbase dir f.
  rewrite check_out_file_eq, Hf. fold dir. fold f.
  unfold f, dir. rewrite dirname_dir_base by done. fold dir.
  rewrite bool_decide_false by (by destruct d). cbn [negb andb]. done.
Qed.

(** The targeted mode needs a positive number of processes.  With
    [nproc <= 0] and a candidate file, a run never returns, hands over no
    task, calls no merge and leaves the files alone; once the candidates
    are parsed it raises [ZeroDivisionError] for 0, before any pool is
    created, and for a negative number the [ValueError] of the pool. *)
Theorem targeted_needs_positive_nproc argv options sched fs ds rf :
  nproc options ≤ 0 →
  region_file options = Some rf → rf ≠ "None" →
  let r := run argv options sched fs ds in
  (∀ a, r.1 ≠ Ok a) ∧
  files r.2 = fs ∧
  dispatched (log r.2) = [] ∧
  completed (log r.2) = [] ∧
  merges (log r.2) = [] ∧
  (parses (log r.2) ≠ [] →
   (∃ e, parse_vcf_file rf fs = Failed e ∧ r.1 = Raise e) ∨
   (nproc options = 0 ∧ r.1 = Raise ZeroDivisionError ∧ pools (log r.2) = []) ∨
   (nproc options < 0 ∧
    r.1 = Raise (ValueError "Number of processes must be at least 1") ∧
    pools (log r.2) = [nproc options])).
Proof.
  intros Hn Hrf Hnone r. subst r. unfold run. rewrite main_eq.
  set (w0 := {| files := fs; dirs := ds; log := [] |}).
  destruct (configure_cases argv options w0)
    as [(evs & msg & -> & Hq)
       |[(bf & lines & e & _ & _ & _ & ->)
       |[(rf' & e & evs & sf & f' & Hrf' & _ & Hparse & -> & Hq & _)
       |(bc & sf & f & region & evs & -> & Hc & _ & _ & _ & _ & _ & _ & _
         & Hreg)]]].
  - unfold add_log, w0. cbn [fst snd files log app].
    assert (Forall is_check (evs ++ [EvPrint msg])) as Hall.
    { apply Forall_is_quiet_check. rewrite Forall_app. by repeat constructor. }
    split; [done|]. split; [done|]. split; [by apply check_dispatched|].
    split; [by apply check_completed|]. split; [by apply check_merges|].
    intros Hp. destruct Hp. apply quiet_parses.
    rewrite Forall_app. by repeat constructor.
  - unfold add_log, w0. cbn [fst snd files log app].
    do 5 (split; [done|]). intros Hp. by destruct Hp.
  - unfold add_log, w0. cbn [fst snd files log app].
    assert (Forall is_check (evs ++ [EvParseVcf rf'])) as Hall.
    { rewrite Forall_app. split; [by apply Forall_is_quiet_check|].
      by repeat constructor. }
    split; [done|]. split; [done|]. split; [by apply check_dispatched|].
    split; [by apply check_completed|]. split; [by apply check_merges|].
    intros _. left. exists e. assert (rf' = rf) as -> by congruence. done.
  - destruct region as [vcf|]; cycle 1.
    { destruct Hreg; congruence. }
    unfold dispatch_merge. rewrite bind_eq.
    destruct (Z_lt_le_dec (nproc options) 0) as [Hneg|Hge].
    + rewrite fetch_candidates_negative by done.
      rewrite add_log_app. unfold add_log, w0.
      cbn [fst snd files log app l_nproc locals_of].
      split; [done|]. split; [done|].
      rewrite !dispatched_app, !completed_app, !merges_app, !pools_app,
        (check_dispatched evs), (check_completed evs), (check_merges evs),
        (check_pools evs) by done.
      do 3 (split; [done|]). intros _. right. right. done.
    + assert (nproc options = 0) as H0 by lia.
      rewrite fetch_candidates_zero by done.
      unfold add_log, w0. cbn [fst snd files log app].
      split; [done|]. split; [done|].
      rewrite (check_dispatched evs), (check_completed evs), (check_merges evs),
        (check_pools evs) by done.
      do 3 (split; [done|]). intros _. right. left. done.
Qed.

(** The parser is never called on a path that is not a file.  When the
    candidate path is neither the word ["None"], spelled so, nor a file,
    the run parses nothing and hands over no task; it ends with exit
    status 1, unless the reading of the barcode file, which comes before,
    raises, and then it ends with that exception. *)
Theorem candidate_file_must_exist argv options sched fs ds rf :
  region_file options = Some rf → rf ≠ "None" → fs !! rf = None →
  let r := run argv options sched fs ds in
  (r.1 = Exit 1 ∨
   ∃ bf lines e,
     barcode_file options = Some bf ∧ fs !! bf = Some lines ∧
     read_failure bf lines = Some e ∧ r.1 = Raise e) ∧
  files r.2 = fs ∧ Forall is_quiet (log r.2) ∧
  parses (log r.2) = [] ∧ dispatched (log r.2) = [].
Proof.
  intros Hrf Hnone Hmissing r. subst r. unfold run. rewrite main_eq.
  set (w0 := {| files := fs; dirs := ds; log := [] |}).
  assert (¬ is_Some (fs !! rf)) as Hno by (rewrite Hmissing; by intros [? [=]]).
  destruct (configure_cases argv options w0)
    as [(evs & msg & -> & Hq)
       |[(bf & lines & e & Hbf & Hlines & Hread & ->)
       |[(rf' & e & evs & sf & f' & Hrf' & _ & _ & _ & _ & _ & _ & _ & _ & _
          & Hsome)
       |(bc & sf & f' & region & evs & _ & _ & _ & _ & _ & _ & _ & _ & _
         & Hreg)]]].
  - unfold add_log, w0. cbn [fst snd files log app].
    assert (Forall is_quiet (evs ++ [EvPrint msg])) as Hall.
    { rewrite Forall_app. by repeat constructor. }
    split; [by left|]. do 2 (split; [done|]). split; [by apply quiet_parses|].
    by apply check_dispatched, Forall_is_quiet_check.
  - unfold add_log, w0. cbn [fst snd files log app].
    split; [right; by exists bf, lines, e|]. split; [done|].
    split; [by repeat constructor|done].
  - assert (rf' = rf) as -> by congruence. done.
  - destruct region as [vcf|].
    + destruct Hreg as (rf' & Hrf' & _ & Hsome & _).
      assert (rf' = rf) as -> by congruence. done.
    + destruct Hreg; congruence.
Qed.

End Inputs.

(** ** The outcomes of the tasks *)

Section Outcomes.
Context {RV : Type} `{!Utils RV}.

Lemma omap_lookup_seq {A} (l1 l2 : list A) :
  omap (λ i, (l1 ++ l2) !! i) (seq (length l1) (length l2)) = l2.
Proof.
  revert l1. induction l2 as [|x l2 IH]; intros l1; [done|].
  cbn [length seq omap list_omap].
  rewrite list_lookup_middle by done.
  f_equal. specialize (IH (l1 ++ [x])).
  rewrite <-app_assoc, length_app, Nat.add_1_r in IH. exact IH.
Qed.

Lemma omap_lookup_all {A} (l : list A) :
  omap (λ i, l !! i) (seq 0 (length l)) = l.
Proof. apply (omap_lookup_seq [] l). Qed.

(** The workers complete the tasks of the order, each once, and keep for
    each the outcome that its completion shows. *)
Lemma run_pool_outcomes order pool w (kept : gmap nat (outcome RV)) :
  NoDup order →
  ∃ evs kept',
    run_pool order pool w kept
    = (kept', {| files := replay (files w) (completed evs);
                 dirs := dirs w; log := log w ++ evs |}) ∧
    Forall is_completion evs ∧
    completed evs = omap (λ i, pool !! i) order ∧
    (∀ i, i ∉ order → kept' !! i = kept !! i) ∧
    (∀ i t, i ∈ order → pool !! i = Some t →
       ∃ o, kept' !! i = Some o ∧ EvDone t (failure o) ∈ evs) ∧
    (failures evs ≠ [] →
     ∃ i e, i ∈ order ∧ (i < length pool)%nat ∧
            kept' !! i = Some (Failed e)).
Proof.
  revert w kept. induction order as [|i order IH]; intros w kept Hnd.
  - exists [], kept. simpl. rewrite app_nil_r.
    split; [by destruct w|]. split; [constructor|]. split; [done|].
    split; [done|]. split; [|done]. intros i t Hi. by apply elem_of_nil in Hi.
  - apply NoDup_cons in Hnd as [Hi Hnd]. cbn [run_pool omap list_omap].
    destruct (pool !! i) as [t|] eqn:Hpool.
    + rewrite execute_eq.
      destruct (IH {| files := (run_task t (files w)).1; dirs := dirs w;
                      log := log w ++ [EvDone t (failure (run_task t (files w)).2)] |}
                   (<[i := (run_task t (files w)).2]> kept) Hnd)
        as (evs & kept' & -> & Hcomp & Hc & Hout & Hin & Hfail).
      cbn [files dirs log] in *.
      exists (EvDone t (failure (run_task t (files w)).2) :: evs), kept'.
      rewrite <-app_assoc. split; [done|].
      split; [by constructor|].
      split; [by rewrite <-Hc|]. split; [|split].
      * intros j Hj. apply not_elem_of_cons in Hj as [Hji Hj].
        rewrite Hout by done. by apply lookup_insert_ne.
      * intros j t' Hj Ht'. apply elem_of_cons in Hj as [->|Hj].
        -- assert (t' = t) as -> by congruence.
           exists (run_task t (files w)).2. split; [|by left].
           rewrite Hout by done. apply lookup_insert_eq.
        -- destruct (Hin j t' Hj Ht') as (o & Ho & He).
           exists o. split; [done|by right].
      * intros Hf. unfold failures in Hf. cbn [omap list_omap] in Hf.
        destruct (run_task t (files w)).2 as [v|e] eqn:Ho; simpl in Hf.
        -- destruct (Hfail Hf) as (j & e & Hj & Hlt & Hd).
           exists j, e. split; [by right|done].
        -- exists i, e. split; [by left|].
           split; [by eapply lookup_lt_Some|].
           rewrite Hout by done. apply lookup_insert_eq.
    + destruct (IH w kept Hnd)
        as (evs & kept' & -> & Hcomp & Hc & Hout & Hin & Hfail).
      exists evs, kept'. split; [done|]. split; [done|]. split; [done|].
      split; [|split].
      * intros j Hj. apply not_elem_of_cons in Hj as [_ Hj]. by apply Hout.
      * intros j t' Hj Ht'. apply elem_of_cons in Hj as [->|Hj]; [congruence|].
        by apply Hin.
      * intros Hf. destruct (Hfail Hf) as (j & e & Hj & Hlt & Hd).
        exists j, e. split; [by right|done].
Qed.

(** The comprehension of the [get]s raises the first failure in the order
    of the handles. *)
Lemma gather_first_failure (kept : gmap nat (outcome RV)) (hs : list nat) e :
  (∀ h, h ∈ hs → is_Some (kept !! h)) →
  gather kept hs = Failed e →
  ∃ k h,
    hs !! k = Some h ∧ kept !! h = Some (Failed e) ∧
    ∀ k' h', (k' < k)%nat → hs !! k' = Some h' →
             ∃ v, kept !! h' = Some (Returned v).
Proof.
  induction hs as [|h hs IH]; intros Hall Hg; [done|].
  cbn [gather] in Hg.
  destruct (kept !! h) as [[v|e1]|] eqn:Hh.
  - destruct (gather kept hs) as [vs|e2] eqn:Hg'; [done|].
    injection Hg as ->.
    destruct IH as (k & h0 & Hk & Hf & Hbefore); [|done|].
    { intros h' Hh'. apply Hall. by right. }
    exists (S k), h0. split; [done|]. split; [done|].
    intros [|k'] h' Hlt Hk'.
    + injection Hk' as <-. by exists v.
    + apply (Hbefore k'); [lia|done].
  - injection Hg as ->. exists 0%nat, h. split; [done|]. split; [done|].
    intros k' h' Hlt. lia.
  - destruct (Hall h) as [o Ho]; [by left|]. congruence.
Qed.

Lemma Forall_is_completion_branch evs :
  Forall is_completion evs → Forall is_branch_event evs.
Proof. intros Hev. eapply Forall_impl; [exact Hev|]. by intros []. Qed.

Lemma Forall_is_caller_branch evs :
  Forall is_caller_event evs → Forall is_branch_event evs.
Proof. intros Hev. eapply Forall_impl; [exact Hev|]. by intros []. Qed.

Lemma Forall_is_print_branch evs :
  Forall is_print evs → Forall is_branch_event evs.
Proof. intros Hev. eapply Forall_impl; [exact Hev|]. by intros []. Qed.

Lemma Forall_submissions_branch (ts : list task) :
  Forall is_branch_event (EvApplyAsync <$> ts).
Proof. apply Forall_fmap, Forall_true. by intros t. Qed.

(** A branch that goes through a pool: every task completes, and the
    exception that [get] raises is the first failure of the hand-over. *)
Lemma pool_outcomes (ts : list task) sched n w (paths : list string) msgs
    (kept : gmap nat (outcome RV)) w' :
  Forall is_print msgs →
  run_pool (completion_order sched (length ts)) ts
    (add_log w (EvPool n :: (EvApplyAsync <$> ts) ++ [EvPoolClose])) ∅
  = (kept, w') →
  let r := match gather kept (seq 0 (length ts)) with
           | Returned vs => (Ok (paths, vs), add_log w' (EvPoolJoin :: msgs))
           | Failed e => (Raise e, add_log w' [EvPoolJoin])
           end in
  ∃ evs,
    log r.2 = log w ++ evs ∧
    Forall is_branch_event evs ∧
    completed evs ≡ₚ dispatched evs ∧
    (failures evs ≠ [] → ∃ e, r.1 = Raise e) ∧
    (∀ e, r.1 = Raise e → first_failure evs e).
Proof.
  intros Hpr Hrun r.
  destruct (run_pool_outcomes (completion_order sched (length ts)) ts
              (add_log w (EvPool n :: (EvApplyAsync <$> ts) ++ [EvPoolClose]))
              ∅ (completion_order_NoDup _ _))
    as (evs & kept' & Hrun' & Hcomp & Hc & _ & Hin & Hfail).
  rewrite Hrun in Hrun'. injection Hrun' as Hd Hw. subst kept' w'.
  unfold add_log in *. cbn [files dirs log] in *.
  set (pre := EvPool n :: (EvApplyAsync <$> ts) ++ [EvPoolClose]) in *.
  assert (dispatched pre = ts) as Hdpre.
  { unfold pre. change (EvPool n :: ?l) with ([EvPool n] ++ l).
    rewrite !dispatched_app, dispatched_submissions. simpl.
    by rewrite app_nil_r. }
  assert (failures pre = []) as Hfpre.
  { unfold pre. change (EvPool n :: ?l) with ([EvPool n] ++ l).
    by rewrite !failures_app, failures_submissions. }
  assert (completed pre = []) as Hcpre.
  { unfold pre. change (EvPool n :: ?l) with ([EvPool n] ++ l).
    by rewrite !completed_app, completed_submissions. }
  assert (Forall is_branch_event pre) as Hppre.
  { unfold pre. constructor; [done|]. apply Forall_app.
    split; [apply Forall_submissions_branch|by constructor]. }
  assert (completed evs ≡ₚ ts) as Hperm.
  { by rewrite Hc, completion_order_perm, omap_lookup_all. }
  assert (∀ h, h ∈ seq 0 (length ts) → is_Some (kept !! h)) as Hkept.
  { intros h Hh%elem_of_seq.
    destruct (lookup_lt_is_Some_2 ts h) as [t Ht]; [lia|].
    destruct (Hin h t) as (o & Ho & _); [|done|by exists o].
    apply completion_order_elem. lia. }
  assert (failures evs ≠ [] → ∃ e, gather kept (seq 0 (length ts)) = Failed e)
    as Hraise.
  { intros Hf. destruct (Hfail Hf) as (i & e & _ & Hlt & Hd).
    eapply gather_failed; [|done]. apply elem_of_seq. lia. }
  destruct (gather kept (seq 0 (length ts))) as [vs|e] eqn:Hg; subst r;
    cbn [fst snd files dirs log].
  - exists (pre ++ evs ++ EvPoolJoin :: msgs).
    split; [by rewrite <-!app_assoc|].
    split.
    { rewrite !Forall_app. split; [done|].
      split; [by apply Forall_is_completion_branch|].
      constructor; [done|by apply Forall_is_print_branch]. }
    change (EvPoolJoin :: msgs) with ([EvPoolJoin] ++ msgs).
    rewrite !completed_app, !dispatched_app, !failures_app, Hcpre, Hdpre, Hfpre.
    rewrite (completion_dispatched evs) by done.
    rewrite (check_dispatched msgs), (check_completed msgs), (check_failures msgs)
      by (by apply Forall_is_quiet_check, Forall_is_print_quiet).
    cbn. rewrite !app_nil_r. split; [done|].
    split; [|done]. intros Hf. by destruct (Hraise Hf).
  - exists (pre ++ evs ++ [EvPoolJoin]).
    split; [by rewrite <-!app_assoc|].
    split.
    { rewrite !Forall_app. split; [done|].
      split; [by apply Forall_is_completion_branch|by repeat constructor]. }
    assert (dispatched (pre ++ evs ++ [EvPoolJoin]) = ts) as Hdall.
    { rewrite !dispatched_app, Hdpre, (completion_dispatched evs) by done.
      cbn. by rewrite app_nil_r. }
    split.
    { rewrite Hdall, !completed_app, Hcpre. cbn. by rewrite app_nil_r. }
    split; [intros _; by exists e|]. intros e' [= <-].
    destruct (gather_first_failure kept _ e Hkept Hg) as (k & h & Hk & Hf & Hbefore).
    apply lookup_seq in Hk as [-> Hlt]. cbn in Hf.
    destruct (lookup_lt_is_Some_2 ts k) as [t Ht]; [done|].
    exists k, t. rewrite Hdall. split; [done|]. split.
    + destruct (Hin k t) as (o & Ho & He); [|done|].
      { apply completion_order_elem. lia. }
      rewrite Hf in Ho. injection Ho as <-.
      rewrite !elem_of_app. right. by left.
    + intros j tj Hj Htj.
      destruct (Hbefore j j) as [v Hv]; [done|by apply lookup_seq_lt; lia|].
      destruct (Hin j tj) as (o & Ho & He); [|done|].
      { apply completion_order_elem. by eapply lookup_lt_Some. }
      rewrite Hv in Ho. injection Ho as <-.
      rewrite !elem_of_app. right. by left.
Qed.

(** The loop of calls on the caller stops at the first failure. *)
Lemma calls_outcomes ts w :
  ∃ evs,
    log (calls ts w).2 = log w ++ evs ∧
    ∀ e, (calls ts w).1 = Some e → first_failure evs e.
Proof.
  revert w. induction ts as [|t ts IH]; intros w.
  - exists []. cbn. by rewrite app_nil_r.
  - cbn [calls]. rewrite execute_eq. unfold add_log. cbn [files dirs log].
    destruct (run_task t (files w)).2 as [v|e] eqn:Ho; cbn [failure].
    + destruct (IH {| files := (run_task t (files w)).1; dirs := dirs w;
                      log := (log w ++ [EvCall t]) ++ [EvDone t None] |})
        as (evs & Hlog & Hff).
      exists ([EvCall t; EvDone t None] ++ evs).
      split; [rewrite Hlog; cbn [log]; by rewrite <-!app_assoc|].
      intros e He. destruct (Hff e He) as (i & t' & Hi & Hdone & Hbefore).
      exists (S i), t'. rewrite dispatched_app. cbn.
      split; [done|]. split; [by do 2 right|].
      intros [|j] tj Hlt Hj.
      * injection Hj as <-. right. by left.
      * do 2 right. apply (Hbefore j); [lia|done].
    + exists [EvCall t; EvDone t (Some e)]. cbn [fst snd log].
      split; [by rewrite <-app_assoc|].
      intros e' [= <-]. exists 0%nat, t. cbn.
      split; [done|]. split; [right; by left|]. intros j tj Hlt. lia.
Qed.

Lemma caller_outcomes (ts : list task) w (paths : list string) msgs :
  Forall is_print msgs →
  let r : res (list string * list (pyres RV)) * world :=
    match calls ts w with
    | (None, w') => (Ok (paths, []), add_log w' msgs)
    | (Some e, w') => (Raise e, w')
    end in
  ∃ evs,
    log r.2 = log w ++ evs ∧
    Forall is_branch_event evs ∧
    completed evs ≡ₚ dispatched evs ∧
    (failures evs ≠ [] → ∃ e, r.1 = Raise e) ∧
    (∀ e, r.1 = Raise e → first_failure evs e).
Proof.
  intros Hpr r.
  destruct (calls_spec ts w)
    as (evs & err & Hcalls & Hev & Hpre & Hcd & Hok & Hfail & _).
  destruct (calls_outcomes ts w) as (evs' & Hlog & Hff).
  rewrite Hcalls in Hlog, Hff. cbn [fst snd log] in Hlog, Hff.
  apply app_inv_head in Hlog as <-.
  subst r. rewrite Hcalls. unfold add_log. cbn [files dirs log].
  destruct err as [e|]; cbn [fst snd log].
  - exists evs. split; [done|]. split; [by apply Forall_is_caller_branch|].
    split; [by rewrite Hcd|]. split; [intros _; by exists e|].
    intros e' [= <-]. by apply Hff.
  - destruct (Hok eq_refl) as [Hd Hf].
    exists (evs ++ msgs). split; [by rewrite app_assoc|].
    split.
    { apply Forall_app. split; [by apply Forall_is_caller_branch|].
      by apply Forall_is_print_branch. }
    rewrite !completed_app, !dispatched_app, !failures_app.
    rewrite (check_dispatched msgs), (check_completed msgs), (check_failures msgs)
      by (by apply Forall_is_quiet_check, Forall_is_print_quiet).
    rewrite !app_nil_r, Hcd, Hf. done.
Qed.

(** The two branches, in every case of [nproc]. *)
Lemma branch_outcomes sched L region w :
  let r :=
    match region with
    | None => pileup_genome sched L (l_chrom_all L)
    | Some vcf => fetch_candidates sched L vcf
    end w in
  ∃ evs,
    log r.2 = log w ++ evs ∧
    Forall is_branch_event evs ∧
    completed evs ≡ₚ dispatched evs ∧
    (failures evs ≠ [] → ∃ e, r.1 = Raise e) ∧
    (∀ e, r.1 = Raise e →
       first_failure evs e ∨
       (is_Some region ∧ l_nproc L = 0 ∧ e = ZeroDivisionError ∧ evs = []) ∨
       (is_Some region ∧ l_nproc L < 0 ∧
        e = ValueError "Number of processes must be at least 1" ∧
        evs = [EvPool (l_nproc L)])).
Proof.
  cbv zeta.
  assert (∀ (r : res (list string * list (pyres RV)) * world),
            (∃ evs,
               log r.2 = log w ++ evs ∧ Forall is_branch_event evs ∧
               completed evs ≡ₚ dispatched evs ∧
               (failures evs ≠ [] → ∃ e, r.1 = Raise e) ∧
               (∀ e, r.1 = Raise e → first_failure evs e)) →
            ∃ evs,
              log r.2 = log w ++ evs ∧ Forall is_branch_event evs ∧
              completed evs ≡ₚ dispatched evs ∧
              (failures evs ≠ [] → ∃ e, r.1 = Raise e) ∧
              (∀ e, r.1 = Raise e →
                 first_failure evs e ∨
                 (is_Some region ∧ l_nproc L = 0 ∧ e = ZeroDivisionError
                  ∧ evs = []) ∨
                 (is_Some region ∧ l_nproc L < 0 ∧
                  e = ValueError "Number of processes must be at least 1" ∧
                  evs = [EvPool (l_nproc L)]))) as Hweak.
  { intros r (evs & ? & ? & ? & ? & Hff). exists evs.
    do 4 (split; [done|]). intros e He. left. by apply Hff. }
  destruct region as [vcf|].
  - destruct (Z_lt_le_dec (l_nproc L) 1) as [Hlt|Hge].
    + destruct (decide (l_nproc L = 0)) as [H0|H0].
      * rewrite fetch_candidates_zero by done.
        exists []. rewrite app_nil_r. do 4 (split; [done|]).
        intros e [= <-]. right. left. done.
      * rewrite fetch_candidates_negative by lia.
        exists [EvPool (l_nproc L)]. split; [done|].
        split; [by repeat constructor|]. do 2 (split; [done|]).
        intros e [= <-]. right. right. split; [done|]. split; [lia|done].
    + rewrite fetch_candidates_pool by done. cbv zeta.
      destruct (run_pool _ _ _ _) as [kept w'] eqn:Hrun.
      apply Hweak. eapply pool_outcomes; [|exact Hrun]. by repeat constructor.
  - destruct (Z_lt_le_dec 1 (l_nproc L)) as [Hlt|Hge].
    + rewrite pileup_genome_pool by done. cbv zeta.
      destruct (run_pool _ _ _ _) as [kept w'] eqn:Hrun.
      apply Hweak. eapply pool_outcomes; [|exact Hrun]. by repeat constructor.
    + rewrite pileup_genome_caller by done.
      apply Hweak. apply caller_outcomes. by repeat constructor.
Qed.

End Outcomes.

(** ** The anatomy of a run *)

Section Anatomy.
Context {RV : Type} `{!Utils RV}.

Lemma dispatch_merge_eq sched L region w :
  dispatch_merge sched L region w
  = match match region with
          | None => pileup_genome sched L (l_chrom_all L)
          | Some vcf => fetch_candidates sched L vcf
          end w with
    | (Ok (outs, vs), w1) =>
        let w2 fs2 :=
          {| files := fs2; dirs := dirs w1;
             log := log w1 ++ [EvMerge (l_out_file L) outs] |} in
        match merge_vcf (l_out_file L) outs (files w1) with
        | (fs2, Returned a) => (Ok a, w2 fs2)
        | (fs2, Failed e) => (Raise e, w2 fs2)
        end
    | (Exit c, w1) => (Exit c, w1)
    | (Raise e, w1) => (Raise e, w1)
    end.
Proof.
  unfold dispatch_merge. rewrite bind_eq.
  destruct (match region with
            | Some vcf => fetch_candidates sched L vcf
            | None => pileup_genome sched L (l_chrom_all L)
            end w) as [[[outs vs]|c|e] w1]; [|done..].
  rewrite bind_eq, emit_eq. unfold external, add_log. cbn [files dirs log].
  by destruct (merge_vcf _ _ _) as [fs2 [a|e]].
Qed.

(** The anatomy of a run.  Either the checks of the arguments end it (with
    exit status 1, with the exception of the reading of the barcode file or
    with that of the parser), and nothing but checks happened; or they
    pass, a dispatch branch runs, and either the branch raises or the merge
    primitive is called, after which the run time is printed when the
    primitive returned. *)
Lemma run_cases argv options sched fs ds :
  let r := run argv options sched fs ds in
  (Forall is_check (log r.2) ∧ files r.2 = fs ∧
   (r.1 = Exit 1 ∨
    (∃ bf lines e,
       barcode_file options = Some bf ∧ fs !! bf = Some lines ∧
       read_failure bf lines = Some e ∧ r.1 = Raise e ∧
       log r.2 = [EvIsFile bf; EvOpen bf]) ∨
    ∃ rf e, region_file options = Some rf ∧ rf ≠ "None" ∧
            parse_vcf_file rf fs = Failed e ∧ r.1 = Raise e)) ∨
  (∃ bc sf f region evs0 evs1 post,
     let L := locals_of options bc sf f in
     out_file options = Some f ∧
     match region with
     | None => region_file options = None ∨ region_file options = Some "None"
     | Some vcf =>
         ∃ rf, region_file options = Some rf ∧ rf ≠ "None" ∧
               parse_vcf_file rf fs = Returned vcf
     end ∧
     Forall is_check evs0 ∧ Forall is_branch_event evs1 ∧
     log r.2 = evs0 ++ evs1 ++ post ∧
     completed evs1 ≡ₚ dispatched evs1 ∧
     dispatched evs1 `prefix_of` job_tasks L region ∧
     merges evs1 = [] ∧
     ((post = [] ∧ files r.2 = replay fs (completed evs1) ∧
       ∃ e, r.1 = Raise e ∧
            (first_failure evs1 e ∨
             (is_Some region ∧ nproc options = 0 ∧ e = ZeroDivisionError
              ∧ evs1 = []) ∨
             (is_Some region ∧ nproc options < 0 ∧
              e = ValueError "Number of processes must be at least 1" ∧
              evs1 = [EvPool (nproc options)]))) ∨
      (dispatched evs1 = job_tasks L region ∧ failures evs1 = [] ∧
       ∃ fs2 o,
         merge_vcf f (task_out <$> job_tasks L region)
           (replay fs (completed evs1)) = (fs2, o) ∧
         files r.2 = fs2 ∧
         match o with
         | Returned _ =>
             r.1 = Ok () ∧
             post = [EvMerge f (task_out <$> job_tasks L region);
                     EvPrintRunTime]
         | Failed e =>
             r.1 = Raise e ∧
             post = [EvMerge f (task_out <$> job_tasks L region)]
         end))).
Proof.
  cbv zeta. unfold run. rewrite main_eq.
  set (w0 := {| files := fs; dirs := ds; log := [] |}).
  destruct (configure_cases argv options w0)
    as [(evs & msg & -> & Hq)
       |[(bf & lines & e & Hbf & Hlines & Hread & ->)
       |[(rf & e & evs & sf & f & Hrf & Hnone & Hparse & -> & Hq & _)
       |(bc & sf & f & region & evs0 & -> & Hc & _ & _ & _ & _ & Hf & _ & _
         & Hreg)]]].
  - left. unfold add_log, w0. cbn [fst snd files log app].
    split; [|by auto]. apply Forall_is_quiet_check.
    rewrite Forall_app. by repeat constructor.
  - left. unfold add_log, w0. cbn [fst snd files log app].
    split; [by repeat constructor|]. split; [done|].
    right. left. by exists bf, lines, e.
  - left. unfold add_log, w0. cbn [fst snd files log app].
    split; [|by eauto 10]. rewrite Forall_app.
    split; [by apply Forall_is_quiet_check|by repeat constructor].
  - right. exists bc, sf, f, region, evs0.
    set (L := locals_of options bc sf f).
    assert (match region with
            | None =>
                region_file options = None ∨ region_file options = Some "None"
            | Some vcf =>
                ∃ rf, region_file options = Some rf ∧ rf ≠ "None" ∧
                      parse_vcf_file rf fs = Returned vcf
            end) as Hreg'.
    { destruct region as [vcf|]; [|done].
      destruct Hreg as (rf & ? & ? & _ & ?). by exists rf. }
    rewrite dispatch_merge_eq.
    destruct (branch_post sched L region (add_log w0 evs0))
      as (evs1 & Hw & Hpre & Hsub & Hm & Hp & Hexit & Hfail & Hok).
    destruct (branch_outcomes sched L region (add_log w0 evs0))
      as (evs1' & Hlog & Hbr & Hperm & _ & Hff).
    cbv zeta in Hw, Hexit, Hfail, Hok, Hlog, Hff.
    rewrite Hw in Hlog. cbn [log] in Hlog. apply app_inv_head in Hlog as <-.
    destruct (match region with
              | Some vcf => fetch_candidates sched L vcf
              | None => pileup_genome sched L (l_chrom_all L)
              end (add_log w0 evs0)) as [[[outs vs]|c|e] w1];
      cbn [fst snd] in *; subst w1.
    + destruct (Hok outs vs eq_refl) as (-> & Hd & Hnf).
      unfold add_log, w0. cbn [files dirs log app].
      destruct (merge_vcf (l_out_file L) _ _) as [fs2 [[]|e]] eqn:Hmerge.
      * exists evs1, [EvMerge f (task_out <$> job_tasks L region); EvPrintRunTime].
        cbn [fst snd files log]. do 4 (split; [done|]).
        split; [by rewrite <-!app_assoc|]. do 3 (split; [done|]).
        right. do 2 (split; [done|]). by exists fs2, (Returned ()).
      * exists evs1, [EvMerge f (task_out <$> job_tasks L region)].
        cbn [fst snd files log]. do 4 (split; [done|]).
        split; [by rewrite <-!app_assoc|]. do 3 (split; [done|]).
        right. do 2 (split; [done|]). by exists fs2, (Failed e).
    + by destruct (Hexit c).
    + exists evs1, []. unfold add_log, w0. cbn [fst snd files log app].
      rewrite app_nil_r. do 8 (split; [done|]).
      left. do 2 (split; [done|]). exists e. split; [done|].
      by apply Hff.
Qed.

Lemma first_failure_frame pre evs post e :
  dispatched pre = [] →
  first_failure evs e → first_failure (pre ++ evs ++ post) e.
Proof.
  intros Hpre (i & t & Hi & Hdone & Hbefore). exists i, t.
  rewrite !dispatched_app, Hpre. cbn [app].
  split; [by apply lookup_app_l_Some|].
  split; [rewrite !elem_of_app; by auto|].
  intros j tj Hlt Hj. rewrite !elem_of_app. right. left.
  apply (Hbefore j tj Hlt).
  apply lookup_app_Some in Hj as [Hj|[Hge _]]; [done|].
  apply lookup_lt_Some in Hi. lia.
Qed.

End Anatomy.

(** ** How a run ends *)

Section Endings.
Context {RV : Type} `{!Utils RV}.

Lemma check_not_run_time evs : Forall is_check evs → EvPrintRunTime ∉ evs.
Proof. intros Hc Hin. rewrite Forall_forall in Hc. by apply Hc in Hin. Qed.

Lemma branch_not_run_time evs :
  Forall is_branch_event evs → EvPrintRunTime ∉ evs.
Proof. intros Hc Hin. rewrite Forall_forall in Hc. by apply Hc in Hin. Qed.

(** A run that returns has called the merge primitive exactly once, as
    its last act before printing the run time; by then every task handed
    over had completed, none had failed, and the primitive was given the
    output path of the options, the temporary paths in the order of the
    hand-over, and the files as the tasks had left them.  What it left is
    what the run leaves. *)
Theorem successful_run_shape argv options sched fs ds :
  let r := run argv options sched fs ds in
  r.1 = Ok () →
  ∃ evs f,
    log r.2 = evs ++ [EvMerge f (task_out <$> dispatched evs); EvPrintRunTime] ∧
    out_file options = Some f ∧
    merges evs = [] ∧ failures evs = [] ∧
    completed evs ≡ₚ dispatched evs ∧
    merge_vcf f (task_out <$> dispatched evs) (replay fs (completed evs))
    = (files r.2, Returned ()).
Proof.
  intros r Hr. subst r.
  destruct (run_cases argv options sched fs ds)
    as [(_ & _ & [Hx|[(bf & lines & e & _ & _ & _ & Hx & _)
                      |(rf & e & _ & _ & _ & Hx)]])
       |(bc & sf & f & region & evs0 & evs1 & post & Hf & Hreg & Hc & Hb & Hlog
         & Hperm & Hpre & Hm & Hcase)]; [congruence..|].
  cbv zeta in *.
  destruct Hcase as [(_ & _ & e & Hx & _)|(Hd & Hnf & fs2 & o & Hmerge & Hfs & Ho)];
    [congruence|].
  destruct o as [[]|e]; [|destruct Ho; congruence].
  destruct Ho as [_ ->].
  exists (evs0 ++ evs1), f.
  rewrite !dispatched_app, !merges_app, !failures_app, !completed_app,
    (check_dispatched evs0), (check_merges evs0), (check_failures evs0),
    (check_completed evs0) by done.
  cbn [app]. rewrite Hd. split; [by rewrite Hlog, <-app_assoc|].
  do 3 (split; [done|]). split; [by rewrite <-Hd|]. by rewrite Hfs.
Qed.

(** The run time is printed exactly when the run returns, and it is then
    the last thing printed. *)
Theorem all_done_iff_success argv options sched fs ds :
  let r := run argv options sched fs ds in
  (EvPrintRunTime ∈ log r.2 ↔ r.1 = Ok ()) ∧
  (r.1 = Ok () → last (log r.2) = Some EvPrintRunTime).
Proof.
  intros r. subst r.
  destruct (run_cases argv options sched fs ds)
    as [(Hc & _ & Hx)
       |(bc & sf & f & region & evs0 & evs1 & post & Hf & Hreg & Hc & Hb & Hlog
         & Hperm & Hpre & Hm & Hcase)].
  - pose proof (check_not_run_time _ Hc).
    assert ((run argv options sched fs ds).1 ≠ Ok ()) as Hne.
    { destruct Hx as [->|[(bf & lines & e & _ & _ & _ & -> & _)
                         |(rf & e & _ & _ & _ & ->)]]; done. }
    split; [split|]; done.
  - cbv zeta in *. rewrite Hlog.
    pose proof (check_not_run_time _ Hc) as H0.
    pose proof (branch_not_run_time _ Hb) as H1.
    destruct Hcase
      as [(-> & _ & e & Hx & _)|(Hd & Hnf & fs2 & o & Hmerge & Hfs & Ho)].
    + rewrite Hx, app_nil_r, elem_of_app. split; [split|]; [tauto|done..].
    + destruct o as [[]|e]; destruct Ho as [Hx ->]; rewrite Hx.
      * split; [split; [done|]|].
        -- intros _. rewrite !elem_of_app. do 2 right. right. by left.
        -- intros _. rewrite !app_assoc.
           change [EvMerge f (task_out <$> job_tasks (locals_of options bc sf f) region);
                   EvPrintRunTime]
             with ([EvMerge f (task_out <$> job_tasks (locals_of options bc sf f) region)]
                   ++ [EvPrintRunTime]).
           rewrite app_assoc. apply last_snoc.
      * rewrite !elem_of_app, list_elem_of_singleton.
        split; [split|]; [|done..]. intros [?|[?|?]]; done.
Qed.

(** Every task handed over completes, once, on the caller as in a pool.
    When a task fails the run raises, and the exception is that of the
    first task of the hand-over that failed, not of the first to fail in
    time: the tasks handed over before it had returned. *)
Theorem first_failure_surfaces argv options sched fs ds :
  let r := run argv options sched fs ds in
  completed (log r.2) ≡ₚ dispatched (log r.2) ∧
  (failures (log r.2) ≠ [] →
   ∃ e, r.1 = Raise e ∧ first_failure (log r.2) e).
Proof.
  intros r. subst r.
  destruct (run_cases argv options sched fs ds)
    as [(Hc & _ & Hx)
       |(bc & sf & f & region & evs0 & evs1 & post & Hf & Hreg & Hc & Hb & Hlog
         & Hperm & Hpre & Hm & Hcase)].
  - rewrite (check_completed _ Hc), (check_dispatched _ Hc),
      (check_failures _ Hc). done.
  - cbv zeta in *. rewrite Hlog.
    assert (completed post = [] ∧ dispatched post = [] ∧ failures post = [])
      as (Hcp & Hdp & Hfp).
    { destruct Hcase
        as [(-> & _)|(Hd & Hnf & fs2 & o & Hmerge & Hfs & Ho)]; [done|].
      destruct o as [[]|e]; by destruct Ho as [_ ->]. }
    rewrite !completed_app, !dispatched_app, !failures_app,
      (check_dispatched evs0), (check_completed evs0), (check_failures evs0),
      Hcp, Hdp, Hfp, !app_nil_r by done.
    cbn [app]. split; [done|]. intros Hfail.
    destruct Hcase
      as [(-> & _ & e & Hx & Hff)|(Hd & Hnf & fs2 & o & Hmerge & Hfs & Ho)];
      [|done].
    exists e. split; [done|].
    destruct Hff as [Hff|[(_ & _ & _ & ->)|(_ & _ & _ & ->)]]; [|done..].
    apply first_failure_frame; [by apply check_dispatched|done].
Qed.

(** Where an exception of a run comes from.  It is the exception that the
    opening or the reading of the barcode file raises, before any other
    check; or the exception of the candidate parser; or
    [ZeroDivisionError] or the [ValueError] of the pool, in the targeted
    mode with a number of processes that is not positive; or the exception
    of the first task of the hand-over that failed, and then no merge is
    called; or the exception of the merge primitive, called after tasks
    that all returned. *)
Theorem exception_origins argv options sched fs ds e :
  let r := run argv options sched fs ds in
  r.1 = Raise e →
  (∃ bf lines,
     barcode_file options = Some bf ∧ fs !! bf = Some lines ∧
     read_failure bf lines = Some e ∧
     log r.2 = [EvIsFile bf; EvOpen bf]) ∨
  (∃ rf, region_file options = Some rf ∧ rf ≠ "None" ∧
         parse_vcf_file rf fs = Failed e ∧ dispatched (log r.2) = []) ∨
  (∃ rf, region_file options = Some rf ∧ rf ≠ "None" ∧
         nproc options = 0 ∧ e = ZeroDivisionError ∧
         dispatched (log r.2) = [] ∧ pools (log r.2) = []) ∨
  (∃ rf, region_file options = Some rf ∧ rf ≠ "None" ∧
         nproc options < 0 ∧
         e = ValueError "Number of processes must be at least 1" ∧
         dispatched (log r.2) = [] ∧ pools (log r.2) = [nproc options]) ∨
  (first_failure (log r.2) e ∧ merges (log r.2) = []) ∨
  (∃ f parts,
     merges (log r.2) = [(f, parts)] ∧ failures (log r.2) = [] ∧
     merge_vcf f parts (replay fs (completed (log r.2))) = (files r.2, Failed e)).
Proof.
  intros r Hr. subst r.
  destruct (run_cases argv options sched fs ds)
    as [(Hc & _ & [Hx|[(bf & lines & e' & Hbf & Hlines & Hread & Hx & Hl)
                       |(rf & e' & Hrf & Hnone & Hparse & Hx)]])
       |(bc & sf & f & region & evs0 & evs1 & post & Hf & Hreg & Hc & Hb & Hlog
         & Hperm & Hpre & Hm & Hcase)].
  - congruence.
  - left. exists bf, lines. assert (e' = e) as -> by congruence.
    done.
  - right. left. exists rf. assert (e' = e) as -> by congruence.
    do 3 (split; [done|]). by apply check_dispatched.
  - right. cbv zeta in *. rewrite Hlog.
    destruct Hcase
      as [(-> & _ & e' & Hx & Hff)|(Hd & Hnf & fs2 & o & Hmerge & Hfs & Ho)].
    + assert (e' = e) as -> by congruence. rewrite app_nil_r.
      rewrite !dispatched_app, !merges_app, !pools_app,
        (check_dispatched evs0), (check_merges evs0), (check_pools evs0)
        by done.
      cbn [app].
      destruct Hff as [Hff|[([vcf ->] & Hn & -> & ->)|([vcf ->] & Hn & -> & ->)]].
      * do 3 right. left. split; [|done].
        rewrite <-(app_nil_r evs1).
        apply first_failure_frame; [by apply check_dispatched|done].
      * right. left. destruct Hreg as (rf & Hrf & Hnone & _). by exists rf.
      * right. right. left. destruct Hreg as (rf & Hrf & Hnone & _).
        by exists rf.
    + destruct o as [[]|e']; destruct Ho as [Hx ->]; [congruence|].
      assert (e' = e) as -> by congruence.
      do 4 right.
      exists f, (task_out <$> job_tasks (locals_of options bc sf f) region).
      rewrite !merges_app, !failures_app, !completed_app,
        (check_merges evs0), (check_failures evs0), (check_completed evs0),
        Hm, Hnf, app_nil_r by done.
      cbn. split; [done|]. split; [done|]. rewrite Hfs, app_nil_r.
      exact Hmerge.
Qed.

End Endings.

(** ** The reference lists of the targeted mode *)

Section Reference.
Context {RV : Type} `{!Utils RV}.

(** An element of a slice of the loop, by its position in the whole list. *)
Lemma task_slice_lookup {A} (l : list A) (b n : Z) (ii j : nat) :
  0 ≤ b → Z.of_nat ii < n →
  (j < length (task_slice l b n (Z.of_nat ii)))%nat →
  task_slice l b n (Z.of_nat ii) !! j = l !! (Z.to_nat b * ii + j)%nat.
Proof.
  intros Hb Hii.
  destruct (decide (Z.of_nat ii = n - 1)) as [Hlast|Hinner].
  - rewrite Hlast. rewrite task_slice_last; [|lia..]. intros _.
    rewrite lookup_drop. by replace (Z.to_nat (n - 1)) with ii by lia.
  - rewrite task_slice_inner; [|lia..]. rewrite length_take. intros Hj.
    rewrite lookup_take_lt; [|lia]. rewrite lookup_drop.
    by rewrite Nat2Z.id.
Qed.

(** In the targeted mode every task is given the whole lists [REF_list]
    and [ALT_list], while its positions and chromosomes are the slice of
    its block: the element [j] of the slice of task [ii] is the element
    [block * ii + j] of the whole list. *)
Theorem reference_lists_not_sliced sched (L : locals) (vcf : vcf_RV) fs ds :
  1 ≤ l_nproc L →
  let r := fetch_candidates sched L vcf
             {| files := fs; dirs := ds; log := [] |} in
  let block :=
    Z.to_nat (Py.int_div (Z.of_nat (length (vcf_chrom vcf))) (l_nproc L)) in
  ∀ ii t,
    dispatched (log r.2) !! ii = Some t →
    ∃ a,
      t = FetchPositions a ∧
      fa_REF a = vcf_REF vcf ∧ fa_ALT a = vcf_ALT vcf ∧
      (∀ j, (j < length (fa_pos a))%nat →
            fa_pos a !! j = vcf_pos vcf !! (block * ii + j)%nat) ∧
      (∀ j, (j < length (fa_chrom a))%nat →
            fa_chrom a !! j = vcf_chrom vcf !! (block * ii + j)%nat).
Proof.
  intros Hn r block ii t Ht. subst r.
  destruct (fetch_candidates_dispatched sched L vcf fs ds Hn) as [Hd _].
  cbv zeta in Hd. rewrite Hd in Ht. unfold fetch_tasks in Ht.
  apply list_lookup_fmap_Some in Ht as (z & -> & Hz).
  apply lookup_seqZ in Hz as [-> Hlt]. rewrite Z.add_0_l.
  destruct (int_div_bounds (Z.of_nat (length (vcf_chrom vcf))) (l_nproc L))
    as [Hb _]; [lia|done|].
  eexists. split; [reflexivity|]. cbn [fa_REF fa_ALT fa_pos fa_chrom].
  split; [done|]. split; [done|].
  split; intros j Hj; by apply task_slice_lookup.
Qed.

End Reference.

(** Ten candidates and three processes: the second task is given the
    positions 3 to 5 and the ten reference alleles. *)
Lemma reference_lists_not_sliced_witness :
  let r := @fetch_candidates unit (demo_utils [] (demo_vcf 10)) []
             (demo_locals [] 3) (demo_vcf 10)
             {| files := demo_files; dirs := demo_dirs; log := [] |} in
  1 ≤ l_nproc (demo_locals [] 3) ∧
  ∃ a, dispatched (log r.2) !! 1%nat = Some (FetchPositions a) ∧
       fa_pos a = [103; 104; 105] ∧
       fa_REF a = replicate 10 "A".
Proof.
  intros r. split; [vm_compute; discriminate|].
  destruct (@reference_lists_not_sliced unit (demo_utils [] (demo_vcf 10)) []
              (demo_locals [] 3) (demo_vcf 10) demo_files demo_dirs)
    with (ii := 1%nat)
         (t := FetchPositions
                 {| fa_sam_file := "/d/in.sam"; fa_chrom := ["1"; "1"; "1"];
                    fa_pos := [103; 104; 105];
                    fa_REF := replicate 10 "A"; fa_ALT := replicate 10 "C";
                    fa_barcodes := None;
                    fa_out_file := "/d/out.vcf.temp_1_";
                    fa_cell_tag := Some "CR"; fa_UMI_tag := Some "UR";
                    fa_min_COUNT := 20; fa_min_MAF := 0%Q;
                    fa_min_MAPQ := 20; fa_max_FLAG := 255;
                    fa_min_LEN := 30; fa_last := true |})
    as (a & Ha & HREF & _).
  - vm_compute. discriminate.
  - vm_compute. reflexivity.
  - exists a. injection Ha as <-. split; [vm_compute; reflexivity|].
    split; [reflexivity|exact HREF].
Defined.

(** ** The two modes *)

Section Modes.
Context {RV : Type} `{!Utils RV}.

(** The candidate option decides the engine of every task.  A task of the
    pileup engine is handed over only without a candidate file (no option,
    or the word ["None"]), for a chromosome of the list; a task of the
    fetch engine only with a candidate file that was parsed, and it is
    given the reference and alternative alleles of that file. *)
Theorem mode_decides_engine argv options sched fs ds t :
  let r := run argv options sched fs ds in
  t ∈ dispatched (log r.2) →
  match t with
  | PileupRegions a =>
      (region_file options = None ∨ region_file options = Some "None") ∧
      pa_chrom a ∈ chrom_all_of (chrom_all options)
  | FetchPositions a =>
      ∃ rf vcf,
        region_file options = Some rf ∧ rf ≠ "None" ∧
        parse_vcf_file rf fs = Returned vcf ∧
        fa_REF a = vcf_REF vcf ∧ fa_ALT a = vcf_ALT vcf
  end.
Proof.
  intros r Ht. subst r.
  destruct (run_dispatched_inv argv options sched fs ds t Ht)
    as (bc & sf & f & region & HtL & _ & _ & _ & _ & _ & _ & _ & Hreg).
  destruct region as [vcf|]; cbn [job_tasks] in HtL.
  - unfold fetch_tasks in HtL. apply list_elem_of_fmap in HtL as (ii & -> & _).
    destruct Hreg as (rf & Hrf & Hnone & _ & Hparse).
    by exists rf, vcf.
  - unfold pileup_tasks in HtL. apply list_elem_of_fmap in HtL as (c & -> & Hc).
    done.
Qed.

(** On the caller a task that fails ends the loop: exactly one task has
    failed, the tasks handed over are those up to it, in order, each of
    them has completed, and the chromosomes after it are never started. *)
Theorem caller_stops_at_first_failure sched L chrom_all fs ds :
  l_nproc L ≤ 1 →
  let r := pileup_genome sched L chrom_all
             {| files := fs; dirs := ds; log := [] |} in
  failures (log r.2) ≠ [] →
  ∃ k t,
    pileup_tasks L chrom_all !! k = Some t ∧
    failures (log r.2) = [t] ∧
    dispatched (log r.2) = take (S k) (pileup_tasks L chrom_all) ∧
    completed (log r.2) = dispatched (log r.2).
Proof.
  intros Hn r Hfail. subst r. revert Hfail.
  rewrite pileup_genome_caller by done.
  set (w0 := {| files := fs; dirs := ds; log := [] |}).
  destruct (calls_spec (pileup_tasks L chrom_all) w0)
    as (evs & err & Hcalls & Hev & Hpre & Hcd & Hok & _ & _).
  destruct (calls_stop (pileup_tasks L chrom_all) w0) as (evs' & Hlog & Hcase).
  rewrite Hcalls in Hlog, Hcase |- *. cbn [fst snd log] in Hlog, Hcase.
  apply app_inv_head in Hlog as <-.
  destruct err as [e|]; cbn [fst snd log app].
  - intros _. destruct Hcase as (k & t & Hk & Hd & Hf). by exists k, t.
  - destruct Hcase as [Hd Hf]. unfold add_log, w0. cbn [log app].
    rewrite failures_app, Hf. cbn. done.
Qed.

End Modes.

(** Four candidates and two processes. *)
Lemma mode_decides_engine_witness :
  let r := @run unit (demo_utils [] (demo_vcf 4)) ["-R"]
             (with_nproc 2 (with_region (Some "/d/cand.vcf") demo_options))
             [] demo_files demo_dirs in
  ∃ a, dispatched (log r.2) !! 0%nat = Some (FetchPositions a) ∧
       fa_REF a = replicate 4 "A".
Proof.
  intros r.
  destruct (dispatched (log r.2) !! 0%nat) as [t|] eqn:Hd;
    [|vm_compute in Hd; discriminate Hd].
  pose proof (@mode_decides_engine unit (demo_utils [] (demo_vcf 4)) ["-R"]
                (with_nproc 2 (with_region (Some "/d/cand.vcf") demo_options))
                [] demo_files demo_dirs t) as Hmode.
  cbv zeta in Hmode. fold r in Hmode.
  specialize (Hmode (list_elem_of_lookup_2 _ _ _ Hd)).
  destruct t as [a|a]; [vm_compute in Hd; discriminate Hd|].
  exists a. split; [reflexivity|].
  destruct Hmode as (rf & vcf & Hrf & _ & Hparse & -> & _).
  injection Hrf as <-.
  vm_compute in Hparse. injection Hparse as <-. reflexivity.
Defined.

(** The engine fails on chromosome 2 of 1, 2, 3: chromosome 3 is never
    started. *)
Lemma caller_stops_at_first_failure_witness :
  let L := demo_locals ["1"; "2"; "3"] 1 in
  let r := @pileup_genome unit (demo_utils ["2"] (demo_vcf 0)) [] L
             ["1"; "2"; "3"]
             {| files := demo_files; dirs := demo_dirs; log := [] |} in
  l_nproc L ≤ 1 ∧
  task_key <$> failures (log r.2) = [Some "2"] ∧
  task_key <$> dispatched (log r.2) = [Some "1"; Some "2"] ∧
  completed (log r.2) = dispatched (log r.2).
Proof.
  intros L r. split; [vm_compute; discriminate|].
  destruct (@caller_stops_at_first_failure unit (demo_utils ["2"] (demo_vcf 0))
              [] L ["1"; "2"; "3"] demo_files demo_dirs)
    as (k & t & _ & _ & _ & Hcd).
  - vm_compute. discriminate.
  - vm_compute. discriminate.
  - split; [vm_compute; reflexivity|]. split; [vm_compute; reflexivity|].
    exact Hcd.
Defined.

(** ** The properties on the instance *)

(** A barcode file with an empty second line. *)
Lemma blank_line_empty_barcode_witness :
  head (barcodes_of_lines ["BBB-1" +:+ Py.nl; Py.nl; "AAA-2" +:+ Py.nl])
  = Some "" ∧
  barcodes_of_lines ["BBB-1" +:+ Py.nl; Py.nl; "AAA-2" +:+ Py.nl]
  = [""; "AAA"; "BBB"].
Proof.
  split; [|vm_compute; reflexivity].
  apply (blank_line_empty_barcode _ Py.nl).
  - right. by left.
  - intros c Hc. apply list_elem_of_singleton in Hc as ->. reflexivity.
Defined.

(** Two chromosomes on the caller. *)
Lemma no_task_before_checks_pass_witness :
  let r := @run unit (demo_utils [] (demo_vcf 0)) ["-s"]
             (with_chrom "1,2" demo_options) [] demo_files demo_dirs in
  length (dispatched (log r.2)) = 2%nat ∧
  is_Some (demo_files !! "/d/in.sam") ∧
  Py.dirname "/d/out.vcf" ∈ demo_dirs.
Proof.
  intros r.
  assert (length (dispatched (log r.2)) = 2%nat) as Hlen
      by (vm_compute; reflexivity).
  split; [exact Hlen|].
  destruct (@no_task_before_checks_pass unit (demo_utils [] (demo_vcf 0)) ["-s"]
              (with_chrom "1,2" demo_options) [] demo_files demo_dirs)
    as (_ & _ & (sf & Hsf & Hsam) & (f & Hf & _ & Hdir) & _).
  - fold r. intros Hnil. rewrite Hnil in Hlen. discriminate Hlen.
  - injection Hsf as <-. injection Hf as <-. split; [exact Hsam|exact Hdir].
Defined.

(** One chromosome, with the barcode file of the instance. *)
Lemma options_reach_every_task_witness :
  let options :=
    with_barcodes (Some "/d/bc.tsv") (with_chrom "X" demo_options) in
  let r := @run unit (demo_utils [] (demo_vcf 0)) ["-b"] options
             [] demo_files demo_dirs in
  ∃ t, dispatched (log r.2) = [t] ∧
       task_common t
       = ("/d/in.sam", Some ["AAA"; "AAA"; "BBB"], Some "CR", Some "UR",
          (20, 0%Q, 20, 255, 30), true).
Proof.
  intros options r.
  destruct (dispatched (log r.2)) as [|t [|]] eqn:Hd;
    [vm_compute in Hd; discriminate Hd| |vm_compute in Hd; discriminate Hd].
  exists t. split; [reflexivity|].
  destruct (@options_reach_every_task unit (demo_utils [] (demo_vcf 0)) ["-b"]
              options [] demo_files demo_dirs t) as (sf & Hsf & ->).
  - fold r. rewrite Hd. by left.
  - injection Hsf as <-. vm_compute. reflexivity.
Defined.

(** The second task of the targeted mode. *)
Lemma temp_files_beside_output_witness :
  let r := @run unit (demo_utils [] (demo_vcf 4)) ["-R"]
             (with_nproc 2 (with_region (Some "/d/cand.vcf") demo_options))
             [] demo_files demo_dirs in
  ∃ t, dispatched (log r.2) !! 1%nat = Some t ∧
       task_out t = "/d/out.vcf.temp_1_" ∧
       Py.dirname (task_out t) = "/d".
Proof.
  intros r.
  destruct (dispatched (log r.2) !! 1%nat) as [t|] eqn:Hd;
    [|vm_compute in Hd; discriminate Hd].
  exists t. split; [reflexivity|].
  assert (task_out t = "/d/out.vcf.temp_1_") as Hout.
  { vm_compute in Hd. injection Hd as <-. reflexivity. }
  split; [exact Hout|].
  destruct (@temp_files_beside_output unit (demo_utils [] (demo_vcf 4)) ["-R"]
              (with_nproc 2 (with_region (Some "/d/cand.vcf") demo_options))
              [] demo_files demo_dirs t) as (f & Hf & -> & _).
  - fold r. by eapply list_elem_of_lookup_2.
  - intros a ->. vm_compute in Hd. discriminate Hd.
  - injection Hf as <-. reflexivity.
Defined.

(** The output path [out.vcf], with the current directory among the
    directories. *)
Lemma bare_output_name_rejected_witness :
  let options := with_out_file (Some "out.vcf") demo_options in
  let r := @run unit (demo_utils [] (demo_vcf 0)) ["-o"] options
             [] demo_files {[ "/d"; "." ]} in
  (out_file options = Some "out.vcf" ∧ no_slash "out.vcf") ∧
  r.1 = Exit 1 ∧
  log r.2
  = [EvIsFile "/d/in.sam"; EvIsDir "";
     EvPrint ("Error: No such directory for file" +:+ Py.nl +:+ " -- out.vcf")].
Proof.
  intros options r.
  assert (no_slash "out.vcf") as Hbare.
  { apply (bool_decide_unpack _). vm_compute. exact I. }
  split; [split; [reflexivity|exact Hbare]|].
  destruct (@bare_output_name_rejected unit (demo_utils [] (demo_vcf 0)) ["-o"]
              options [] demo_files {[ "/d"; "." ]} "out.vcf" eq_refl Hbare)
    as ([Hr|(bf & lines & e & Hbf & _)] & _); [|discriminate Hbf].
  split; [exact Hr|]. vm_compute. reflexivity.
Defined.

(** The output path [/data/run1/out.vcf]. *)
Lemma output_directory_tested_witness :
  let options := with_out_file (Some "/data/run1/out.vcf") demo_options in
  let w := {| files := demo_files; dirs := {[ "/data/run1" ]}; log := [] |} in
  ("1"%char ≠ "/"%char ∧ no_slash "out.vcf") ∧
  @check_out_file options w
  = (Ok "/data/run1/out.vcf", add_log w [EvIsDir "/data/run1"]).
Proof.
  intros options w.
  assert (no_slash "out.vcf") as Hbare.
  { apply (bool_decide_unpack _). vm_compute. exact I. }
  split; [split; [discriminate|exact Hbare]|].
  rewrite (output_directory_tested options w "/data/run" "1" "out.vcf" eq_refl);
    [|discriminate|exact Hbare].
  reflexivity.
Defined.

(** The candidate path [none], in lower case: a path, and no file. *)
Lemma candidate_file_must_exist_witness :
  let options := with_region (Some "none") demo_options in
  let r := @run unit (demo_utils [] (demo_vcf 4)) ["-R"] options
             [] demo_files demo_dirs in
  (region_file options = Some "none" ∧ demo_files !! "none" = None) ∧
  r.1 = Exit 1 ∧ parses (log r.2) = [] ∧
  last (log r.2)
  = Some (EvPrint ("Error: No such file" +:+ Py.nl +:+ "    -- none")).
Proof.
  intros options r. split; [split; reflexivity|].
  destruct (@candidate_file_must_exist unit (demo_utils [] (demo_vcf 4)) ["-R"]
              options [] demo_files demo_dirs "none")
    as ([Hr|(bf & lines & e & Hbf & _)] & _ & _ & Hp & _);
    [reflexivity|discriminate|reflexivity| |discriminate Hbf].
  split; [exact Hr|]. split; [exact Hp|]. vm_compute. reflexivity.
Defined.

(** The targeted mode with no process. *)
Lemma targeted_needs_positive_nproc_witness :
  let options :=
    with_nproc 0 (with_region (Some "/d/cand.vcf") demo_options) in
  let r := @run unit (demo_utils [] (demo_vcf 4)) ["-p"] options
             [] demo_files demo_dirs in
  (nproc options ≤ 0 ∧ region_file options = Some "/d/cand.vcf") ∧
  r.1 = Raise ZeroDivisionError ∧ files r.2 = demo_files ∧
  dispatched (log r.2) = [].
Proof.
  intros options r. split; [split; [vm_compute; discriminate|reflexivity]|].
  destruct (@targeted_needs_positive_nproc unit (demo_utils [] (demo_vcf 4))
              ["-p"] options [] demo_files demo_dirs "/d/cand.vcf")
    as (_ & Hf & Hd & _); [vm_compute; discriminate|reflexivity|discriminate|].
  split; [vm_compute; reflexivity|]. split; [exact Hf|exact Hd].
Defined.

(** Two chromosomes and two processes, the second task completing
    first. *)
Lemma successful_run_shape_witness :
  let r := @run unit (demo_utils [] (demo_vcf 0)) ["-p"]
             (with_nproc 2 (with_chrom "1,2" demo_options))
             [1; 0]%nat demo_files demo_dirs in
  r.1 = Ok () ∧
  ∃ evs f,
    log r.2 = evs ++ [EvMerge f (task_out <$> dispatched evs); EvPrintRunTime] ∧
    completed evs ≡ₚ dispatched evs.
Proof.
  intros r.
  assert (r.1 = Ok ()) as Hr by (vm_compute; reflexivity).
  split; [exact Hr|].
  destruct (@successful_run_shape unit (demo_utils [] (demo_vcf 0)) ["-p"]
              (with_nproc 2 (with_chrom "1,2" demo_options))
              [1; 0]%nat demo_files demo_dirs Hr)
    as (evs & f & Hlog & _ & _ & _ & Hperm & _).
  exists evs, f. split; [exact Hlog|exact Hperm].
Defined.

(** The engine fails on the chromosomes 2 and 3, and the task of
    chromosome 3 completes first: the run raises the exception of
    chromosome 2. *)
Lemma first_failure_surfaces_witness :
  let r := @run unit (demo_utils ["2"; "3"] (demo_vcf 0)) ["-p"]
             (with_nproc 4 (with_chrom "1,2,3,4" demo_options))
             [3; 2; 1; 0]%nat demo_files demo_dirs in
  task_key <$> failures (log r.2) = [Some "3"; Some "2"] ∧
  r.1 = Raise (EngineError "2") ∧
  ∃ e, r.1 = Raise e ∧ first_failure (log r.2) e.
Proof.
  intros r.
  assert (task_key <$> failures (log r.2) = [Some "3"; Some "2"]) as Hf
      by (vm_compute; reflexivity).
  split; [exact Hf|]. split; [vm_compute; reflexivity|].
  destruct (@first_failure_surfaces unit (demo_utils ["2"; "3"] (demo_vcf 0))
              ["-p"] (with_nproc 4 (with_chrom "1,2,3,4" demo_options))
              [3; 2; 1; 0]%nat demo_files demo_dirs) as [_ Hraise].
  apply Hraise. fold r. intros Hnil. rewrite Hnil in Hf. discriminate Hf.
Defined.

(** A run that raises prints no run time. *)
Lemma all_done_iff_success_witness :
  let r := @run unit (demo_utils ["2"] (demo_vcf 0)) ["-p"]
             (with_nproc 1 (with_chrom "1,2" demo_options))
             [] demo_files demo_dirs in
  r.1 = Raise (EngineError "2") ∧ EvPrintRunTime ∉ log r.2.
Proof.
  intros r.
  assert (r.1 = Raise (EngineError "2")) as Hr by (vm_compute; reflexivity).
  split; [exact Hr|].
  destruct (@all_done_iff_success unit (demo_utils ["2"] (demo_vcf 0)) ["-p"]
              (with_nproc 1 (with_chrom "1,2" demo_options))
              [] demo_files demo_dirs) as [[Hok _] _].
  intros Hin. fold r in Hok. specialize (Hok Hin).
  rewrite Hr in Hok. discriminate Hok.
Defined.

(** A barcode file that is there and does not decode: the reading raises
    before the alignment file is looked at. *)
Lemma exception_origins_witness :
  let fs := <["/d/bc.bin" := ["AAA-1"]]> demo_files in
  let options := with_barcodes (Some "/d/bc.bin") demo_options in
  let e := ValueError "'utf-8' codec can't decode byte 0xff" in
  let r := @run unit (demo_utils [] (demo_vcf 0)) ["-b"] options
             [] fs demo_dirs in
  r.1 = Raise e ∧
  log r.2 = [EvIsFile "/d/bc.bin"; EvOpen "/d/bc.bin"] ∧
  files r.2 = fs.
Proof.
  intros fs options e r.
  assert (r.1 = Raise e) as Hr by (vm_compute; reflexivity).
  split; [exact Hr|]. split; [|reflexivity].
  destruct (@exception_origins unit (demo_utils [] (demo_vcf 0)) ["-b"]
              options [] fs demo_dirs e Hr)
    as [(bf & lines & Hbf & _ & _ & Hlog)
       |[(rf & Hrf & _)|[(rf & Hrf & _)|[(rf & Hrf & _)|[[Hff _]|Hx]]]]];
    [|discriminate Hrf..| |].
  - injection Hbf as <-. exact Hlog.
  - destruct Hff as (i & t & Hi & _).
    assert (dispatched
              (log (@run unit (demo_utils [] (demo_vcf 0)) ["-b"] options
                      [] fs demo_dirs).2) = []) as Hd
        by (vm_compute; reflexivity).
    rewrite Hd in Hi. discriminate Hi.
  - destruct Hx as (f & parts & Hm & _). vm_compute in Hm. discriminate Hm.
Defined.
